(** * LyricMind: a shallow embedding of the retrieval orchestration code

    The development follows the Python sources of the repository:
    - [lyricmind/config.py]                          (Module [Config])
    - [lyricmind/ingest/data_preparation.py]         (Module [Ingest])
    - [lyricmind/generation/generation_integration.py] (Module [Generation])
    - [lyricmind/cli.py]                             (Module [Cli])
    - the rank fusion of the retrieval module, whose source is not part of
      the tree and which is modelled from the specification (Module [Retrieval]).

    Python values are modelled as follows.  A [str] is the list of its code
    points, so that [len], slicing, [strip] and the regular expression class
    [\s] see characters and not bytes.  String literals are written as UTF-8
    text and decoded by [u].  A [dict] with string keys whose iteration order
    is never observed is a [gmap]; a [dict] whose insertion order is observed
    is an association list ([odict]); a [set] is a [gset].  Exceptions are
    values of [exn] returned through [result]. *)

From Stdlib Require Import ZArith NArith QArith Floats Ascii String List Permutation.
From Stdlib Require Import DecimalString.
From stdpp Require Import gmap strings list fin_maps.

Local Open Scope string_scope.
Local Open Scope list_scope.

(** ** Python strings *)

Abbreviation str := (list N).

Definition bytes_of_string (s : string) : list N :=
  List.map N_of_ascii (list_ascii_of_string s).

(** UTF-8 decoding of a byte sequence: [acc] is the code point under
    construction and [pending] the number of continuation bytes it still
    waits for. *)
Fixpoint utf8_decode (bs : list N) (acc : N) (pending : nat) : str :=
  match bs with
  | [] => []
  | b :: bs' =>
    match pending with
    | O =>
      if (b <? 128)%N then b :: utf8_decode bs' 0%N 0
      else if (b <? 224)%N then utf8_decode bs' (N.land b 31) 1
      else if (b <? 240)%N then utf8_decode bs' (N.land b 15) 2
      else utf8_decode bs' (N.land b 7) 3
    | S O => (acc * 64 + N.land b 63)%N :: utf8_decode bs' 0%N 0
    | S p => utf8_decode bs' (acc * 64 + N.land b 63)%N p
    end
  end.

(** [u "..."] is the Python string literal with the same text. *)
Definition u (s : string) : str := utf8_decode (bytes_of_string s) 0%N 0.
Global Arguments u _ : simpl never.

(** The newline character, written ["\n"] in the sources. *)
Definition nl : str := [10%N].

(** [str.isspace] on one character; it is also the class [\s] of [re] on
    [str] patterns. *)
Definition isspace (c : N) : bool :=
  ((9 <=? c) && (c <=? 13) || (28 <=? c) && (c <=? 32) || (c =? 133) || (c =? 160)
   || (c =? 5760) || (8192 <=? c) && (c <=? 8202) || (c =? 8232) || (c =? 8233)
   || (c =? 8239) || (c =? 8287) || (c =? 12288))%N.

Fixpoint lstrip (s : str) : str :=
  match s with
  | c :: s' => if isspace c then lstrip s' else s
  | [] => []
  end.

Definition rstrip (s : str) : str := rev (lstrip (rev s)).

(** [s.strip()] *)
Definition strip (s : str) : str := rstrip (lstrip s).

Fixpoint startswith (p s : str) : bool :=
  match p, s with
  | [], _ => true
  | a :: p', b :: s' => (a =? b)%N && startswith p' s'
  | _ :: _, [] => false
  end.

(** [needle in hay] on strings: substring containment. *)
Fixpoint str_in (needle hay : str) : bool :=
  startswith needle hay ||
  match hay with
  | [] => false
  | _ :: hay' => str_in needle hay'
  end.

(** [sep.join(parts)] *)
Fixpoint join (sep : str) (parts : list str) : str :=
  match parts with
  | [] => []
  | [p] => p
  | p :: ps => p ++ sep ++ join sep ps
  end.

(** [str(n)] for a natural number, as an f-string renders it. *)
Definition str_of_nat (n : nat) : str :=
  bytes_of_string (NilZero.string_of_uint (Nat.to_uint n)).
Global Arguments str_of_nat _ : simpl never.

(** [s[i:j]] for [0 <= i <= j]. *)
Definition slice (i j : nat) (s : str) : str := take (j - i) (drop i s).

(** Truthiness of a string: [bool(s)]. *)
Definition truthy (s : str) : bool :=
  match s with [] => false | _ :: _ => true end.

(** [s.split(c)] on a separator of one character; [cur] is the piece under
    construction. *)
Fixpoint split_char (c : N) (s : str) (cur : str) : list str :=
  match s with
  | [] => [cur]
  | a :: s' => if (a =? c)%N then cur :: split_char c s' [] else split_char c s' (cur ++ [a])
  end.

(** [c * n] for a character [c]. *)
Definition times (c : N) (n : nat) : str := replicate n c.

(** The characters at which [str.splitlines] ends a line. *)
Definition is_linebreak (c : N) : bool :=
  ((10 <=? c) && (c <=? 13) || (28 <=? c) && (c <=? 30) || (c =? 133)
   || (c =? 8232) || (c =? 8233))%N.

(** [s.splitlines()]: the lines without their ends; a carriage return
    followed by a line feed ends one line, and the end of the last line
    opens no further, empty, line.  [cur] is the line under construction. *)
Fixpoint splitlines (s : str) (cur : str) : list str :=
  match s with
  | [] => match cur with [] => [] | _ :: _ => [cur] end
  | a :: s' =>
    if is_linebreak a then
      cur :: match s' with
             | b :: s'' =>
               if ((a =? 13) && (b =? 10))%N then splitlines s'' [] else splitlines s' []
             | [] => splitlines s' []
             end
    else splitlines s' (cur ++ [a])
  end.

(** [s[:n]] for any integer [n]: a negative [n] counts from the end. *)
Definition prefix (n : Z) (s : str) : str :=
  if (0 <=? n)%Z then take (Z.to_nat n) s
  else take (length s - Z.to_nat (- n)) s.

(** ** Exceptions *)

Inductive exn : Type :=
| ValueError
| TypeError
| FileNotFoundError.

Inductive result (A : Type) : Type :=
| Ok (a : A)
| Raise (e : exn).
Arguments Ok {A} a.
Arguments Raise {A} e.


(** [try: ... except] is not used on the modelled paths, so an exception
    simply propagates: [bind] is the sequencing of two fallible steps. *)
Definition bind {A B} (r : result A) (f : A -> result B) : result B :=
  match r with
  | Ok a => f a
  | Raise e => Raise e
  end.

(** ** Python built-ins on lists and dicts *)

Section Sorted.
Context {A K : Type} (ltb : K -> K -> bool) (key : A -> K).

(** One step of a stable descending insertion: [x], which stood before every
    element of [l] in the input, moves right only past strictly larger keys. *)
Fixpoint insert_desc (x : A) (l : list A) : list A :=
  match l with
  | [] => [x]
  | y :: l' => if ltb (key x) (key y) then y :: insert_desc x l' else x :: l
  end.

(** [sorted(l, key=key, reverse=True)]: Python's sort is stable, and with
    [reverse=True] elements with equal keys keep their original order. *)
Definition sorted_reverse (l : list A) : list A := foldr insert_desc [] l.

End Sorted.

(** [x] occurs somewhere before [y] in [l]. *)
Definition before {A} (x y : A) (l : list A) : Prop :=
  exists l1 l2 l3, l = l1 ++ x :: l2 ++ y :: l3.

(** An insertion-ordered [dict] with string keys: keys are unique and stand in
    the order of their first insertion, as [dict.keys()] yields them. *)
Definition odict (V : Type) : Type := list (str * V).

Fixpoint od_get {V} (d : odict V) (k : str) : option V :=
  match d with
  | [] => None
  | (k', v) :: d' => if decide (k' = k) then Some v else od_get d' k
  end.

(** [d[k] = v] *)
Fixpoint od_set {V} (d : odict V) (k : str) (v : V) : odict V :=
  match d with
  | [] => [(k, v)]
  | (k', v') :: d' => if decide (k' = k) then (k, v) :: d' else (k', v') :: od_set d' k v
  end.

Definition od_keys {V} (d : odict V) : list str := d.*1.

(** [d.setdefault(k, v)] on a dict whose order is not observed. *)
Definition setdefault (k : string) (v : str) (d : gmap string str) : gmap string str :=
  match d !! k with
  | Some _ => d
  | None => <[k := v]> d
  end.

(** [range(0, stop, step)] for a positive [step]. *)
Definition py_range (stop step : nat) : list nat :=
  List.map (fun j => j * step) (seq 0 ((stop + step - 1) / step)).

(** ** Documents *)

(** [langchain_core.documents.Document].  Every metadata entry written by this
    program is a string, except [chunk_index], an [int] that the chunker adds
    and nothing reads back: it has a field of its own.  An entry whose value
    is [None] is modelled as an absent key ([metadata.get] cannot tell the two
    apart). *)
Record Document : Type := mkDocument {
  page_content : str;
  metadata : gmap string str;
  chunk_index : option nat
}.

Global Instance Document_eq_dec : EqDecision Document.
Proof. solve_decision. Defined.

(** ** lyricmind/config.py *)

Module Config.

(** A value as a [Dict[str, Any]] holds it. *)
Inductive value : Type :=
| VStr (s : str)
| VInt (z : Z)
| VFloat (f : float).

(** The dataclass [RAGConfig]; a dataclass does not check the annotated
    types, so every field holds a [value]. *)
Record RAGConfig : Type := mkRAGConfig {
  data_path : value;
  index_save_path : value;
  embedding_model : value;
  llm_model : value;
  top_k : value;
  top_cmp_k : value;
  temperature : value;
  max_tokens : value
}.

Definition DEFAULT_CONFIG : RAGConfig :=
  {| data_path := VStr (u "data");
     index_save_path := VStr (u "index");
     embedding_model := VStr (u "BAAI/bge-small-zh-v1.5");
     llm_model := VStr (u "deepseek-reasoner");
     top_k := VInt 10;
     top_cmp_k := VInt 3;
     temperature := VFloat 0x1.6666666666666p-1%float;
     max_tokens := VInt 2048 |}.

Definition field_names : gset string :=
  {[ "data_path"; "index_save_path"; "embedding_model"; "llm_model";
     "top_k"; "top_cmp_k"; "temperature"; "max_tokens" ]}.

(** [RAGConfig.from_dict]: the class is called with the entries of the dict
    as keyword arguments, which raises [TypeError] on a keyword that is no field, and a field that is not given takes its
    default. *)
Definition from_dict (config_dict : gmap string value) : result RAGConfig :=
  if decide (dom config_dict ⊆ field_names) then
    let field (name : string) (dflt : RAGConfig -> value) : value :=
      default (dflt DEFAULT_CONFIG) (config_dict !! name) in
    Ok {| data_path := field "data_path" data_path;
          index_save_path := field "index_save_path" index_save_path;
          embedding_model := field "embedding_model" embedding_model;
          llm_model := field "llm_model" llm_model;
          top_k := field "top_k" top_k;
          top_cmp_k := field "top_cmp_k" top_cmp_k;
          temperature := field "temperature" temperature;
          max_tokens := field "max_tokens" max_tokens |}
  else Raise TypeError.

(** [RAGConfig.to_dict] *)
Definition to_dict (self : RAGConfig) : gmap string value :=
  <["data_path" := data_path self]>
  (<["index_save_path" := index_save_path self]>
  (<["embedding_model" := embedding_model self]>
  (<["llm_model" := llm_model self]>
  (<["top_k" := top_k self]>
  (<["temperature" := temperature self]>
  (<["max_tokens" := max_tokens self]> ∅)))))).

End Config.

(** ** lyricmind/generation/generation_integration.py: the list answer *)

Module Generation.

(** The loop that collects [song_names]: a title is appended unless it is
    already in the list. *)
Definition collect_song_names (context_docs : list Document) : list str :=
  fold_left
    (fun song_names doc =>
       let song_name := default (u "未知歌曲") (metadata doc !! "title") in
       if decide (song_name ∈ song_names) then song_names
       else song_names ++ [song_name])
    context_docs [].

(** [[f"{i+1}.{name}" for i, name in enumerate(names)]] *)
Definition numbered (names : list str) : list str :=
  imap (fun i name => str_of_nat (i + 1) ++ u "." ++ name) names.

Definition generate_list_answer (query : str) (context_docs : list Document) : str :=
  match context_docs with
  | [] => u "抱歉，没有找到相关的歌曲信息。"
  | _ :: _ =>
    let song_names := collect_song_names context_docs in
    if (length song_names =? 1)%nat then
      u "为您推荐：" ++ nth 0 song_names []
    else if (length song_names <=? 15)%nat then
      u "为您推荐以下歌曲：" ++ nl ++ join nl (numbered song_names)
    else
      u "为您推荐以下歌曲：" ++ nl ++ join nl (numbered (take 5 song_names))
        ++ nl ++ nl ++ u "还有其他 " ++ str_of_nat (length song_names - 5)
        ++ u " 首歌曲可供选择"
  end.

(** *** The calls that wrap the language model

    [invoke] stands for [chain.invoke]: the prompt of the method filled in
    with the query, sent to the model, the reply parsed to a string. *)

Definition routes : list str := [u "list"; u "general"; u "compare"; u "direct"].

(** [query_router] *)
Definition query_router (invoke : str -> str) (query : str) : str :=
  let result := strip (invoke query) in
  if decide (result ∈ routes) then result else u "general".

(** [query_rewritten] *)
Definition query_rewritten (invoke : str -> str) (query : str) : str :=
  let result := invoke query in
  if negb (truthy result) then query
  else
    let response := strip result in
    response.

(** [extract_subqueries] *)
Definition extract_subqueries (invoke : str -> str) (query : str) : list str :=
  let text := invoke query in
  let lines :=
    List.map strip
      (List.filter (fun line => truthy (strip line)) (split_char 10%N text [])) in
  lines.

(** *** The context of an answer *)

(** [if key in doc.metadata: metadata_info += doc.metadata[key]] *)
Definition add_field (doc : Document) (key : string) (metadata_info : str) : str :=
  match metadata doc !! key with
  | Some v => metadata_info ++ v
  | None => metadata_info
  end.

(** The text [doc_text] that [_build_context] builds for the [i]-th
    document. *)
Definition doc_text (i : nat) (doc : Document) : str :=
  let metadata_info := u "「歌曲" ++ str_of_nat i ++ u "」" in
  let metadata_info := add_field doc "title" metadata_info in
  let metadata_info := add_field doc "artist" metadata_info in
  let metadata_info := add_field doc "album" metadata_info in
  let metadata_info := add_field doc "year" metadata_info in
  let metadata_info := add_field doc "region" metadata_info in
  let metadata_info := add_field doc "type" metadata_info in
  metadata_info ++ nl ++ page_content doc ++ nl.

(** The loop of [_build_context] over [enumerate(docs, i)], which stops at
    the first document that does not fit. *)
Fixpoint context_loop (docs : list Document) (i : nat) (max_length : Z)
    (context_parts : list str) (current_length : Z) : list str :=
  match docs with
  | [] => context_parts
  | doc :: rest =>
    let t := doc_text i doc in
    if (max_length <? current_length + Z.of_nat (length t))%Z
    then context_parts
    else context_loop rest (S i) max_length (context_parts ++ [t])
           (current_length + Z.of_nat (length t))%Z
  end.

(** [_build_context] *)
Definition _build_context (docs : list Document) (max_length : Z) : str :=
  match docs with
  | [] => u "暂无相关歌曲信息。"
  | _ :: _ =>
    let context_parts := context_loop docs 1 max_length [] 0%Z in
    nl ++ times 61%N 50 ++ join nl context_parts
  end.

End Generation.

(** ** The fragment of Python's [re] that the ingestion code uses *)

Module Re.

(** A set of characters: [.] under [re.S] (any character, newline
    included), [\s], or one literal character. *)
Inductive cclass : Type :=
| Dot
| Space
| Chr (c : N).

Definition in_class (cl : cclass) (c : N) : bool :=
  match cl with
  | Dot => true
  | Space => isspace c
  | Chr c' => (c =? c')%N
  end.

(** Patterns.  Repetition is only ever applied to a single character class
    in the sources, which keeps the matcher structurally recursive. *)
Inductive regex : Type :=
| Lit (s : str)              (* literal text, as [re.escape] protects it *)
| Star (cl : cclass)         (* [cl*], greedy *)
| Plus (cl : cclass)         (* [cl+], greedy *)
| PlusLazy (cl : cclass)     (* [cl+?] *)
| Seq (r1 r2 : regex)
| Alt (r1 r2 : regex)        (* [r1|r2], left alternative first *)
| Group (r : regex)          (* a capturing group *)
| Ahead (r : regex)          (* [(?=r)] *)
| EndZ.                      (* [\Z] *)

(** ["|".join(...)] of a non-empty list of alternatives. *)
Fixpoint alt_of (rs : list regex) : regex :=
  match rs with
  | [] => Lit []
  | [r] => r
  | r :: rs' => Alt r (alt_of rs')
  end.

(** A successful match: the unread rest of the subject and the text of the
    groups closed so far, in order. *)
Definition outcome : Type := option (str * list str).

(** Greedy repetition: take a character when possible and give it back only
    if the continuation fails. *)
Fixpoint star_greedy (cl : cclass) (s : str) (k : str -> outcome) : outcome :=
  match s with
  | c :: s' =>
    if in_class cl c then
      match star_greedy cl s' k with
      | Some r => Some r
      | None => k s
      end
    else k s
  | [] => k s
  end.

(** Lazy repetition: try the continuation first and take one more character
    only if it fails. *)
Fixpoint star_lazy (cl : cclass) (s : str) (k : str -> outcome) : outcome :=
  match k s with
  | Some r => Some r
  | None =>
    match s with
    | c :: s' => if in_class cl c then star_lazy cl s' k else None
    | [] => None
    end
  end.

(** Backtracking match of [r] at the start of [s], in continuation-passing
    style; [caps] are the groups captured so far. *)
Fixpoint exec (r : regex) (s : str) (caps : list str)
    (k : str -> list str -> outcome) : outcome :=
  match r with
  | Lit p => if startswith p s then k (drop (length p) s) caps else None
  | Star cl => star_greedy cl s (fun s' => k s' caps)
  | Plus cl =>
    match s with
    | c :: s' => if in_class cl c then star_greedy cl s' (fun s'' => k s'' caps) else None
    | [] => None
    end
  | PlusLazy cl =>
    match s with
    | c :: s' => if in_class cl c then star_lazy cl s' (fun s'' => k s'' caps) else None
    | [] => None
    end
  | Seq r1 r2 => exec r1 s caps (fun s' caps' => exec r2 s' caps' k)
  | Alt r1 r2 =>
    match exec r1 s caps k with
    | Some x => Some x
    | None => exec r2 s caps k
    end
  | Group r' =>
    exec r' s caps (fun s' caps' => k s' (caps' ++ [take (length s - length s') s]))
  | Ahead r' =>
    match exec r' s caps (fun s' caps' => Some (s', caps')) with
    | Some (_, caps') => k s caps'
    | None => None
    end
  | EndZ => match s with [] => k s caps | _ :: _ => None end
  end.

(** [re.match]: the pattern anchored at the start of [s]. *)
Definition match_at (r : regex) (s : str) : outcome :=
  exec r s [] (fun s' caps => Some (s', caps)).

(** [re.search]: the leftmost match; the result is its groups. *)
Fixpoint search (r : regex) (s : str) : option (list str) :=
  match match_at r s with
  | Some (_, caps) => Some caps
  | None =>
    match s with
    | [] => None
    | _ :: s' => search r s'
    end
  end.

(** [re.findall] for a pattern with groups: the groups of every match, left
    to right, matches not overlapping.  [skip] counts the characters of the
    previous match that are still to be passed over. *)
Fixpoint findall_from (r : regex) (s : str) (skip : nat) : list (list str) :=
  match skip with
  | S n =>
    match s with
    | [] => []
    | _ :: s' => findall_from r s' n
    end
  | O =>
    match match_at r s with
    | Some (rest, caps) =>
      caps :: match s with
              | [] => []
              | _ :: s' => findall_from r s' (length s - length rest - 1)
              end
    | None =>
      match s with
      | [] => []
      | _ :: s' => findall_from r s' 0
      end
    end
  end.

Definition findall (r : regex) (s : str) : list (list str) := findall_from r s 0.

(** [re.split] for a pattern without groups that never matches the empty
    string: [cur] is the piece under construction. *)
Fixpoint split_from (r : regex) (s : str) (skip : nat) (cur : str) : list str :=
  match skip with
  | S n =>
    match s with
    | [] => [cur]
    | _ :: s' => split_from r s' n cur
    end
  | O =>
    match s with
    | [] => [cur]
    | c :: s' =>
      match match_at r s with
      | Some (rest, _) => cur :: split_from r s' (length s - length rest - 1) []
      | None => split_from r s' 0 (cur ++ [c])
      end
    end
  end.

Definition split (r : regex) (s : str) : list str := split_from r s 0 [].

End Re.

(** ** The fragment of [pathlib] that the ingestion code uses (POSIX paths) *)

Module Pathlib.

(** [s.split(c)] on one separator character. *)
Fixpoint split_on (c : N) (s : str) (cur : str) : list str :=
  match s with
  | [] => [cur]
  | a :: s' => if (a =? c)%N then cur :: split_on c s' [] else split_on c s' (cur ++ [a])
  end.

(** The root of a path: ["/"], or ["//"] for exactly two leading slashes. *)
Definition root (s : str) : str :=
  if startswith (u "//") s && negb (startswith (u "///") s) then u "//"
  else if startswith (u "/") s then u "/"
  else [].

(** The components after the root: empty components and ["."] are dropped. *)
Definition components (s : str) : list str :=
  List.filter (fun p => truthy p && negb (bool_decide (p = u ".")))
    (split_on 47%N s []).

(** [Path(s).parts] *)
Definition parts (s : str) : list str :=
  (if truthy (root s) then [root s] else []) ++ components s.

(** [Path(s).name] *)
Definition name (s : str) : str := List.last (components s) [].

(** [name.rfind('.')]: the index of the last dot. *)
Fixpoint rfind_dot (s : str) (i : nat) (found : option nat) : option nat :=
  match s with
  | [] => found
  | c :: s' => rfind_dot s' (S i) (if (c =? 46)%N then Some i else found)
  end.

(** [Path(s).stem]: the name without its last suffix; a leading or a
    trailing dot starts no suffix. *)
Definition stem (s : str) : str :=
  let nm := name s in
  match rfind_dot nm 0 None with
  | Some i => if (0 <? i)%nat && (i <? length nm - 1)%nat then take i nm else nm
  | None => nm
  end.

End Pathlib.

(** ** lyricmind/ingest/data_preparation.py *)

Module Ingest.
Import Re.

(** [DataPreparationModule.CATEGORY_MAPPING], in the order of the literal. *)
Definition CATEGORY_MAPPING : list (str * string) :=
  [ (u "歌名", "title");
    (u "歌手", "artist");
    (u "收录专辑", "album");
    (u "发行时间", "year");
    (u "地区", "region");
    (u "类型", "type");
    (u "歌词", "lyrics") ].

(** The common tail [(.+?)(?=\n##\s*|\Z)] of the two header patterns. *)
Definition section_body : regex :=
  Seq (Group (PlusLazy Dot))
      (Ahead (Alt (Seq (Lit (nl ++ u "##")) (Star Space)) EndZ)).

(** The pattern of [_enhance_metadata] for one key:
    [##\s*key\s*\n+(.+?)(?=\n##\s*|\Z)]. *)
Definition field_pattern (cn_key : str) : regex :=
  Seq (Lit (u "##")) (Seq (Star Space) (Seq (Lit cn_key) (Seq (Star Space)
    (Seq (Plus (Chr 10%N)) section_body)))).

(** The pattern of [_split_by_header]:
    [(##\s*(?:k1|...|kn))\s*\n(.+?)(?=\n##\s*|\Z)]. *)
Definition header_pattern (header_keys : list str) : regex :=
  Seq (Group (Seq (Lit (u "##")) (Seq (Star Space) (alt_of (List.map Lit header_keys)))))
    (Seq (Star Space) (Seq (Lit nl) section_body)).

(** The pattern of the generic split: [\n(?=##\s+)]. *)
Definition any_header_split : regex :=
  Seq (Lit nl) (Ahead (Seq (Lit (u "##")) (Plus Space))).

(** [d.get(k, dflt)] *)
Definition get_default (d : gmap string str) (k : string) (dflt : str) : str :=
  default dflt (d !! k).

(** The body of the loop over [CATEGORY_MAPPING.items()]: a field found in
    the text overwrites the entry of its English key. *)
Definition extract_field (text : str) (md : gmap string str) (item : str * string)
    : gmap string str :=
  let '(cn_key, en_key) := item in
  match search (field_pattern cn_key) text with
  | Some caps => <[en_key := strip (nth 0 caps [])]> md
  | None => md
  end.

Definition extract_fields (text : str) (md : gmap string str) : gmap string str :=
  fold_left (extract_field text) CATEGORY_MAPPING md.

(** [_enhance_metadata]: the document is updated in place and is returned
    here with its new metadata. *)
Definition _enhance_metadata (doc : Document) : Document :=
  let file_path := get_default (metadata doc) "source" [] in
  let path_parts := Pathlib.parts file_path in
  let md := metadata doc in
  let md :=
    if (2 <=? length path_parts)%nat
    then <["artist_from_path" := nth (length path_parts - 2) path_parts []]> md
    else <["artist_from_path" := u "未知歌手"]> md in
  let md := <["title_from_filename" := Pathlib.stem file_path]> md in
  let text := page_content doc in
  let md := extract_fields text md in
  let md := setdefault "title" (get_default md "title_from_filename" (u "未知标题")) md in
  let md := setdefault "artist" (get_default md "artist_from_path" (u "未知歌手")) md in
  let md := setdefault "album" (get_default md "album" (u "未知")) md in
  let md := setdefault "year" (get_default md "year" (u "未知")) md in
  let md := setdefault "region" (get_default md "region" (u "未知")) md in
  let md := setdefault "type" (get_default md "year" (u "未知")) md in
  let md := setdefault "lyrics" (get_default md "lyrics" []) md in
  {| page_content := page_content doc; metadata := md; chunk_index := chunk_index doc |}.

(** One entry of [data_path.rglob('*.md')]: the path as [str(md_file)]
    prints it, the path relative to the data directory, and the text of the
    file, or [None] when reading it fails. *)
Record md_file : Type := mkFile {
  file_source : str;
  file_rel : str;
  file_text : option str
}.

Section Load.
(** [hashlib.md5(rel.encode("utf-8")).hexdigest()] *)
Variable md5_hexdigest : str -> str.

(** [load_documents]: [data_path_exists] is [self.data_path.exists()] and
    [files] what [rglob] yields. A file that cannot be read is skipped. *)
Definition load_documents (data_path_exists : bool) (files : list md_file)
    : result (list Document) :=
  if data_path_exists then
    Ok (omap
          (fun f =>
             match file_text f with
             | None => None
             | Some text =>
               let meta : gmap string str :=
                 <["source" := file_source f]>
                 (<["parent_id" := md5_hexdigest (file_rel f)]>
                 (<["doc_type" := u "parent"]> ∅)) in
               Some (_enhance_metadata
                       {| page_content := text; metadata := meta; chunk_index := None |})
             end)
          files)
  else Raise FileNotFoundError.
End Load.

(** [_split_by_header] *)
Definition _split_by_header (text : str) (header_keys : list str) : list str :=
  if negb (truthy text) then []
  else
    let matches :=
      match header_keys with
      | [] => []
      | _ :: _ => findall (header_pattern header_keys) text
      end in
    match matches with
    | _ :: _ => List.map (fun m => strip (nth 1 m [])) matches
    | [] =>
      let parts := split any_header_split text in
      List.map strip (List.filter (fun p => truthy (strip p)) parts)
    end.

(** [_split_by_size]: [range] raises [ValueError] on a step of zero and is
    empty on a negative step. *)
Definition _split_by_size (text : str) (size : Z) : result (list str) :=
  if negb (truthy text) then Ok []
  else
    let text := strip text in
    if (Z.of_nat (length text) <=? size)%Z then Ok [text]
    else if (size =? 0)%Z then Raise ValueError
    else if (size <? 0)%Z then Ok []
    else
      let size := Z.to_nat size in
      Ok (List.map (fun i => slice i (i + size) text) (py_range (length text) size)).

(** The state of a [DataPreparationModule]. *)
Record DataPreparationModule : Type := mkModule {
  chunk_size_chars : Z;
  parent_documents : list Document;
  chunks : list Document;
  parent_child_map : gmap str (option str)
}.

Section Chunking.
(** [str(uuid.uuid4())]: the n-th identifier drawn. *)
Variable uuid4 : nat -> str.

(** The blocks of one parent. *)
Definition blocks_of (self : DataPreparationModule) (use_header_split : bool)
    (parent : Document) : result (list str) :=
  let text := page_content parent in
  let blocks :=
    if use_header_split
    then _split_by_header text (List.map fst CATEGORY_MAPPING)
    else [text] in
  if (length blocks <=? 1)%nat then
    let lyrics_text := strip (get_default (metadata parent) "lyrics" []) in
    if truthy lyrics_text then Ok [lyrics_text]
    else _split_by_size text (chunk_size_chars self)
  else Ok blocks.

(** The child built from block [idx] of [parent]; [drawn] identifiers have
    been drawn before. *)
Definition make_child (parent : Document) (drawn idx : nat) (block : str) : Document :=
  let child_id := uuid4 drawn in
  let child_meta := <["chunk_id" := child_id]> (metadata parent) in
  let child_meta :=
    match metadata parent !! "parent_id" with
    | Some pid => <["parent_id" := pid]> child_meta
    | None => delete "parent_id" child_meta
    end in
  let child_meta := <["doc_type" := u "child"]> child_meta in
  {| page_content := strip block; metadata := child_meta; chunk_index := Some idx |}.

(** The outer loop of [chunk_documents]: [acc] is [child_chunks] and [pcm]
    the [parent_child_map] so far. *)
Fixpoint chunk_parents (self : DataPreparationModule) (use_header_split : bool)
    (parents : list Document) (acc : list Document) (pcm : gmap str (option str))
    : result (list Document * gmap str (option str)) :=
  match parents with
  | [] => Ok (acc, pcm)
  | parent :: rest =>
    bind (blocks_of self use_header_split parent) (fun blocks =>
      let children := imap (fun idx block => make_child parent (length acc + idx) idx block) blocks in
      let pcm' :=
        fold_left
          (fun m child =>
             <[get_default (metadata child) "chunk_id" [] := metadata parent !! "parent_id"]> m)
          children pcm in
      chunk_parents self use_header_split rest (acc ++ children) pcm')
  end.

(** [chunk_documents]: the chunks and the module with [chunks] and
    [parent_child_map] updated. *)
Definition chunk_documents (self : DataPreparationModule) (use_header_split : bool)
    : result (list Document * DataPreparationModule) :=
  match parent_documents self with
  | [] => Raise ValueError
  | _ :: _ =>
    bind (chunk_parents self use_header_split (parent_documents self) [] (parent_child_map self))
      (fun '(child_chunks, pcm) =>
         Ok (child_chunks,
             {| chunk_size_chars := chunk_size_chars self;
                parent_documents := parent_documents self;
                chunks := child_chunks;
                parent_child_map := pcm |}))
  end.
End Chunking.

(** The inner loop of [get_parent_documents]: the first parent whose
    [parent_id] is [pid]. *)
Definition find_parent (parents : list Document) (pid : str) : option Document :=
  List.find (fun p => bool_decide (metadata p !! "parent_id" = Some pid)) parents.

(** The first loop of [get_parent_documents]: [parent_scores] keeps the
    insertion order of its keys, [parent_map] is only looked up. *)
Definition count_parents (parents : list Document) (child_chunks : list Document)
    : odict nat * gmap str Document :=
  fold_left
    (fun '(parent_scores, parent_map) c =>
       match metadata c !! "parent_id" with
       | None => (parent_scores, parent_map)
       | Some pid =>
         if negb (truthy pid) then (parent_scores, parent_map)
         else
           let parent_scores := od_set parent_scores pid (default 0 (od_get parent_scores pid) + 1) in
           let parent_map :=
             match parent_map !! pid with
             | Some _ => parent_map
             | None =>
               match find_parent parents pid with
               | Some p => <[pid := p]> parent_map
               | None => parent_map
               end
             end in
           (parent_scores, parent_map)
       end)
    child_chunks ([], ∅).

(** [get_parent_documents] *)
Definition get_parent_documents (self : DataPreparationModule)
    (child_chunks : list Document) : list Document :=
  let '(parent_scores, parent_map) := count_parents (parent_documents self) child_chunks in
  let sorted_pids :=
    sorted_reverse Nat.ltb (fun x => default 0 (od_get parent_scores x)) (od_keys parent_scores) in
  omap (fun pid => parent_map !! pid) sorted_pids.

(** One record of [create_index_items]. *)
Record index_item : Type := mkItem {
  item_id : str;
  item_text : str;
  item_metadata : gmap string str;
  item_chunk_index : option nat
}.

Section IndexItems.
(** [str(uuid.uuid4())]: the n-th identifier drawn. *)
Variable uuid4 : nat -> str.

(** The loop of [create_index_items]; [drawn] counts the identifiers drawn
    so far: one is drawn only for a chunk whose [chunk_id] is missing or
    empty. *)
Fixpoint index_items (cs : list Document) (drawn : nat) : list index_item :=
  match cs with
  | [] => []
  | c :: rest =>
    let meta := metadata c in
    match meta !! "chunk_id" with
    | Some cid =>
      if truthy cid
      then {| item_id := cid; item_text := page_content c;
              item_metadata := meta; item_chunk_index := chunk_index c |}
           :: index_items rest drawn
      else {| item_id := uuid4 drawn; item_text := page_content c;
              item_metadata := meta; item_chunk_index := chunk_index c |}
           :: index_items rest (S drawn)
    | None =>
      {| item_id := uuid4 drawn; item_text := page_content c;
         item_metadata := meta; item_chunk_index := chunk_index c |}
      :: index_items rest (S drawn)
    end
  end.

(** [create_index_items] *)
Definition create_index_items (self : DataPreparationModule) : result (list index_item) :=
  match chunks self with
  | [] => Raise ValueError
  | _ :: _ => Ok (index_items (chunks self) 0)
  end.
End IndexItems.

(** [filter_by]: [value] is [None] to ask for the documents without the
    key. *)
Definition filter_by (self : DataPreparationModule) (key : string) (value : option str)
    : list Document :=
  List.filter (fun d => bool_decide (metadata d !! key = value)) (parent_documents self).

Definition filter_documents_by_artist (self : DataPreparationModule) (artist : str) :=
  filter_by self "artist" (Some artist).

Definition filter_documents_by_region (self : DataPreparationModule) (region : str) :=
  filter_by self "region" (Some region).

Definition filter_documents_by_title (self : DataPreparationModule) (title : str) :=
  filter_by self "title" (Some title).

Definition filter_documents_by_album (self : DataPreparationModule) (album : str) :=
  filter_by self "album" (Some album).

(** [filter_chunks_by_keyword] *)
Definition filter_chunks_by_keyword (self : DataPreparationModule) (keyword : str)
    : list Document :=
  List.filter (fun c => str_in keyword (page_content c)) (chunks self).

(** [counts[k] = counts.get(k, 0) + 1] *)
Definition tally (counts : odict nat) (k : str) : odict nat :=
  od_set counts k (default 0 (od_get counts k) + 1).

(** What [get_statistics] returns.  The average is the exact quotient, which
    Python rounds to a float. *)
Record statistics : Type := mkStatistics {
  total_parents : nat;
  total_chunks : nat;
  artists_count : odict nat;
  regions_count : odict nat;
  years_count : odict nat;
  albums_count : odict nat;
  avg_chunk_size_chars : Q
}.

(** What a call of [get_statistics] ends in: the division by the number of
    chunks raises when there is none. *)
Inductive statistics_outcome : Type :=
| Statistics (s : statistics)
| ZeroDivisionError.

(** The loop of [get_statistics] over the parents: the four counters are
    advanced together. *)
Definition count_fields (parents : list Document)
    : odict nat * odict nat * odict nat * odict nat :=
  fold_left
    (fun '(artists_count, regions_count, years_count, albums_count) d =>
       let md := metadata d in
       (tally artists_count (get_default md "artist" (u "未知")),
        tally regions_count (get_default md "region" (u "未知")),
        tally years_count (get_default md "year" (u "未知")),
        tally albums_count (get_default md "album" (u "未知"))))
    parents ([], [], [], []).

(** [sum(len(c.page_content or "") for c in self.chunks)] *)
Definition total_chunk_chars (cs : list Document) : nat :=
  foldr (fun c acc => length (page_content c) + acc) 0 cs.

(** [get_statistics] *)
Definition get_statistics (self : DataPreparationModule) : statistics_outcome :=
  let total_parents := length (parent_documents self) in
  let total_chunks := length (chunks self) in
  let '(artists_count, regions_count, years_count, albums_count) :=
    count_fields (parent_documents self) in
  let stats (avg : Q) :=
    Statistics
      {| total_parents := total_parents;
         total_chunks := total_chunks;
         artists_count := artists_count;
         regions_count := regions_count;
         years_count := years_count;
         albums_count := albums_count;
         avg_chunk_size_chars := avg |} in
  match total_parents with
  | O => stats 0%Q
  | S _ =>
    match total_chunks with
    | O => ZeroDivisionError
    | S _ => stats (inject_Z (Z.of_nat (total_chunk_chars (chunks self)))
                    / inject_Z (Z.of_nat total_chunks))%Q
    end
  end.

(** [_make_summary] *)
Definition _make_summary (text : str) (max_len : Z) : str :=
  let s := join [32%N] (splitlines text []) in
  let s := strip s in
  prefix max_len s ++ (if (max_len <? Z.of_nat (length s))%Z then u "..." else []).

(** The loop of [_clean_chunk_text] over the lines: a line that is a title
    is dropped, and so is a blank line that follows a blank line. *)
Fixpoint clean_lines (lines : list str) (cleaned : list str) : list str :=
  match lines with
  | [] => cleaned
  | line :: rest =>
    if startswith (u "##") (strip line) then clean_lines rest cleaned
    else
      let stripped := strip line in
      if decide (stripped = []) then
        match last cleaned with
        | Some [] => clean_lines rest cleaned
        | _ => clean_lines rest (cleaned ++ [[]])
        end
      else clean_lines rest (cleaned ++ [stripped])
  end.

(** [_clean_chunk_text] *)
Definition _clean_chunk_text (text : str) : str :=
  let lines := split_char 10%N text [] in
  strip (join nl (clean_lines lines [])).

End Ingest.

(** ** The rank fusion of the retrieval module *)

Module Retrieval.

(** A chunk with the fused score attached to it. *)
Record ScoredDocument : Type := mkScored {
  doc : Document;
  rrf_score : Q
}.

(** Chunks are identified by their [chunk_id]. *)
Definition chunk_id (d : Document) : str := default [] (metadata d !! "chunk_id").

(** The 1-based position of the chunk [cid] in a ranked list, counting from
    [rank]. *)
Fixpoint rank_from (cid : str) (l : list Document) (rank : nat) : option nat :=
  match l with
  | [] => None
  | d :: l' => if decide (chunk_id d = cid) then Some rank else rank_from cid l' (S rank)
  end.

Definition rank_in (cid : str) (l : list Document) : option nat := rank_from cid l 1.

(** What one ranked list adds to the score of a chunk:
    [1 / (k + rank)] when the chunk is in the list. *)
Definition contribution (k : nat) (l : list Document) (cid : str) : Q :=
  match rank_in cid l with
  | Some r => 1 / inject_Z (Z.of_nat (k + r))
  | None => 0
  end.

Definition fused_score (k : nat) (list_a list_b : list Document) (cid : str) : Q :=
  (contribution k list_a cid + contribution k list_b cid)%Q.

(** The chunks of a list, each kept at its first occurrence only; [seen]
    are the identifiers met before. *)
Fixpoint first_encountered (l : list Document) (seen : list str) : list Document :=
  match l with
  | [] => []
  | d :: l' =>
    if decide (chunk_id d ∈ seen) then first_encountered l' seen
    else d :: first_encountered l' (chunk_id d :: seen)
  end.

Definition Qltb (x y : Q) : bool := negb (Qle_bool y x).

(** Modelled from the spec: the rank fusion [_rrf_rerank] of
    [lyricmind/retrieval/retrieval_optimization.py], a file that is not in
    the source tree (only its test is).  The output is the union of both
    lists without repeats, in first-encountered order scanning list A and
    then list B, stably sorted by descending fused score, the score attached
    to every chunk. *)
Definition _rrf_rerank (vector_docs bm25_docs : list Document) (k : nat)
    : list ScoredDocument :=
  sorted_reverse Qltb rrf_score
    (List.map
       (fun d => {| doc := d; rrf_score := fused_score k vector_docs bm25_docs (chunk_id d) |})
       (first_encountered (vector_docs ++ bm25_docs) [])).

End Retrieval.

(** ** lyricmind/cli.py *)

Module Cli.
Import Config.

(** *** Filter inference *)

(** [{d.metadata.get(field) for d in parent_documents}] with [None]
    discarded. *)
Definition field_values (field : string) (parent_documents : list Document) : gset str :=
  list_to_set (omap (fun d => metadata d !! field) parent_documents).

(** [sorted(values, key = len, reverse = True)]; the order in which a set
    is iterated is not specified, [elements] fixes one. *)
Definition longest_first (values : gset str) : list str :=
  sorted_reverse Nat.ltb (@length N) (elements values).

(** The loop over the artists, which stops at the first hit. *)
Fixpoint artist_loop (query : str) (candidates : list str) (filters : gmap string str)
    : gmap string str :=
  match candidates with
  | [] => filters
  | artist :: rest =>
    if truthy artist && str_in artist query
    then <["artist" := artist]> filters
    else artist_loop query rest filters
  end.

(** The loops over the albums, regions, years and titles, which assign at
    every hit and run to the end of the candidates. *)
Fixpoint field_loop (field : string) (query : str) (candidates : list str)
    (filters : gmap string str) : gmap string str :=
  match candidates with
  | [] => filters
  | value :: rest =>
    if truthy value && str_in value query
    then field_loop field query rest (<[field := value]> filters)
    else field_loop field query rest filters
  end.

(** [_extract_filters_from_query] *)
Definition _extract_filters_from_query (parent_documents : list Document) (query : str)
    : gmap string str :=
  let filters : gmap string str := ∅ in
  let artists := field_values "artist" parent_documents in
  let albums := field_values "album" parent_documents in
  let regions := field_values "region" parent_documents in
  let years := field_values "year" parent_documents in
  let titles := field_values "title" parent_documents in
  let filters := artist_loop query (longest_first artists) filters in
  let filters := field_loop "album" query (longest_first albums) filters in
  let filters := field_loop "region" query (longest_first regions) filters in
  let filters := field_loop "year" query (longest_first years) filters in
  let filters := field_loop "title" query (longest_first titles) filters in
  filters.

(** *** The collaborators of [ask_question] *)

(** What [ask_question] returns: a text, or the lazy sequence of fragments
    of a streamed answer. *)
Inductive answer : Type :=
| Text (s : str)
| Stream (fragments : list str).

(** A call of one of the answer generators of the generation module, with
    its arguments; [stream] tells the [_stream] variant. *)
Inductive generator_call : Type :=
| direct_answer (query : str) (stream : bool)
| basic_answer (query : str) (context_docs : list Document) (stream : bool)
| compare_answer (query : str) (docs_list : list (list Document)) (stream : bool)
| list_answer (query : str) (context_docs : list Document).

(** A call made to the generation or the retrieval module, with what it
    returned. *)
Inductive event : Type :=
| EvRouter (query : str) (route : str)
| EvRewritten (query : str) (out : str)
| EvSubqueries (query : str) (out : list str)
| EvFiltered (query : str) (filters : gmap string str) (top_k : value) (out : list Document)
| EvHybrid (query : str) (top_k : value) (out : list Document)
| EvGenerate (call : generator_call) (out : answer).

Definition history : Type := list event.

(** The methods of the generation module that [ask_question] calls.  They
    are backed by a language model: what a call returns may depend on every
    call made before it. *)
Record GenerationModule : Type := mkGeneration {
  query_router : history -> str -> str;
  query_rewritten : history -> str -> str;
  extract_subqueries : history -> str -> list str;
  generate_direct_answer : history -> str -> str;
  generate_direct_answer_stream : history -> str -> list str;
  generate_basic_answer : history -> str -> list Document -> str;
  generate_basic_answer_stream : history -> str -> list Document -> list str;
  generate_compare_answer : history -> str -> list (list Document) -> str;
  generate_compare_answer_stream : history -> str -> list (list Document) -> list str;
  generate_list_answer : history -> str -> list Document -> str
}.

(** The methods of the retrieval module, whose source is not in the tree. *)
Record RetrievalModule : Type := mkRetrieval {
  metadata_filtered_search : history -> str -> gmap string str -> value -> list Document;
  hybrid_search : history -> str -> value -> list Document
}.

Record LyricMindRAGSystem : Type := mkSystem {
  config : RAGConfig;
  data_module : Ingest.DataPreparationModule;
  retrieval_module : option RetrievalModule;
  generation_module : option GenerationModule
}.

(** *** A state monad over the history of calls *)

Definition M (A : Type) : Type := history -> A * history.

Global Instance M_ret : MRet M := fun A (a : A) h => (a, h).

Global Instance M_bind : MBind M :=
  fun A B (f : A -> M B) (m : M A) h => let '(a, h') := m h in f a h'.

(** Make a call: ask the collaborator, given the history, and record the
    call with its result. *)
Definition call {A} (respond : history -> A) (ev : A -> event) : M A :=
  fun h => let a := respond h in (a, h ++ [ev a]).

(** [for x in xs: acc = body(acc, x)] *)
Fixpoint for_each {A S} (xs : list A) (body : S -> A -> M S) (acc : S) : M S :=
  match xs with
  | [] => mret acc
  | x :: xs' => acc' ← body acc x ; for_each xs' body acc'
  end.

(** *** ask_question *)

Definition apology : str := u "抱歉，没有找到相关的歌曲信息。请尝试其他歌曲名称或关键词。".

(** The retrieval of one sub-query: filtered when filters were inferred. *)
Definition retrieve (self : LyricMindRAGSystem) (retrieval : RetrievalModule)
    (subquery rewritten_subquery : str) (budget : value) : M (list Document) :=
  let filters :=
    _extract_filters_from_query (Ingest.parent_documents (data_module self)) subquery in
  if decide (filters = ∅)
  then call (fun h => hybrid_search retrieval h rewritten_subquery budget)
            (EvHybrid rewritten_subquery budget)
  else call (fun h => metadata_filtered_search retrieval h rewritten_subquery filters budget)
            (EvFiltered rewritten_subquery filters budget).

(** Call an answer generator and return what it returns. *)
Definition generate (c : generator_call) (respond : history -> answer) : M (result answer) :=
  a ← call respond (EvGenerate c) ; mret (Ok a).

(** The body of the loop over the sub-queries of a comparison: the chunks
    of a sub-query are appended as one group. *)
Definition compare_step (self : LyricMindRAGSystem) (retrieval : RetrievalModule)
    (all_chunks : list (list Document)) (subquery : str) : M (list (list Document)) :=
  let rewritten_subquery := subquery in
  chunks ← retrieve self retrieval subquery rewritten_subquery (top_cmp_k (config self)) ;
  mret (all_chunks ++ [chunks]).

(** The body of the loop over the sub-queries of a list or a general
    question: the chunks of a sub-query extend the one pool. *)
Definition pool_step (self : LyricMindRAGSystem) (retrieval : RetrievalModule)
    (generation : GenerationModule) (route_type : str)
    (all_chunks : list Document) (subquery : str) : M (list Document) :=
  rewritten_subquery ←
    (if decide (route_type = u "list") then mret subquery
     else call (fun h => query_rewritten generation h subquery) (EvRewritten subquery)) ;
  chunks ← retrieve self retrieval subquery rewritten_subquery (top_k (config self)) ;
  mret (all_chunks ++ chunks).

Definition ask_question (self : LyricMindRAGSystem) (question : str) (stream : bool)
    : M (result answer) :=
  match retrieval_module self, generation_module self with
  | Some retrieval, Some generation =>
    route_type ← call (fun h => query_router generation h question) (EvRouter question) ;
    if decide (route_type = u "direct") then
      if stream
      then generate (direct_answer question true)
             (fun h => Stream (generate_direct_answer_stream generation h question))
      else generate (direct_answer question false)
             (fun h => Text (generate_direct_answer generation h question))
    else
      rewritten_query ←
        (if decide (route_type = u "list") then mret question
         else call (fun h => query_rewritten generation h question) (EvRewritten question)) ;
      if decide (route_type = u "compare") then
        subqueries ← call (fun h => extract_subqueries generation h rewritten_query)
                           (EvSubqueries rewritten_query) ;
        all_chunks ← for_each subqueries (compare_step self retrieval) [] ;
        let relevant_chunks := all_chunks in
        let relevant_docs :=
          List.map (Ingest.get_parent_documents (data_module self)) relevant_chunks in
        if stream
        then generate (compare_answer rewritten_query relevant_docs true)
               (fun h => Stream (generate_compare_answer_stream generation h
                                   rewritten_query relevant_docs))
        else generate (compare_answer rewritten_query relevant_docs false)
               (fun h => Text (generate_compare_answer generation h
                                 rewritten_query relevant_docs))
      else
        subqueries ← call (fun h => extract_subqueries generation h rewritten_query)
                           (EvSubqueries rewritten_query) ;
        all_chunks ← for_each subqueries (pool_step self retrieval generation route_type) [] ;
        let relevant_chunks := all_chunks in
        match relevant_chunks with
        | [] => mret (Ok (Text apology))
        | _ :: _ =>
          let relevant_docs :=
            Ingest.get_parent_documents (data_module self) relevant_chunks in
          if decide (route_type = u "list") then
            generate (list_answer question relevant_docs)
              (fun h => Text (generate_list_answer generation h question relevant_docs))
          else if stream
          then generate (basic_answer question relevant_docs true)
                 (fun h => Stream (generate_basic_answer_stream generation h
                                     question relevant_docs))
          else generate (basic_answer question relevant_docs false)
                 (fun h => Text (generate_basic_answer generation h question relevant_docs))
        end
  | _, _ => mret (Raise ValueError)
  end.

(** *** Reading a history *)

(** The answer generators called, in order. *)
Definition generator_calls (h : history) : list generator_call :=
  omap (fun e => match e with EvGenerate c _ => Some c | _ => None end) h.

(** The [top_k] argument of every retrieval call, in order. *)
Definition retrieval_budgets (h : history) : list value :=
  omap (fun e => match e with
                 | EvFiltered _ _ k _ | EvHybrid _ k _ => Some k
                 | _ => None
                 end) h.

(** The chunks every retrieval call returned, in order. *)
Definition retrieval_results (h : history) : list (list Document) :=
  omap (fun e => match e with
                 | EvFiltered _ _ _ out | EvHybrid _ _ out => Some out
                 | _ => None
                 end) h.

(** The query of every retrieval call, in order. *)
Definition retrieval_queries (h : history) : list str :=
  omap (fun e => match e with
                 | EvFiltered q _ _ _ | EvHybrid q _ _ => Some q
                 | _ => None
                 end) h.

(** The queries sent to the rewriter, in order. *)
Definition rewrites (h : history) : list str :=
  omap (fun e => match e with EvRewritten q _ => Some q | _ => None end) h.

(** What the rewriter returned, in order. *)
Definition rewritten_outputs (h : history) : list str :=
  omap (fun e => match e with EvRewritten _ out => Some out | _ => None end) h.

(** The filter sets of the filtered searches, in order. *)
Definition filter_sets (h : history) : list (gmap string str) :=
  omap (fun e => match e with EvFiltered _ f _ _ => Some f | _ => None end) h.

(** [search_by_artist]; the loop over the titles is the one of
    [generate_list_answer]. *)
Definition search_by_artist (self : LyricMindRAGSystem) (artist query : str)
    : M (result (list str)) :=
  match retrieval_module self with
  | None => mret (Raise ValueError)
  | Some retrieval =>
    let search_query := if truthy query then query else artist in
    let filters : gmap string str := {["artist" := artist]} in
    docs ← call (fun h => metadata_filtered_search retrieval h search_query filters (VInt 10))
                (EvFiltered search_query filters (VInt 10)) ;
    mret (Ok (Generation.collect_song_names docs))
  end.

End Cli.

(** ** Notions used to state the properties *)

(** The [parent_id] of a document, [None] when the entry is missing. *)
Definition parent_id_of (d : Document) : option str := metadata d !! "parent_id".

(** How many of the chunks carry the parent identifier [pid]. *)
Definition occurrences (pid : str) (child_chunks : list Document) : nat :=
  length (List.filter (fun c => bool_decide (parent_id_of c = Some pid)) child_chunks).

(** The index of the first element of [l] that satisfies [P]. *)
Definition first_position {A} (P : A -> bool) (l : list A) : option nat :=
  fst <$> list_find (fun x => P x = true) l.

(** [i] and [j] are the first positions in [l] of an element that satisfies
    [P] and of one that satisfies [Q], and [i] comes first. *)
Definition first_earlier {A} (P Q : A -> bool) (l : list A) : Prop :=
  exists i j, first_position P l = Some i /\ first_position Q l = Some j /\ i < j.

(** A chunk carries the parent identifier [pid]. *)
Definition has_parent_id (pid : str) (c : Document) : bool :=
  bool_decide (parent_id_of c = Some pid).

(** A chunk has the identifier [cid]. *)
Definition has_chunk_id (cid : str) (c : Document) : bool :=
  bool_decide (Retrieval.chunk_id c = cid).

(** The five fields a filter set may constrain. *)
Definition filter_fields : list string := ["artist"; "album"; "region"; "year"; "title"].

(** A list descends by key: no element is followed by one with a larger
    key. *)
Definition descending {A K} (ltb : K -> K -> bool) (key : A -> K) (l : list A) : Prop :=
  forall x y, before x y l -> ltb (key x) (key y) = false.

(** The title a document contributes to a list answer. *)
Definition song_title (d : Document) : str := default (u "未知歌曲") (metadata d !! "title").

(** The string [s] is the title [t]. *)
Definition is_title (t : str) (s : str) : bool := bool_decide (s = t).

(** What the counting loop of [get_parent_documents] has established after
    the chunks [l]: the keys of [scores] are distinct, they are the non-empty
    identifiers met so far, in the order in which each was first met, each
    with the number of its occurrences, and [pmap] resolves the keys. *)
Record counted (parents l : list Document) (scores : odict nat)
    (pmap : gmap str Document) : Prop := mkCounted {
  counted_NoDup : NoDup (od_keys scores);
  counted_keys : forall pid, pid ∈ od_keys scores <-> pid <> [] /\ 0 < occurrences pid l;
  counted_score : forall pid, pid <> [] -> default 0 (od_get scores pid) = occurrences pid l;
  counted_order : forall x y, before x y (od_keys scores) ->
                  first_earlier (has_parent_id x) (has_parent_id y) l;
  counted_map : forall pid, pmap !! pid =
                  if decide (pid ∈ od_keys scores) then Ingest.find_parent parents pid else None
}.

(** What every entry of a filter set inferred for [query] over
    [parent_documents] must satisfy. *)
Definition sound_entry (parent_documents : list Document) (query : str)
    (field : string) (value : str) : Prop :=
  field ∈ filter_fields /\ value <> [] /\
  (exists d, d ∈ parent_documents /\ metadata d !! field = Some value) /\
  (exists pre post, query = pre ++ value ++ post).

Definition sound (parent_documents : list Document) (query : str)
    (filters : gmap string str) : Prop :=
  forall field value, filters !! field = Some value ->
    sound_entry parent_documents query field value.

(** The entries that [_enhance_metadata] derives from the path. *)
Definition path_fields (doc : Document) : gmap string str :=
  let source := default [] (metadata doc !! "source") in
  let parts := Pathlib.parts source in
  <["title_from_filename" := Pathlib.stem source]>
    (if (2 <=? length parts)%nat
     then <["artist_from_path" := nth (length parts - 2) parts []]> (metadata doc)
     else <["artist_from_path" := u "未知歌手"]> (metadata doc)).

(** One line [md.setdefault(key, md.get(src, dflt))]. *)
Definition default_from (key src : string) (dflt : str) (md : gmap string str)
    : gmap string str :=
  setdefault key (Ingest.get_default md src dflt) md.

(** The seven [setdefault] lines that end [_enhance_metadata]. *)
Definition with_defaults (md : gmap string str) : gmap string str :=
  default_from "lyrics" "lyrics" []
    (default_from "type" "year" (u "未知")
      (default_from "region" "region" (u "未知")
        (default_from "year" "year" (u "未知")
          (default_from "album" "album" (u "未知")
            (default_from "artist" "artist_from_path" (u "未知歌手")
              (default_from "title" "title_from_filename" (u "未知标题") md)))))).

(** What a stretch of history made of retrievals (and rewrites) records:
    no generator is called, every retrieval has the budget [budget], and
    there is one retrieval per sub-query. *)
Record retrieved (budget : Config.value) (subqueries : list str)
    (new : Cli.history) : Prop := mkRetrieved {
  retrieved_quiet : Cli.generator_calls new = [];
  retrieved_budget : Forall (fun k => k = budget) (Cli.retrieval_budgets new);
  retrieved_each : length (Cli.retrieval_results new) = length subqueries
}.

(** The [chunk_id] entry of a document. *)
Definition chunk_id_of (c : Document) : option str := metadata c !! "chunk_id".

(** How the chunks [new] lie with respect to the blocks of the parents: in
    the order of the parents and of their blocks, each with the trimmed
    block as content, its position among the blocks of its parent as index,
    the [parent_id] of its parent, and the type [child]. *)
Record chunk_layout (parents : list Document) (blockss : list (list str))
    (new : list Document) : Prop := mkLayout {
  layout_content : page_content <$> new = strip <$> concat blockss;
  layout_index :
    chunk_index <$> new = concat ((fun bs => Some <$> seq 0 (length bs)) <$> blockss);
  layout_parent :
    parent_id_of <$> new =
    concat (zip_with (fun p bs => replicate (length bs) (parent_id_of p)) parents blockss);
  layout_type : Forall (fun c => metadata c !! "doc_type" = Some (u "child")) new
}.

(** The [parent_child_map] after the chunks [new] have been entered. *)
Definition entered (pcm : gmap str (option str)) (new : list Document)
    : gmap str (option str) :=
  fold_left (fun m c => <[default [] (chunk_id_of c) := parent_id_of c]> m) new pcm.

(** [md.get(key, "未知")] on the metadata of a document. *)
Definition field_or_unknown (key : string) (d : Document) : str :=
  Ingest.get_default (metadata d) key (u "未知").

(** [counts] is the tally of the field [key] over [parents]: its keys are
    distinct, they are the values that the field takes, each is counted as
    many times as there are parents with it, and the counts add up to the
    number of parents. *)
Record tallied (parents : list Document) (key : string) (counts : odict nat)
    : Prop := mkTallied {
  tallied_NoDup : NoDup (od_keys counts);
  tallied_keys : forall v, v ∈ od_keys counts <->
                   exists d, d ∈ parents /\ field_or_unknown key d = v;
  tallied_count : forall v, default 0 (od_get counts v) =
                    length (List.filter (fun d => bool_decide (field_or_unknown key d = v))
                              parents);
  tallied_sum : sum_list (counts.*2) = length parents
}.

(** The value [v] is a hit of [field] for [query]: some parent holds it
    under the field, it is not empty, and it occurs in the query. *)
Definition hit (parent_documents : list Document) (query : str) (field : string)
    (v : str) : Prop :=
  (exists d, d ∈ parent_documents /\ metadata d !! field = Some v) /\
  v <> [] /\ exists pre post, query = pre ++ v ++ post.

(** The filter sets with which a filtered search is made for the
    sub-queries: those that are not empty. *)
Definition inferred_filters (parent_documents : list Document) (subqueries : list str)
    : list (gmap string str) :=
  List.filter (fun f => bool_decide (f <> ∅))
    (Cli._extract_filters_from_query parent_documents <$> subqueries).

(** What the stretch of history [new] of a loop over [subqueries] records;
    [rewrote] tells whether the loop sends every sub-query to the rewriter.
    The rewriter is asked about the sub-queries, in order, or not at all;
    the searches are made with what it returned, or with the sub-queries
    themselves; the filtered searches carry the filter sets inferred from
    the sub-queries; there is one search per sub-query and no answer is
    generated. *)
Record traced (parent_documents : list Document) (rewrote : bool)
    (subqueries : list str) (new : Cli.history) : Prop := mkTraced {
  traced_rewrites : Cli.rewrites new = if rewrote then subqueries else [];
  traced_outputs :
    Cli.rewritten_outputs new = if rewrote then Cli.retrieval_queries new else [];
  traced_queries : rewrote = false -> Cli.retrieval_queries new = subqueries;
  traced_filters : Cli.filter_sets new = inferred_filters parent_documents subqueries;
  traced_each : length (Cli.retrieval_queries new) = length subqueries;
  traced_quiet : Cli.generator_calls new = []
}.

(** The lines of a text, as [text.split("\n")] gives them. *)
Definition lines_of (text : str) : list str := split_char 10%N text [].

(** No two blank lines stand next to each other. *)
Definition no_blank_run (lines : list str) : Prop :=
  forall i, lines !! i = Some [] -> lines !! S i <> Some [].

(** A line as [_clean_chunk_text] leaves it: trimmed, no title, and
    without a newline. *)
Definition clean_line (l : str) : Prop :=
  strip l = l /\ startswith (u "##") l = false /\ 10%N ∉ l.

(** The lines without the blank ones at the start. *)
Fixpoint drop_blank (lines : list str) : list str :=
  match lines with
  | [] :: rest => drop_blank rest
  | _ => lines
  end.

(** The lines without the blank ones at the start and at the end. *)
Definition trim_blank (lines : list str) : list str :=
  rev (drop_blank (rev (drop_blank lines))).

(** The seven metadata fields of a parent document. *)
Definition metadata_fields : list string :=
  ["title"; "artist"; "album"; "year"; "region"; "type"; "lyrics"].

(** The values the ingestion code uses to say that a field is unknown. *)
Definition unknown_sentinels : list str := [u "未知"; u "未知标题"; u "未知歌手"].

(** The section of the Chinese key [cn_key] is absent from the text of the
    document. *)
Definition absent_from_text (cn_key : str) (doc : Document) : Prop :=
  Re.search (Ingest.field_pattern cn_key) (page_content doc) = None.

(** The first of the candidates that is a non-empty substring of the
    query. *)
Definition first_hit (query : str) (candidates : list str) : option str :=
  List.find (fun v => truthy v && str_in v query) candidates.

(** ** Sample inputs *)

Module Samples.

(** A parent document with an artist and an album. *)
Definition song (artist album : string) : Document :=
  {| page_content := [];
     metadata := <["artist" := u artist]> (<["album" := u album]> ∅);
     chunk_index := None |}.

(** The corpus of the filter inference example of the specification. *)
Definition corpus : list Document :=
  [song "张悬" "玫瑰色的你"; song "魏如萱" "玫瑰色的你"].

Definition question : str := u "张悬的《玫瑰色的你》怎么样".

(** A corpus in which one album title is a part of another. *)
Definition corpus_nested_albums : list Document :=
  [song "张悬" "玫瑰色的你"; song "魏如萱" "玫瑰"].

(** A chunk as the test of the rank fusion builds it. *)
Definition make_doc (text chunk_id : string) : Document :=
  {| page_content := u text;
     metadata := <["chunk_id" := u chunk_id]> ∅;
     chunk_index := None |}.

Definition doc_a : Document := make_doc "doc A" "1".
Definition doc_b : Document := make_doc "doc B" "2".
Definition doc_c : Document := make_doc "doc C" "3".

(** The text of a file, given line by line. *)
Definition lines (l : list string) : str := join nl (u <$> l).

(** The document that [load_documents] builds from one file, before the
    metadata are enhanced. *)
Definition raw (source : string) (text : str) : Document :=
  {| page_content := text;
     metadata := <["source" := u source]>
                 (<["parent_id" := u "0f3a"]> (<["doc_type" := u "parent"]> ∅));
     chunk_index := None |}.

(** A parent document as [load_documents] returns it. *)
Definition loaded (source : string) (text : str) : Document :=
  Ingest._enhance_metadata (raw source text).

(** A file that holds a single empty line. *)
Definition blank_parent : Document := loaded "data/张悬/空白.md" nl.

(** A song without words: its lyrics section holds one line with a space. *)
Definition instrumental_parent : Document :=
  loaded "data/张悬/宝贝.md"
    (lines ["## 歌名"; "宝贝"; ""; "## 歌手"; "张悬"; ""; "## 歌词"; " "; ""]).

(** A file that names the artist and nothing else. *)
Definition untitled_file : Document :=
  raw "data/张悬/宝贝.md" (lines ["## 歌手"; "张悬"; ""]).

Definition module_of (parents : list Document) : Ingest.DataPreparationModule :=
  {| Ingest.chunk_size_chars := 800;
     Ingest.parent_documents := parents;
     Ingest.chunks := [];
     Ingest.parent_child_map := ∅ |}.

(** Identifiers standing for the random ones of [uuid4]. *)
Definition uuid4 (n : nat) : str := u "chunk-" ++ str_of_nat n.

(** A generation module that routes every question as a comparison and
    splits it into the given sub-queries. *)
Definition comparing (subqueries : list str) : Cli.GenerationModule :=
  {| Cli.query_router := fun _ _ => u "compare";
     Cli.query_rewritten := fun _ q => q;
     Cli.extract_subqueries := fun _ _ => subqueries;
     Cli.generate_direct_answer := fun _ _ => u "direct";
     Cli.generate_direct_answer_stream := fun _ _ => [u "direct"];
     Cli.generate_basic_answer := fun _ _ _ => u "basic";
     Cli.generate_basic_answer_stream := fun _ _ _ => [u "basic"];
     Cli.generate_compare_answer := fun _ _ _ => u "comparison";
     Cli.generate_compare_answer_stream := fun _ _ _ => [u "comparison"];
     Cli.generate_list_answer := fun _ _ _ => u "list" |}.

(** A retrieval module that finds nothing. *)
Definition finds_nothing : Cli.RetrievalModule :=
  {| Cli.metadata_filtered_search := fun _ _ _ _ => [];
     Cli.hybrid_search := fun _ _ _ => [] |}.

Definition system (generation : Cli.GenerationModule) : Cli.LyricMindRAGSystem :=
  {| Cli.config := Config.DEFAULT_CONFIG;
     Cli.data_module := module_of corpus;
     Cli.retrieval_module := Some finds_nothing;
     Cli.generation_module := Some generation |}.

Definition comparison : str := u "比较一下张悬和魏如萱的作品".

(** Identifiers that are all different and not empty: the n-th one is the
    single character of code n + 1. *)
Definition serial (n : nat) : str := [N.of_nat (S n)].

(** The chunks of the song without words, and the module after chunking. *)
Definition chunked : list Document * Ingest.DataPreparationModule :=
  match Ingest.chunk_documents serial (module_of [instrumental_parent]) true with
  | Ok r => r
  | Raise _ => ([], module_of [])
  end.

(** The statistics of a module, when they can be computed. *)
Definition statistics_of (self : Ingest.DataPreparationModule) : Ingest.statistics :=
  match Ingest.get_statistics self with
  | Ingest.Statistics s => s
  | Ingest.ZeroDivisionError =>
    {| Ingest.total_parents := 0; Ingest.total_chunks := 0;
       Ingest.artists_count := []; Ingest.regions_count := [];
       Ingest.years_count := []; Ingest.albums_count := [];
       Ingest.avg_chunk_size_chars := 0 |}
  end.

End Samples.
(** * Properties *)

(** ** Facts about the string primitives *)

Lemma startswith_spec (p s : str) :
  startswith p s = true <-> exists t, s = p ++ t.
Proof.
  revert s. induction p as [|a p IH]; intros s; simpl.
  - split; [intros _; by exists s | done].
  - destruct s as [|b s].
    + split; [done | intros [t Ht]; discriminate].
    + rewrite andb_true_iff, N.eqb_eq, IH. split.
      * intros [-> [t ->]]. by exists t.
      * intros [t Ht]. injection Ht as -> ->. split; [done | by exists t].
Qed.

Lemma str_in_spec (needle hay : str) :
  str_in needle hay = true <-> exists pre post, hay = pre ++ needle ++ post.
Proof.
  induction hay as [|c hay IH]; simpl.
  - rewrite orb_false_r, startswith_spec. split.
    + intros [t Ht]. by exists [], t.
    + intros [pre [post H]]. destruct pre; [by exists post | discriminate].
  - rewrite orb_true_iff, startswith_spec, IH. split.
    + intros [[t Ht] | [pre [post H]]].
      * by exists [], t.
      * exists (c :: pre), post. by rewrite H.
    + intros [pre [post H]]. destruct pre as [|c' pre].
      * left. by exists post.
      * right. injection H as -> ->. by exists pre, post.
Qed.

Lemma truthy_spec (s : str) : truthy s = true <-> s <> [].
Proof. destruct s; simpl; split; congruence. Qed.

(** ** The order of elements in a list *)

Lemma before_cons {A} (x y a : A) (l : list A) :
  before x y (a :: l) <-> (x = a /\ y ∈ l) \/ before x y l.
Proof.
  split.
  - intros (l1 & l2 & l3 & E). destruct l1 as [|b l1]; simplify_eq/=.
    + left. split; [done |]. set_solver.
    + right. by exists l1, l2, l3.
  - intros [[-> Hy] | (l1 & l2 & l3 & ->)].
    + apply list_elem_of_split in Hy as (l2 & l3 & ->). by exists [], l2, l3.
    + by exists (a :: l1), l2, l3.
Qed.

Lemma before_nil {A} (x y : A) : ~ before x y [].
Proof. intros (l1 & l2 & l3 & E). by destruct l1. Qed.

Lemma before_elem_of {A} (x y : A) l : before x y l -> x ∈ l /\ y ∈ l.
Proof. intros (l1 & l2 & l3 & ->). set_solver. Qed.

Lemma before_app_r {A} (x y z : A) l :
  before x y (l ++ [z]) -> before x y l \/ (x ∈ l /\ y = z).
Proof.
  induction l as [|a l IH]; simpl.
  - rewrite before_cons. intros [[_ H] | H]; [set_solver | by apply before_nil in H].
  - rewrite !before_cons. intros [[-> Hy] | H].
    + apply elem_of_app in Hy as [Hy | Hy]; [left; by left |].
      right. set_solver.
    + destruct (IH H) as [H' | [H1 H2]]; [left; by right | right; set_solver].
Qed.

Lemma before_fmap {A B} (f : A -> B) (u v : B) (l : list A) :
  before u v (f <$> l) -> exists x y, u = f x /\ v = f y /\ before x y l.
Proof.
  induction l as [|a l IH]; simpl.
  - intros H. by apply before_nil in H.
  - rewrite before_cons. intros [[-> Hv] | H].
    + apply list_elem_of_fmap in Hv as (y & -> & Hy).
      exists a, y. rewrite before_cons. auto.
    + destruct (IH H) as (x & y & -> & -> & Hxy).
      exists x, y. rewrite before_cons. auto.
Qed.


(** ** [sorted] with [reverse=True]: permutation, order, stability *)

Section SortedFacts.
Context {A K : Type} (ltb : K -> K -> bool) (key : A -> K).

Lemma insert_desc_perm x l : insert_desc ltb key x l ≡ₚ x :: l.
Proof.
  induction l as [|y l IH]; simpl; [done |].
  destruct (ltb (key x) (key y)); [| done].
  rewrite IH. apply Permutation_swap.
Qed.

Lemma sorted_reverse_perm l : sorted_reverse ltb key l ≡ₚ l.
Proof.
  induction l as [|x l IH]; simpl; [done |].
  rewrite insert_desc_perm. by rewrite IH.
Qed.

(** Where a pair of the output of an insertion comes from. *)
Lemma before_insert_desc x y a l :
  before x y (insert_desc ltb key a l) ->
  before x y l \/ (x = a /\ y ∈ l) \/ (y = a /\ x ∈ l /\ ltb (key a) (key x) = true).
Proof.
  induction l as [|b l IH]; simpl.
  - rewrite before_cons. intros [[_ H] | H]; [set_solver | by apply before_nil in H].
  - destruct (ltb (key a) (key b)) eqn:E.
    + rewrite before_cons. intros [[-> Hy] | H].
      * rewrite insert_desc_perm in Hy. apply elem_of_cons in Hy as [-> | Hy].
        -- right. right. set_solver.
        -- left. rewrite before_cons. auto.
      * destruct (IH H) as [H' | [[-> Hy] | (-> & Hx & Hlt)]].
        -- left. rewrite before_cons. auto.
        -- right. left. set_solver.
        -- right. right. set_solver.
    + rewrite before_cons. intros [[-> Hy] | H]; [right; left; done | by left].
Qed.

(** Stability: two elements that the order of the keys does not force
    apart keep the order they had in the input. *)
Lemma sorted_reverse_stable x y l :
  before x y (sorted_reverse ltb key l) ->
  ltb (key y) (key x) = false ->
  before x y l.
Proof.
  induction l as [|a l IH]; simpl; intros H Hle.
  - by apply before_nil in H.
  - apply before_insert_desc in H as [H | [[-> Hy] | (-> & Hx & Hlt)]].
    + rewrite before_cons. auto.
    + rewrite before_cons. left. split; [done |].
      by rewrite sorted_reverse_perm in Hy.
    + congruence.
Qed.

Hypothesis ltb_asym : forall a b, ltb a b = true -> ltb b a = false.
Hypothesis ltb_negtrans : forall a b c, ltb a b = false -> ltb b c = false -> ltb a c = false.

Lemma insert_desc_descending a l :
  descending ltb key l -> descending ltb key (insert_desc ltb key a l).
Proof.
  induction l as [|b l IH]; simpl; intros Hl x y.
  - rewrite before_cons. intros [[_ H] | H]; [set_solver | by apply before_nil in H].
  - assert (Hl' : descending ltb key l).
    { intros x' y' H. apply Hl. rewrite before_cons. auto. }
    destruct (ltb (key a) (key b)) eqn:E.
    + rewrite before_cons. intros [[-> Hy] | H].
      * rewrite insert_desc_perm in Hy. apply elem_of_cons in Hy as [-> | Hy].
        -- by apply ltb_asym.
        -- apply Hl. rewrite before_cons. auto.
      * by apply (IH Hl').
    + rewrite before_cons. intros [[-> Hy] | H]; [| by apply Hl].
      apply elem_of_cons in Hy as [-> | Hy]; [done |].
      apply (ltb_negtrans _ (key b)); [done |].
      apply Hl. rewrite before_cons. auto.
Qed.

Lemma sorted_reverse_descending l : descending ltb key (sorted_reverse ltb key l).
Proof.
  induction l as [|a l IH]; simpl.
  - intros x y H. by apply before_nil in H.
  - by apply insert_desc_descending.
Qed.

End SortedFacts.

Lemma nat_ltb_asym (a b : nat) : Nat.ltb a b = true -> Nat.ltb b a = false.
Proof. rewrite Nat.ltb_lt, Nat.ltb_ge. lia. Qed.

Lemma nat_ltb_negtrans (a b c : nat) :
  Nat.ltb a b = false -> Nat.ltb b c = false -> Nat.ltb a c = false.
Proof. rewrite !Nat.ltb_ge. lia. Qed.

(** ** First positions *)

Section FirstPosition.
Context {A : Type} (P : A -> bool).

Lemma first_position_Some l i :
  first_position P l = Some i <->
  exists x, l !! i = Some x /\ P x = true /\ forall j y, l !! j = Some y -> j < i -> P y = false.
Proof.
  unfold first_position. rewrite fmap_Some. split.
  - intros [[i' x] [H ->]]. apply list_find_Some in H as (H1 & H2 & H3).
    exists x. split_and!; [done.. |]. intros j y Hj Hlt.
    specialize (H3 j y Hj Hlt). by destruct (P y).
  - intros (x & H1 & H2 & H3). exists (i, x). split; [| done].
    apply list_find_Some. split_and!; [done.. |].
    intros j y Hj Hlt. rewrite (H3 j y Hj Hlt). discriminate.
Qed.

Lemma first_position_lt l i : first_position P l = Some i -> i < length l.
Proof.
  rewrite first_position_Some. intros (x & H & _). by eapply lookup_lt_Some.
Qed.

Lemma first_position_is_Some l x :
  x ∈ l -> P x = true -> exists i, first_position P l = Some i.
Proof.
  intros Hx HP. destruct (list_find_elem_of (fun x => P x = true) l x Hx HP) as [[i y] H].
  exists i. unfold first_position. by rewrite H.
Qed.

Lemma first_position_app_l l l' i :
  first_position P l = Some i -> first_position P (l ++ l') = Some i.
Proof.
  unfold first_position. rewrite !fmap_Some. intros [[i' x] [H ->]].
  exists (i', x). split; [| done]. by apply list_find_app_l.
Qed.

Lemma first_position_app_new l y :
  (forall x, x ∈ l -> P x = false) -> P y = true ->
  first_position P (l ++ [y]) = Some (length l).
Proof.
  intros Hl Hy. apply first_position_Some. exists y. split_and!.
  - by rewrite lookup_app_r, Nat.sub_diag.
  - done.
  - intros j z Hj Hlt. rewrite lookup_app_l in Hj by done.
    apply Hl. by eapply list_elem_of_lookup_2.
Qed.

Lemma first_position_cons_ne a l i :
  P a = false -> first_position P l = Some i -> first_position P (a :: l) = Some (S i).
Proof.
  intros Ha. rewrite !first_position_Some. intros (x & H1 & H2 & H3).
  exists x. split_and!; [done.. |].
  intros [|j] y Hj Hlt; simpl in Hj; [by simplify_eq |].
  apply (H3 j y Hj). lia.
Qed.

Lemma first_position_cons_eq a l : P a = true -> first_position P (a :: l) = Some 0.
Proof.
  intros Ha. apply first_position_Some. exists a. split_and!; [done.. |]. lia.
Qed.

End FirstPosition.

Lemma first_earlier_app_l {A} (P Q : A -> bool) l l' :
  first_earlier P Q l -> first_earlier P Q (l ++ l').
Proof.
  intros (i & j & Hi & Hj & Hlt). exists i, j.
  split_and!; [by apply first_position_app_l.. | done].
Qed.

(** ** The configuration round trip *)

(** C10. Serialising a configuration and reading it back always succeeds and
    returns the configuration with [top_cmp_k] reset to the default 3: the
    seven fields that [to_dict] writes come back unchanged, and the one it
    omits is lost. *)
Theorem from_dict_to_dict_resets_top_cmp_k (c : Config.RAGConfig) :
  Config.from_dict (Config.to_dict c) =
  Ok {| Config.data_path := Config.data_path c;
        Config.index_save_path := Config.index_save_path c;
        Config.embedding_model := Config.embedding_model c;
        Config.llm_model := Config.llm_model c;
        Config.top_k := Config.top_k c;
        Config.top_cmp_k := Config.VInt 3;
        Config.temperature := Config.temperature c;
        Config.max_tokens := Config.max_tokens c |}.
Proof.
  unfold Config.from_dict.
  assert (Hdom : dom (Config.to_dict c) ⊆ Config.field_names).
  { unfold Config.to_dict, Config.field_names.
    rewrite !dom_insert_L, dom_empty_L. set_solver. }
  destruct (decide (dom (Config.to_dict c) ⊆ Config.field_names)) as [_ | Hn]; [| done].
  f_equal.
Qed.

(** ** The list answer *)

Lemma collect_song_names_snoc docs d :
  Generation.collect_song_names (docs ++ [d]) =
  let names := Generation.collect_song_names docs in
  if decide (song_title d ∈ names) then names else names ++ [song_title d].
Proof. unfold Generation.collect_song_names. by rewrite fold_left_app. Qed.

Lemma collect_song_names_elem_of docs t :
  t ∈ Generation.collect_song_names docs <-> t ∈ song_title <$> docs.
Proof.
  induction docs as [|d docs IH] using rev_ind.
  - done.
  - rewrite collect_song_names_snoc, fmap_app. simpl.
    destruct (decide _) as [Hin | Hnin]; set_solver.
Qed.

Lemma collect_song_names_NoDup docs : NoDup (Generation.collect_song_names docs).
Proof.
  induction docs as [|d docs IH] using rev_ind.
  - constructor.
  - rewrite collect_song_names_snoc. simpl.
    destruct (decide _) as [Hin | Hnin]; [done |].
    apply NoDup_app. split_and!; [done | | apply NoDup_singleton].
    intros x Hx ->%list_elem_of_singleton. done.
Qed.

Lemma collect_song_names_order docs s t :
  before s t (Generation.collect_song_names docs) ->
  first_earlier (is_title s) (is_title t) (song_title <$> docs).
Proof.
  induction docs as [|d docs IH] using rev_ind.
  - intros H. by apply before_nil in H.
  - rewrite collect_song_names_snoc, fmap_app. simpl.
    destruct (decide _) as [Hin | Hnin]; intros H.
    + by apply first_earlier_app_l, IH.
    + apply before_app_r in H as [H | [Hs ->]].
      * by apply first_earlier_app_l, IH.
      * apply collect_song_names_elem_of in Hs.
        destruct (first_position_is_Some (is_title s) _ s Hs) as [i Hi].
        { by apply bool_decide_eq_true. }
        exists i, (length (song_title <$> docs)). split_and!.
        -- by apply first_position_app_l.
        -- apply first_position_app_new; [| by apply bool_decide_eq_true].
           intros x Hx. apply bool_decide_eq_false. intros ->.
           by apply Hnin, collect_song_names_elem_of.
        -- by eapply first_position_lt.
Qed.


(** ** Insertion-ordered dicts *)

Lemma od_get_None {V} (d : odict V) k : od_get d k = None <-> k ∉ od_keys d.
Proof.
  unfold od_keys. induction d as [|[k' v] d IH]; simpl.
  - split; [intros _; apply not_elem_of_nil | done].
  - destruct (decide (k' = k)) as [-> | Hne].
    + split; [done | intros H; destruct H; left].
    + rewrite IH, not_elem_of_cons. naive_solver.
Qed.

Lemma od_get_set {V} (d : odict V) k v k' :
  od_get (od_set d k v) k' = if decide (k = k') then Some v else od_get d k'.
Proof.
  induction d as [|[k0 v0] d IH]; simpl.
  - done.
  - destruct (decide (k0 = k)) as [-> | Hne]; simpl.
    + by destruct (decide (k = k')).
    + rewrite IH. destruct (decide (k0 = k')) as [-> | ?]; [| done].
      by destruct (decide (k = k')).
Qed.

Lemma od_keys_set {V} (d : odict V) k v :
  od_keys (od_set d k v) = if decide (k ∈ od_keys d) then od_keys d else od_keys d ++ [k].
Proof.
  unfold od_keys. induction d as [|[k0 v0] d IH]; csimpl.
  - done.
  - destruct (decide (k0 = k)) as [-> | Hne]; csimpl.
    + rewrite decide_True; [done | left].
    + rewrite IH. destruct (decide (k ∈ d.*1)) as [Hin | Hnin].
      * rewrite decide_True; [done | by right].
      * rewrite decide_False; [done |].
        intros [-> | H]%elem_of_cons; done.
Qed.

(** ** Parent aggregation *)

Lemma occurrences_snoc pid l c :
  occurrences pid (l ++ [c]) = occurrences pid l + (if has_parent_id pid c then 1 else 0).
Proof.
  unfold occurrences, has_parent_id. rewrite List.filter_app, length_app. simpl.
  by destruct (bool_decide _).
Qed.

Lemma occurrences_pos pid l :
  0 < occurrences pid l <-> exists c, c ∈ l /\ has_parent_id pid c = true.
Proof.
  unfold occurrences, has_parent_id. split.
  - intros H. destruct (List.filter _ l) as [|c l'] eqn:E; simpl in H; [lia |].
    exists c. rewrite list_elem_of_In.
    apply (proj1 (List.filter_In (fun c => bool_decide (parent_id_of c = Some pid)) c l)).
    rewrite E. by left.
  - intros (c & Hc & HP).
    assert (Hin : In c (List.filter (fun c => bool_decide (parent_id_of c = Some pid)) l)).
    { apply (proj2 (List.filter_In _ c l)). by rewrite <- list_elem_of_In. }
    destruct (List.filter _ l); simpl; [done | lia].
Qed.

Lemma find_parent_Some parents pid p :
  Ingest.find_parent parents pid = Some p -> p ∈ parents /\ parent_id_of p = Some pid.
Proof.
  unfold Ingest.find_parent. intros H. apply List.find_some in H as [Hin HP].
  apply bool_decide_eq_true in HP. by rewrite list_elem_of_In.
Qed.

Lemma count_parents_snoc parents l c :
  Ingest.count_parents parents (l ++ [c]) =
  let '(parent_scores, parent_map) := Ingest.count_parents parents l in
  match metadata c !! "parent_id" with
  | None => (parent_scores, parent_map)
  | Some pid =>
    if negb (truthy pid) then (parent_scores, parent_map)
    else
      (od_set parent_scores pid (default 0 (od_get parent_scores pid) + 1),
       match parent_map !! pid with
       | Some _ => parent_map
       | None =>
         match Ingest.find_parent parents pid with
         | Some p => <[pid := p]> parent_map
         | None => parent_map
         end
       end)
  end.
Proof.
  unfold Ingest.count_parents. rewrite fold_left_app. simpl.
  by destruct (fold_left _ l _).
Qed.

(** A chunk without a usable [parent_id] changes nothing. *)
Lemma counted_skip parents l c scores pmap :
  (forall pid, pid <> [] -> has_parent_id pid c = false) ->
  counted parents l scores pmap -> counted parents (l ++ [c]) scores pmap.
Proof.
  intros Hc [H1 H2 H3 H4 H5]. split.
  - done.
  - intros pid. rewrite H2, occurrences_snoc. split.
    + intros [Hne Hpos]. split; [done | lia].
    + intros [Hne Hpos]. split; [done |]. rewrite (Hc pid Hne) in Hpos. lia.
  - intros pid Hne. rewrite occurrences_snoc, (Hc pid Hne), H3 by done. lia.
  - intros x y Hxy. by apply first_earlier_app_l, H4.
  - done.
Qed.

Lemma has_parent_id_true pid c :
  has_parent_id pid c = true <-> metadata c !! "parent_id" = Some pid.
Proof. unfold has_parent_id, parent_id_of. apply bool_decide_eq_true. Qed.

Lemma count_parents_counted parents l :
  let '(scores, pmap) := Ingest.count_parents parents l in
  counted parents l scores pmap.
Proof.
  induction l as [|c l IH] using rev_ind.
  - simpl. split.
    + constructor.
    + intros pid. split; [intros H; by apply elem_of_nil in H |].
      intros [_ H]. unfold occurrences in H. simpl in H. lia.
    + done.
    + intros x y H. by apply before_nil in H.
    + intros pid. by rewrite lookup_empty.
  - rewrite count_parents_snoc.
    destruct (Ingest.count_parents parents l) as [scores pmap].
    destruct (metadata c !! "parent_id") as [pid|] eqn:Epid.
    2:{ apply counted_skip; [| done]. intros pid _.
        apply bool_decide_eq_false. unfold parent_id_of. by rewrite Epid. }
    destruct (truthy pid) eqn:Et; simpl.
    2:{ apply counted_skip; [| done]. intros pid' Hne.
        apply bool_decide_eq_false. unfold parent_id_of. rewrite Epid.
        intros [= ->]. by destruct pid'. }
    apply truthy_spec in Et.
    assert (Hc : forall pid', has_parent_id pid' c = bool_decide (pid' = pid)).
    { intros pid'. unfold has_parent_id, parent_id_of. rewrite Epid.
      apply bool_decide_ext. naive_solver. }
    destruct IH as [H1 H2 H3 H4 H5]. split.
    + rewrite od_keys_set. destruct (decide _) as [Hin | Hnin]; [done |].
      apply NoDup_app. split_and!; [done | | apply NoDup_singleton].
      intros x Hx ->%list_elem_of_singleton. done.
    + intros pid'. rewrite occurrences_snoc, Hc, od_keys_set.
      destruct (decide (pid ∈ od_keys scores)) as [Hin | Hnin].
      * rewrite H2. split; [intros [? ?]; split; [done | lia] |].
        intros [Hne Hpos]. split; [done |].
        destruct (bool_decide_reflect (pid' = pid)) as [-> | _]; [| lia].
        by apply H2 in Hin as [_ ?].
      * rewrite elem_of_app, list_elem_of_singleton, H2. split.
        -- intros [[? ?] | ->]; [split; [done | lia] |].
           split; [done |]. rewrite bool_decide_eq_true_2 by done. lia.
        -- intros [Hne Hpos].
           destruct (bool_decide_reflect (pid' = pid)) as [-> | _]; [by right | left].
           split; [done | lia].
    + intros pid' Hne. rewrite occurrences_snoc, Hc, od_get_set.
      destruct (decide (pid = pid')) as [<- | Hne'].
      * rewrite bool_decide_eq_true_2 by done. simpl. by rewrite H3.
      * rewrite bool_decide_eq_false_2 by done. rewrite H3 by done. lia.
    + intros x y. rewrite od_keys_set.
      destruct (decide (pid ∈ od_keys scores)) as [Hin | Hnin]; intros Hxy.
      * by apply first_earlier_app_l, H4.
      * apply before_app_r in Hxy as [Hxy | [Hx ->]].
        { by apply first_earlier_app_l, H4. }
        apply H2 in Hx as Hx'. destruct Hx' as [Hxne Hxpos].
        apply occurrences_pos in Hxpos as (c' & Hc' & HP).
        destruct (first_position_is_Some (has_parent_id x) l c' Hc' HP) as [i Hi].
        exists i, (length l). split_and!.
        -- by apply first_position_app_l.
        -- apply first_position_app_new.
           ++ intros c'' Hc''. destruct (has_parent_id pid c'') eqn:E; [| done].
              destruct Hnin. apply H2. split; [done |].
              apply occurrences_pos. by exists c''.
           ++ rewrite Hc. by apply bool_decide_eq_true.
        -- by eapply first_position_lt.
    + intros pid'. rewrite od_keys_set.
      destruct (decide (pid ∈ od_keys scores)) as [Hin | Hnin].
      * assert (Hs : is_Some (pmap !! pid) \/ Ingest.find_parent parents pid = None).
        { rewrite H5. destruct (decide _); [| done].
          destruct (Ingest.find_parent parents pid); eauto. }
        destruct (pmap !! pid) eqn:E1; [by apply H5 |].
        destruct Hs as [[? ?] | Hs]; [done |]. rewrite Hs. by apply H5.
      * assert (E1 : pmap !! pid = None).
        { rewrite H5. by destruct (decide _). }
        rewrite E1.
        destruct (decide (pid' = pid)) as [-> | Hne].
        -- destruct (decide _) as [_ | Hn]; [| destruct Hn; set_solver].
           destruct (Ingest.find_parent parents pid) eqn:E2.
           ++ by rewrite lookup_insert_eq.
           ++ done.
        -- assert (E3 : (match Ingest.find_parent parents pid with
                         | Some p => <[pid:=p]> pmap
                         | None => pmap
                         end) !! pid' = pmap !! pid').
           { destruct (Ingest.find_parent parents pid); [| done].
             by rewrite lookup_insert_ne. }
           rewrite E3, H5.
           destruct (decide (pid' ∈ od_keys scores)) as [Hin' | Hnin'].
           ++ destruct (decide _) as [_ | Hn]; [done | destruct Hn; set_solver].
           ++ destruct (decide _) as [Hin'' | _]; [| done]. set_solver.
Qed.



(** ** Filter inference *)

Lemma field_values_spec field docs v :
  v ∈ Cli.field_values field docs <-> exists d, d ∈ docs /\ metadata d !! field = Some v.
Proof. unfold Cli.field_values. by rewrite elem_of_list_to_set, list_elem_of_omap. Qed.

Lemma longest_first_elem_of values v : v ∈ Cli.longest_first values <-> v ∈ values.
Proof.
  unfold Cli.longest_first. by rewrite sorted_reverse_perm, elem_of_elements.
Qed.

(** Candidates are tried from the longest to the shortest. *)
Lemma longest_first_descending values x y :
  before x y (Cli.longest_first values) -> length y <= length x.
Proof.
  intros H. apply Nat.ltb_ge.
  by apply (sorted_reverse_descending Nat.ltb (@length N) nat_ltb_asym nat_ltb_negtrans
              (elements values)).
Qed.

(** The loop with [break] keeps the first hit. *)
Lemma artist_loop_first_hit query candidates filters :
  Cli.artist_loop query candidates filters !! "artist" =
  match first_hit query candidates with
  | Some artist => Some artist
  | None => filters !! "artist"
  end.
Proof.
  unfold first_hit. induction candidates as [|a l IH]; simpl; [done |].
  destruct (truthy a && str_in a query); [| done].
  by rewrite lookup_insert_eq.
Qed.

Lemma find_app_first {A} (P : A -> bool) (l1 l2 : list A) :
  List.find P (l1 ++ l2) =
  match List.find P l1 with
  | Some x => Some x
  | None => List.find P l2
  end.
Proof.
  induction l1 as [|a l1 IH]; simpl; [done |]. by destruct (P a).
Qed.

(** The loops without [break] keep the last hit. *)
Lemma field_loop_last_hit field query candidates filters :
  Cli.field_loop field query candidates filters !! field =
  match first_hit query (rev candidates) with
  | Some value => Some value
  | None => filters !! field
  end.
Proof.
  unfold first_hit. revert filters. induction candidates as [|a l IH]; intros filters; simpl.
  - done.
  - rewrite find_app_first. destruct (truthy a && str_in a query) eqn:E; rewrite IH.
    + destruct (find _ (rev l)); [done |]. simpl. rewrite E. by rewrite lookup_insert_eq.
    + destruct (find _ (rev l)); [done |]. simpl. by rewrite E.
Qed.

Lemma artist_loop_other query candidates filters field :
  field <> "artist" ->
  Cli.artist_loop query candidates filters !! field = filters !! field.
Proof.
  intros Hne. induction candidates as [|a l IH]; simpl; [done |].
  destruct (truthy a && str_in a query); [| done]. by rewrite lookup_insert_ne.
Qed.

Lemma field_loop_other field query candidates filters field' :
  field' <> field ->
  Cli.field_loop field query candidates filters !! field' = filters !! field'.
Proof.
  intros Hne. revert filters. induction candidates as [|a l IH]; intros filters; simpl.
  - done.
  - destruct (truthy a && str_in a query); rewrite IH; [| done].
    by rewrite lookup_insert_ne.
Qed.

Lemma first_hit_Some query candidates v :
  first_hit query candidates = Some v ->
  v ∈ candidates /\ v <> [] /\ exists pre post, query = pre ++ v ++ post.
Proof.
  unfold first_hit. intros H. apply List.find_some in H as [Hin HP].
  apply andb_true_iff in HP as [Ht Hs].
  rewrite list_elem_of_In. split_and!; [done | by apply truthy_spec | by apply str_in_spec].
Qed.

Section FilterInvariant.
Variable parent_documents : list Document.
Variable query : str.

Lemma sound_hit field candidates v :
  field ∈ filter_fields ->
  first_hit query candidates = Some v ->
  (forall x, x ∈ candidates -> x ∈ Cli.field_values field parent_documents) ->
  sound_entry parent_documents query field v.
Proof.
  intros Hf Hv Hc. apply first_hit_Some in Hv as (Hin & Hne & Hsub).
  split_and!; [done | done | | done]. by apply field_values_spec, Hc.
Qed.

Lemma artist_loop_sound candidates filters :
  (forall x, x ∈ candidates -> x ∈ Cli.field_values "artist" parent_documents) ->
  sound parent_documents query filters ->
  sound parent_documents query (Cli.artist_loop query candidates filters).
Proof.
  intros Hc Hs field value.
  destruct (decide (field = "artist")) as [-> | Hne].
  - rewrite artist_loop_first_hit.
    destruct (first_hit query candidates) as [a|] eqn:E; [| apply Hs].
    intros [= <-]. eapply sound_hit; [| done | done]. set_solver.
  - rewrite artist_loop_other by done. apply Hs.
Qed.

Lemma field_loop_sound field0 candidates filters :
  field0 ∈ filter_fields ->
  (forall x, x ∈ candidates -> x ∈ Cli.field_values field0 parent_documents) ->
  sound parent_documents query filters ->
  sound parent_documents query (Cli.field_loop field0 query candidates filters).
Proof.
  intros Hf Hc Hs field value.
  destruct (decide (field = field0)) as [-> | Hne].
  - rewrite field_loop_last_hit.
    destruct (first_hit query (rev candidates)) as [a|] eqn:E; [| apply Hs].
    intros [= <-]. eapply sound_hit; [done | done |].
    intros x Hx. apply Hc. rewrite list_elem_of_In in Hx. apply in_rev in Hx. by rewrite list_elem_of_In.
  - rewrite field_loop_other by done. apply Hs.
Qed.

End FilterInvariant.

(** C8. Every entry of an inferred filter set is under one of the five
    fields, and its value is non-empty, is the value that some parent
    document has under that same field, and is a substring of the query. *)
Theorem extract_filters_sound (parent_documents : list Document) (query : str)
    (field : string) (value : str) :
  Cli._extract_filters_from_query parent_documents query !! field = Some value ->
  field ∈ filter_fields /\ value <> [] /\
  (exists d, d ∈ parent_documents /\ metadata d !! field = Some value) /\
  (exists pre post, query = pre ++ value ++ post).
Proof.
  revert field value. change (sound parent_documents query
    (Cli._extract_filters_from_query parent_documents query)).
  unfold Cli._extract_filters_from_query.
  repeat (apply field_loop_sound;
          [unfold filter_fields; set_solver | intros x; apply longest_first_elem_of |]).
  apply artist_loop_sound; [intros x; apply longest_first_elem_of |].
  intros field value. by rewrite lookup_empty.
Qed.

(** The invariant at the artist entry inferred for the sample question. *)
Lemma extract_filters_sound_witness :
  Cli._extract_filters_from_query Samples.corpus Samples.question !! "artist"
    = Some (u "张悬") /\
  ("artist" ∈ filter_fields /\ u "张悬" <> [] /\
   (exists d, d ∈ Samples.corpus /\ metadata d !! "artist" = Some (u "张悬")) /\
   (exists pre post, Samples.question = pre ++ u "张悬" ++ post)).
Proof.
  assert (H : Cli._extract_filters_from_query Samples.corpus Samples.question !! "artist"
              = Some (u "张悬")) by (vm_compute; reflexivity).
  split; [exact H |].
  exact (extract_filters_sound Samples.corpus Samples.question "artist" (u "张悬") H).
Defined.

(** The artist selected is the first hit among the candidates, longest
    first. *)
Lemma extract_filters_artist parent_documents query :
  Cli._extract_filters_from_query parent_documents query !! "artist" =
  first_hit query (Cli.longest_first (Cli.field_values "artist" parent_documents)).
Proof.
  unfold Cli._extract_filters_from_query.
  rewrite !field_loop_other by done. rewrite artist_loop_first_hit, lookup_empty.
  by destruct (first_hit _ _).
Qed.

(** For the other four fields the value selected is the last hit: the first
    one when the candidates are scanned shortest first. *)
Lemma extract_filters_other_field parent_documents query field :
  field ∈ ["album"; "region"; "year"; "title"] ->
  Cli._extract_filters_from_query parent_documents query !! field =
  first_hit query (rev (Cli.longest_first (Cli.field_values field parent_documents))).
Proof.
  unfold Cli._extract_filters_from_query. intros Hf.
  repeat (apply elem_of_cons in Hf as [-> | Hf]);
    [.. | by apply elem_of_nil in Hf];
    repeat (rewrite field_loop_other by done);
    rewrite field_loop_last_hit;
    repeat (rewrite field_loop_other by done);
    rewrite ?artist_loop_other, ?lookup_empty by done;
    by destruct (first_hit _ _).
Qed.

(** The example of the specification: both the artist and the album are
    inferred. *)
Example extract_filters_spec_example :
  Cli._extract_filters_from_query Samples.corpus Samples.question =
  <["artist" := u "张悬"]> (<["album" := u "玫瑰色的你"]> ∅).
Proof. vm_compute. reflexivity. Qed.

(** C1. When two album titles of the corpus occur in the query, one inside
    the other, the album loop ends on the shorter one, although the first
    hit of the longest-first scan is the longer one. *)
Theorem extract_filters_album_keeps_shortest :
  Cli._extract_filters_from_query Samples.corpus_nested_albums Samples.question !! "album"
    = Some (u "玫瑰") /\
  first_hit Samples.question
    (Cli.longest_first (Cli.field_values "album" Samples.corpus_nested_albums))
    = Some (u "玫瑰色的你").
Proof.
  split.
  - rewrite extract_filters_other_field by set_solver. vm_compute. reflexivity.
  - vm_compute. reflexivity.
Qed.

(** ** Rank fusion *)

Lemma Qltb_asym (a b : Q) : Retrieval.Qltb a b = true -> Retrieval.Qltb b a = false.
Proof.
  unfold Retrieval.Qltb. rewrite negb_true_iff, negb_false_iff.
  intros H. apply Qle_bool_iff.
  destruct (Qlt_le_dec b a) as [Hlt | Hle].
  - apply Qlt_le_weak in Hlt. apply Qle_bool_iff in Hlt. congruence.
  - done.
Qed.

Lemma Qltb_negtrans (a b c : Q) :
  Retrieval.Qltb a b = false -> Retrieval.Qltb b c = false -> Retrieval.Qltb a c = false.
Proof.
  unfold Retrieval.Qltb. rewrite !negb_false_iff, !Qle_bool_iff.
  intros H1 H2. by eapply Qle_trans.
Qed.

Lemma has_chunk_id_true cid d : has_chunk_id cid d = true <-> Retrieval.chunk_id d = cid.
Proof. unfold has_chunk_id. apply bool_decide_eq_true. Qed.

Lemma has_chunk_id_false cid d : has_chunk_id cid d = false <-> Retrieval.chunk_id d <> cid.
Proof. unfold has_chunk_id. apply bool_decide_eq_false. Qed.

(** A rank is a first position, counted from one. *)
Lemma rank_from_spec cid l n r :
  Retrieval.rank_from cid l n = Some r <->
  first_position (has_chunk_id cid) l = Some (r - n) /\ n <= r.
Proof.
  revert n. induction l as [|d l IH]; intros n; simpl.
  - split; [done | intros [H _]; discriminate].
  - destruct (decide (Retrieval.chunk_id d = cid)) as [E | E].
    + rewrite first_position_cons_eq by by apply has_chunk_id_true.
      split; [intros [= ->]; split; [f_equal; lia | lia] |].
      intros [[= H] Hle]. f_equal. lia.
    + rewrite IH. apply has_chunk_id_false in E. split.
      * intros [H Hle]. split; [| lia].
        replace (r - n) with (S (r - S n)) by lia. by apply first_position_cons_ne.
      * intros [H Hle].
        apply first_position_Some in H as (x & H1 & H2 & H3).
        destruct (r - n) as [|i] eqn:Ei; simpl in H1; [simplify_eq; congruence |].
        split; [| lia]. replace (r - S n) with i by lia.
        apply first_position_Some. exists x. split_and!; [done.. |].
        intros j y Hj Hlt. apply (H3 (S j) y Hj). lia.
Qed.

Lemma first_encountered_elem_of l seen d :
  d ∈ Retrieval.first_encountered l seen -> d ∈ l /\ Retrieval.chunk_id d ∉ seen.
Proof.
  revert seen. induction l as [|a l IH]; intros seen; simpl.
  - intros H. by apply elem_of_nil in H.
  - destruct (decide (Retrieval.chunk_id a ∈ seen)) as [Hin | Hnin].
    + intros H. apply IH in H as [? ?]. split; [by right | done].
    + intros [-> | H]%elem_of_cons; [split; [left | done] |].
      apply IH in H as [? Hs]. split; [by right |]. set_solver.
Qed.

Lemma first_encountered_ids l seen cid :
  cid ∈ Retrieval.chunk_id <$> Retrieval.first_encountered l seen <->
  cid ∈ Retrieval.chunk_id <$> l /\ cid ∉ seen.
Proof.
  revert seen. induction l as [|a l IH]; intros seen; simpl.
  - split; [intros H; by apply elem_of_nil in H | intros [H _]; by apply elem_of_nil in H].
  - destruct (decide (Retrieval.chunk_id a ∈ seen)) as [Hin | Hnin]; csimpl.
    + rewrite IH. set_solver.
    + rewrite !elem_of_cons, IH.
      destruct (decide (cid = Retrieval.chunk_id a)) as [-> | Hne]; set_solver.
Qed.

Lemma first_encountered_NoDup l seen :
  NoDup (Retrieval.chunk_id <$> Retrieval.first_encountered l seen).
Proof.
  revert seen. induction l as [|a l IH]; intros seen; simpl.
  - constructor.
  - destruct (decide (Retrieval.chunk_id a ∈ seen)) as [Hin | Hnin]; csimpl; [done |].
    constructor; [| done]. rewrite first_encountered_ids. set_solver.
Qed.

Lemma first_encountered_order l seen d e :
  before d e (Retrieval.first_encountered l seen) ->
  first_earlier (has_chunk_id (Retrieval.chunk_id d)) (has_chunk_id (Retrieval.chunk_id e)) l.
Proof.
  revert seen. induction l as [|a l IH]; intros seen; simpl.
  - intros H. by apply before_nil in H.
  - destruct (decide (Retrieval.chunk_id a ∈ seen)) as [Hin | Hnin].
    + intros H. pose proof (before_elem_of _ _ _ H) as [Hd He].
      apply first_encountered_elem_of in Hd as [_ Hd].
      apply first_encountered_elem_of in He as [_ He].
      destruct (IH _ H) as (i & j & Hi & Hj & Hlt).
      exists (S i), (S j). split_and!; [| | lia].
      * apply first_position_cons_ne; [| done]. apply has_chunk_id_false. congruence.
      * apply first_position_cons_ne; [| done]. apply has_chunk_id_false. congruence.
    + rewrite before_cons. intros [[-> He] | H].
      * apply first_encountered_elem_of in He as [He Hs].
        destruct (first_position_is_Some (has_chunk_id (Retrieval.chunk_id e)) l e He)
          as [j Hj]; [by apply has_chunk_id_true |].
        exists 0, (S j). split_and!; [| | lia].
        -- apply first_position_cons_eq. by apply has_chunk_id_true.
        -- apply first_position_cons_ne; [| done]. apply has_chunk_id_false. set_solver.
      * pose proof (before_elem_of _ _ _ H) as [Hd He].
        apply first_encountered_elem_of in Hd as [_ Hd].
        apply first_encountered_elem_of in He as [_ He].
        destruct (IH _ H) as (i & j & Hi & Hj & Hlt).
        exists (S i), (S j). split_and!; [| | lia].
        -- apply first_position_cons_ne; [| done]. apply has_chunk_id_false. set_solver.
        -- apply first_position_cons_ne; [| done]. apply has_chunk_id_false. set_solver.
Qed.

(** C2. Rank fusion.  A rank is the 1-based first position of a chunk in a
    list; the score attached to an output chunk is the sum, over the lists
    that contain it, of [1 / (k + rank)]; the output holds every chunk of
    either list exactly once; scores never increase along the output; of two
    chunks with equal scores the one met first when scanning list A and then
    list B comes first; and for A = [a; b], B = [a; c] and k = 60 the output
    is [a; b; c] with scores 2/61, 1/62 and 1/62. *)
Theorem rrf_rerank_fuses (vector_docs bm25_docs : list Document) (k : nat) :
  let out := Retrieval._rrf_rerank vector_docs bm25_docs k in
  let id_of := fun s => Retrieval.chunk_id (Retrieval.doc s) in
  let reciprocal := fun (l : list Document) (cid : str) =>
    match Retrieval.rank_in cid l with
    | Some r => (1 / inject_Z (Z.of_nat (k + r)))%Q
    | None => 0%Q
    end in
  (forall l cid r, Retrieval.rank_in cid l = Some r <->
     first_position (has_chunk_id cid) l = Some (r - 1) /\ 1 <= r) /\
  (forall s, s ∈ out ->
     Retrieval.rrf_score s =
     (reciprocal vector_docs (id_of s) + reciprocal bm25_docs (id_of s))%Q) /\
  NoDup (id_of <$> out) /\
  (forall s, s ∈ out -> Retrieval.doc s ∈ vector_docs ++ bm25_docs) /\
  (forall cid, cid ∈ id_of <$> out <->
     cid ∈ Retrieval.chunk_id <$> (vector_docs ++ bm25_docs)) /\
  (forall s t, before s t out -> (Retrieval.rrf_score t <= Retrieval.rrf_score s)%Q) /\
  (forall s t, before s t out ->
     (Retrieval.rrf_score s == Retrieval.rrf_score t)%Q ->
     first_earlier (has_chunk_id (id_of s)) (has_chunk_id (id_of t))
       (vector_docs ++ bm25_docs)) /\
  (Retrieval.doc <$>
     Retrieval._rrf_rerank [Samples.doc_a; Samples.doc_b] [Samples.doc_a; Samples.doc_c] 60
     = [Samples.doc_a; Samples.doc_b; Samples.doc_c] /\
   Forall2 Qeq
     (Retrieval.rrf_score <$>
        Retrieval._rrf_rerank [Samples.doc_a; Samples.doc_b] [Samples.doc_a; Samples.doc_c] 60)
     [2 # 61; 1 # 62; 1 # 62]%Q).
Proof.
  intros out id_of reciprocal.
  set (mk := fun d => {| Retrieval.doc := d;
       Retrieval.rrf_score :=
         Retrieval.fused_score k vector_docs bm25_docs (Retrieval.chunk_id d) |}).
  set (fe := Retrieval.first_encountered (vector_docs ++ bm25_docs) []).
  assert (Hout : out = sorted_reverse Retrieval.Qltb Retrieval.rrf_score (mk <$> fe)) by done.
  assert (Hperm : out ≡ₚ mk <$> fe) by (rewrite Hout; apply sorted_reverse_perm).
  assert (Hids : id_of <$> out ≡ₚ Retrieval.chunk_id <$> fe).
  { rewrite Hperm, <- list_fmap_compose. done. }
  assert (Hmk : forall s, s ∈ out -> exists d, d ∈ fe /\ s = mk d).
  { intros s. rewrite Hperm, list_elem_of_fmap. naive_solver. }
  split_and!.
  - intros l cid r. apply rank_from_spec.
  - intros s (d & _ & ->)%Hmk. done.
  - rewrite Hids. apply first_encountered_NoDup.
  - intros s (d & Hd & ->)%Hmk. simpl.
    by apply first_encountered_elem_of in Hd as [? _].
  - intros cid. rewrite Hids. unfold fe. rewrite first_encountered_ids.
    split; [by intros [? _] | intros ?; split; [done | apply not_elem_of_nil]].
  - intros s t Hst. rewrite Hout in Hst.
    apply (sorted_reverse_descending _ _ Qltb_asym Qltb_negtrans) in Hst.
    unfold Retrieval.Qltb in Hst. apply negb_false_iff in Hst. by apply Qle_bool_iff.
  - intros s t Hst Heq. rewrite Hout in Hst.
    apply sorted_reverse_stable in Hst.
    + apply before_fmap in Hst as (d & e & -> & -> & Hde).
      by apply first_encountered_order in Hde.
    + unfold Retrieval.Qltb. apply negb_false_iff, Qle_bool_iff.
      rewrite Heq. apply Qle_refl.
  - vm_compute. reflexivity.
  - vm_compute. repeat constructor.
Qed.

(** ** Chunking *)

(** C4. Two parents whose chunking emits a chunk with empty content: a file
    that holds only a blank line gives one empty chunk through the
    fixed-window path, and a song whose lyrics section holds only a space
    gives an empty third chunk through the header-aware path. *)
Theorem chunk_documents_emits_empty_chunks :
  (exists chunks self',
     Ingest.chunk_documents Samples.uuid4
       (Samples.module_of [Samples.blank_parent]) true = Ok (chunks, self') /\
     page_content <$> chunks = [[]]) /\
  (exists chunks self',
     Ingest.chunk_documents Samples.uuid4
       (Samples.module_of [Samples.instrumental_parent]) true = Ok (chunks, self') /\
     page_content <$> chunks = [u "宝贝"; u "张悬"; []]).
Proof.
  split.
  - destruct (Ingest.chunk_documents Samples.uuid4
                (Samples.module_of [Samples.blank_parent]) true)
      as [[chunks self'] | e] eqn:E; [| by vm_compute in E].
    exists chunks, self'. split; [done |].
    assert (H : match Ingest.chunk_documents Samples.uuid4
                  (Samples.module_of [Samples.blank_parent]) true with
                | Ok (c, _) => page_content <$> c
                | Raise _ => []
                end = [[]]) by (vm_compute; reflexivity).
    by rewrite E in H.
  - destruct (Ingest.chunk_documents Samples.uuid4
                (Samples.module_of [Samples.instrumental_parent]) true)
      as [[chunks self'] | e] eqn:E; [| by vm_compute in E].
    exists chunks, self'. split; [done |].
    assert (H : match Ingest.chunk_documents Samples.uuid4
                  (Samples.module_of [Samples.instrumental_parent]) true with
                | Ok (c, _) => page_content <$> c
                | Raise _ => []
                end = [u "宝贝"; u "张悬"; []]) by (vm_compute; reflexivity).
    by rewrite E in H.
Qed.

(** ** Metadata enhancement *)

Lemma setdefault_lookup k v (d : gmap string str) k' :
  setdefault k v d !! k' = if decide (k = k') then Some (default v (d !! k)) else d !! k'.
Proof.
  unfold setdefault. destruct (d !! k) as [x|] eqn:E.
  - destruct (decide (k = k')) as [<- | ?]; [by rewrite E | done].
  - destruct (decide (k = k')) as [<- | ?]; [by rewrite lookup_insert_eq |].
    by rewrite lookup_insert_ne.
Qed.

(** A key that the mapping does not write keeps its entry. *)
Lemma extract_loop_other (mapping : list (str * string)) text (md : gmap string str) en :
  en ∉ mapping.*2 ->
  fold_left (Ingest.extract_field text) mapping md !! en = md !! en.
Proof.
  revert md. induction mapping as [|[cn0 en0] m IH]; intros md Hn; csimpl in *; [done |].
  apply not_elem_of_cons in Hn as [Hne Hn]. rewrite IH by done.
  destruct (Re.search _ text); [by rewrite lookup_insert_ne | done].
Qed.

(** The loop over a mapping with distinct English keys: the entry of a key
    is overwritten exactly when the section of its Chinese key is found. *)
Lemma extract_loop_lookup (mapping : list (str * string)) text (md : gmap string str) cn en :
  NoDup mapping.*2 ->
  (cn, en) ∈ mapping ->
  fold_left (Ingest.extract_field text) mapping md !! en =
  match Re.search (Ingest.field_pattern cn) text with
  | Some caps => Some (strip (nth 0 caps []))
  | None => md !! en
  end.
Proof.
  revert md. induction mapping as [|[cn0 en0] m IH]; intros md Hnd Hin; csimpl in *.
  - by apply elem_of_nil in Hin.
  - apply NoDup_cons in Hnd as [Hn0 Hnd].
    apply elem_of_cons in Hin as [[= <- <-] | Hin].
    + rewrite extract_loop_other by done.
      destruct (Re.search _ text); [by rewrite lookup_insert_eq | done].
    + rewrite IH by done. destruct (Re.search (Ingest.field_pattern cn) text); [done |].
      assert (Hne : en0 <> en).
      { intros ->. apply Hn0. apply list_elem_of_fmap. by exists (cn, en). }
      destruct (Re.search (Ingest.field_pattern cn0) text); [by rewrite lookup_insert_ne | done].
Qed.

Lemma CATEGORY_MAPPING_NoDup : NoDup Ingest.CATEGORY_MAPPING.*2.
Proof. by apply (bool_decide_unpack (NoDup Ingest.CATEGORY_MAPPING.*2)). Qed.

Lemma extract_fields_lookup text (md : gmap string str) cn en :
  (cn, en) ∈ Ingest.CATEGORY_MAPPING ->
  Ingest.extract_fields text md !! en =
  match Re.search (Ingest.field_pattern cn) text with
  | Some caps => Some (strip (nth 0 caps []))
  | None => md !! en
  end.
Proof. apply extract_loop_lookup, CATEGORY_MAPPING_NoDup. Qed.

Lemma extract_fields_other text (md : gmap string str) en :
  en ∉ Ingest.CATEGORY_MAPPING.*2 ->
  Ingest.extract_fields text md !! en = md !! en.
Proof. apply extract_loop_other. Qed.

Lemma CATEGORY_MAPPING_fields cn en :
  (cn, en) ∈ Ingest.CATEGORY_MAPPING -> en ∈ metadata_fields.
Proof.
  intros Hin.
  assert (E : Ingest.CATEGORY_MAPPING.*2 = metadata_fields) by done.
  rewrite <- E. apply list_elem_of_fmap. by exists (cn, en).
Qed.

Lemma enhance_metadata_unfold (doc : Document) :
  metadata (Ingest._enhance_metadata doc) =
  with_defaults (Ingest.extract_fields (page_content doc) (path_fields doc)).
Proof.
  unfold Ingest._enhance_metadata, with_defaults, default_from, path_fields.
  cbv zeta. reflexivity.
Qed.

Lemma default_from_ne key src dflt (md : gmap string str) k :
  key <> k -> default_from key src dflt md !! k = md !! k.
Proof.
  intros Hne. unfold default_from. rewrite setdefault_lookup. by rewrite decide_False.
Qed.

Lemma default_from_eq key src dflt (md : gmap string str) :
  default_from key src dflt md !! key =
  Some (default (default dflt (md !! src)) (md !! key)).
Proof.
  unfold default_from, Ingest.get_default. rewrite setdefault_lookup.
  by rewrite decide_True.
Qed.

Lemma default_from_Some key src dflt (md : gmap string str) k v :
  md !! k = Some v -> default_from key src dflt md !! k = Some v.
Proof.
  intros H. destruct (decide (key = k)) as [-> | Hne].
  - by rewrite default_from_eq, H.
  - by rewrite default_from_ne.
Qed.

Lemma with_defaults_present (md : gmap string str) en v :
  md !! en = Some v -> with_defaults md !! en = Some v.
Proof. intros H. unfold with_defaults. by repeat apply default_from_Some. Qed.

Lemma with_defaults_title (md : gmap string str) :
  md !! "title" = None ->
  with_defaults md !! "title" =
  Some (default (u "未知标题") (md !! "title_from_filename")).
Proof.
  intros H. unfold with_defaults.
  rewrite !default_from_ne by done. by rewrite default_from_eq, H.
Qed.

Lemma with_defaults_artist (md : gmap string str) :
  md !! "artist" = None ->
  with_defaults md !! "artist" =
  Some (default (u "未知歌手") (md !! "artist_from_path")).
Proof.
  intros H. unfold with_defaults.
  rewrite !default_from_ne by done. rewrite default_from_eq.
  rewrite !default_from_ne by done. by rewrite H.
Qed.

Lemma with_defaults_unknown (md : gmap string str) en :
  en ∈ ["album"; "year"; "region"] ->
  md !! en = None -> with_defaults md !! en = Some (u "未知").
Proof.
  intros Hen H. unfold with_defaults.
  repeat (apply elem_of_cons in Hen as [-> | Hen]); [.. | by apply elem_of_nil in Hen].
  - rewrite !default_from_ne by done. rewrite default_from_eq.
    rewrite !default_from_ne by done. by rewrite H.
  - rewrite !default_from_ne by done. rewrite default_from_eq.
    rewrite !default_from_ne by done. by rewrite H.
  - rewrite !default_from_ne by done. rewrite default_from_eq.
    rewrite !default_from_ne by done. by rewrite H.
Qed.

Lemma with_defaults_lyrics (md : gmap string str) :
  md !! "lyrics" = None -> with_defaults md !! "lyrics" = Some [].
Proof.
  intros H. unfold with_defaults. rewrite default_from_eq.
  rewrite !default_from_ne by done. by rewrite H.
Qed.

(** The type falls back on the entry of the year, which the line before has
    just filled in. *)
Lemma with_defaults_type (md : gmap string str) :
  md !! "type" = None ->
  with_defaults md !! "type" = Some (default (u "未知") (md !! "year")).
Proof.
  intros H. unfold with_defaults.
  rewrite !default_from_ne by done. rewrite default_from_eq.
  rewrite !(default_from_ne _ _ _ _ "type") by done. rewrite H. simpl. f_equal.
  rewrite (default_from_ne _ _ _ _ "year") by done. rewrite default_from_eq.
  rewrite !(default_from_ne _ _ _ _ "year") by done.
  by destruct (md !! "year").
Qed.

Lemma with_defaults_complete (md : gmap string str) en :
  en ∈ metadata_fields -> is_Some (with_defaults md !! en).
Proof.
  intros Hen. unfold with_defaults, metadata_fields in *.
  repeat (apply elem_of_cons in Hen as [-> | Hen]); [.. | by apply elem_of_nil in Hen];
    rewrite ?default_from_ne by done; rewrite default_from_eq; eauto.
Qed.

Lemma path_fields_lookup (doc : Document) en :
  en ∈ metadata_fields -> path_fields doc !! en = metadata doc !! en.
Proof.
  intros Hen. unfold path_fields, metadata_fields in *.
  repeat (apply elem_of_cons in Hen as [-> | Hen]); [.. | by apply elem_of_nil in Hen];
    rewrite lookup_insert_ne by done;
    destruct (2 <=? _)%nat; by rewrite lookup_insert_ne.
Qed.

Lemma extracted_title_from_filename (doc : Document) :
  Ingest.extract_fields (page_content doc) (path_fields doc) !! "title_from_filename"
  = Some (Pathlib.stem (default [] (metadata doc !! "source"))).
Proof.
  rewrite extract_fields_other.
  - unfold path_fields. by rewrite lookup_insert_eq.
  - by apply (bool_decide_unpack _).
Qed.

Lemma extracted_artist_from_path (doc : Document) :
  let parts := Pathlib.parts (default [] (metadata doc !! "source")) in
  Ingest.extract_fields (page_content doc) (path_fields doc) !! "artist_from_path"
  = Some (if (2 <=? length parts)%nat then nth (length parts - 2) parts []
          else u "未知歌手").
Proof.
  intros parts. rewrite extract_fields_other.
  - unfold path_fields. fold parts. rewrite lookup_insert_ne by done.
    destruct (2 <=? length parts)%nat; by rewrite lookup_insert_eq.
  - by apply (bool_decide_unpack _).
Qed.

(** C5, as amended.  After enhancement all seven fields are present.  A
    field whose section is in the text takes the trimmed text of the section.
    A field that is neither in the text nor set before the call gets its
    default: the title is the stem of the file name, the artist is the name
    of the directory of the file (["未知歌手"] when the path has fewer than
    two parts), the album, the year and the region are ["未知"], and the
    lyrics are the empty string.  Loading never fails on the content of a
    file, and every document it returns has the seven fields. *)
Theorem enhance_metadata_defaults (doc : Document) :
  let md := metadata (Ingest._enhance_metadata doc) in
  let source := default [] (metadata doc !! "source") in
  let parts := Pathlib.parts source in
  (forall en, en ∈ metadata_fields -> is_Some (md !! en)) /\
  (forall cn en caps,
     (cn, en) ∈ Ingest.CATEGORY_MAPPING ->
     Re.search (Ingest.field_pattern cn) (page_content doc) = Some caps ->
     md !! en = Some (strip (nth 0 caps []))) /\
  (forall cn en,
     (cn, en) ∈ Ingest.CATEGORY_MAPPING ->
     absent_from_text cn doc ->
     metadata doc !! en = None ->
     (en = "title" -> md !! en = Some (Pathlib.stem source)) /\
     (en = "artist" ->
        md !! en = Some (if (2 <=? length parts)%nat
                         then nth (length parts - 2) parts []
                         else u "未知歌手")) /\
     (en ∈ ["album"; "year"; "region"] -> md !! en = Some (u "未知")) /\
     (en = "lyrics" -> md !! en = Some [])) /\
  (forall (md5_hexdigest : str -> str) (files : list Ingest.md_file),
     exists docs,
       Ingest.load_documents md5_hexdigest true files = Ok docs /\
       forall d, d ∈ docs -> forall en, en ∈ metadata_fields -> is_Some (metadata d !! en)).
Proof.
  intros md source parts. subst md. rewrite enhance_metadata_unfold.
  set (md2 := Ingest.extract_fields (page_content doc) (path_fields doc)).
  assert (Hmd2 : forall cn en, (cn, en) ∈ Ingest.CATEGORY_MAPPING ->
            md2 !! en =
            match Re.search (Ingest.field_pattern cn) (page_content doc) with
            | Some caps => Some (strip (nth 0 caps []))
            | None => metadata doc !! en
            end).
  { intros cn en Hin. subst md2. rewrite (extract_fields_lookup _ _ cn) by done.
    rewrite path_fields_lookup; [done | by eapply CATEGORY_MAPPING_fields]. }
  split_and!.
  - intros en Hen. by apply with_defaults_complete.
  - intros cn en caps Hin Hfound. apply with_defaults_present.
    by rewrite (Hmd2 cn en Hin), Hfound.
  - intros cn en Hin Habs Hnone.
    assert (Hno : md2 !! en = None).
    { rewrite (Hmd2 cn en Hin). unfold absent_from_text in Habs. by rewrite Habs. }
    split_and!.
    + intros ->. rewrite with_defaults_title by done.
      subst md2. by rewrite extracted_title_from_filename.
    + intros ->. rewrite with_defaults_artist by done.
      subst md2. by rewrite extracted_artist_from_path.
    + intros Hen. by apply with_defaults_unknown.
    + intros ->. by apply with_defaults_lyrics.
  - intros md5_hexdigest files. unfold Ingest.load_documents.
    eexists. split; [reflexivity |].
    intros d Hd en Hen. apply list_elem_of_omap in Hd as (f & _ & Hf).
    destruct (Ingest.file_text f) as [text|]; [| done]. injection Hf as <-.
    rewrite enhance_metadata_unfold. by apply with_defaults_complete.
Qed.

(** C5, as stated, fails: in a file that has no title section the title is
    not one of the sentinels, it is the stem of the file name. *)
Lemma enhance_metadata_title_is_file_stem :
  ~ (forall doc cn en,
       (cn, en) ∈ Ingest.CATEGORY_MAPPING ->
       absent_from_text cn doc ->
       exists v, metadata (Ingest._enhance_metadata doc) !! en = Some v /\
                 v ∈ unknown_sentinels).
Proof.
  intros H.
  destruct (H Samples.untitled_file (u "歌名") "title") as (v & Hv & Hs).
  - by left.
  - unfold absent_from_text. vm_compute. reflexivity.
  - assert (E : metadata (Ingest._enhance_metadata Samples.untitled_file) !! "title"
                = Some (u "宝贝")) by (vm_compute; reflexivity).
    rewrite E in Hv. injection Hv as <-.
    apply list_elem_of_In in Hs. vm_compute in Hs.
    destruct Hs as [Hs | [Hs | [Hs | []]]]; discriminate Hs.
Qed.

(** The type of a file that gives neither a type nor a year is the default
    of the year; with a year section, it is the year. *)
Lemma enhance_metadata_type_from_year (doc : Document) (caps : list str) :
  absent_from_text (u "类型") doc ->
  metadata doc !! "type" = None ->
  Re.search (Ingest.field_pattern (u "发行时间")) (page_content doc) = Some caps ->
  metadata (Ingest._enhance_metadata doc) !! "type" = Some (strip (nth 0 caps [])).
Proof.
  intros Habs Hnone Hyear. rewrite enhance_metadata_unfold.
  rewrite with_defaults_type.
  - rewrite (extract_fields_lookup _ _ (u "发行时间")); [by rewrite Hyear |].
    unfold Ingest.CATEGORY_MAPPING. set_solver.
  - rewrite (extract_fields_lookup _ _ (u "类型")).
    + unfold absent_from_text in Habs. rewrite Habs.
      rewrite path_fields_lookup; [done | unfold metadata_fields; set_solver].
    + unfold Ingest.CATEGORY_MAPPING. set_solver.
Qed.

(** ** The orchestration of a question *)

Lemma bind_run {A B} (m : Cli.M A) (f : A -> Cli.M B) (h : Cli.history) :
  (m ≫= f) h = let '(a, h') := m h in f a h'.
Proof. reflexivity. Qed.

Lemma call_run {A} (respond : Cli.history -> A) (ev : A -> Cli.event) (h : Cli.history) :
  Cli.call respond ev h = (respond h, h ++ [ev (respond h)]).
Proof. reflexivity. Qed.

Lemma generator_calls_app h1 h2 :
  Cli.generator_calls (h1 ++ h2) = Cli.generator_calls h1 ++ Cli.generator_calls h2.
Proof. apply omap_app. Qed.

Lemma retrieval_budgets_app h1 h2 :
  Cli.retrieval_budgets (h1 ++ h2) = Cli.retrieval_budgets h1 ++ Cli.retrieval_budgets h2.
Proof. apply omap_app. Qed.

Lemma retrieval_results_app h1 h2 :
  Cli.retrieval_results (h1 ++ h2) = Cli.retrieval_results h1 ++ Cli.retrieval_results h2.
Proof. apply omap_app. Qed.

Lemma retrieval_queries_app h1 h2 :
  Cli.retrieval_queries (h1 ++ h2) = Cli.retrieval_queries h1 ++ Cli.retrieval_queries h2.
Proof. apply omap_app. Qed.

Lemma retrieved_nil budget : retrieved budget [] [].
Proof. by split. Qed.

Lemma retrieved_app budget qs1 qs2 new1 new2 :
  retrieved budget qs1 new1 -> retrieved budget qs2 new2 ->
  retrieved budget (qs1 ++ qs2) (new1 ++ new2).
Proof.
  intros [H1 H2 H3] [H4 H5 H6]. split.
  - by rewrite generator_calls_app, H1, H4.
  - rewrite retrieval_budgets_app. by apply Forall_app.
  - rewrite retrieval_results_app, !length_app. lia.
Qed.

(** One retrieval records one event, with the budget it was given and the
    chunks it returned. *)
Lemma retrieve_run self retrieval subquery rewritten budget h :
  exists e chunks,
    Cli.retrieve self retrieval subquery rewritten budget h = (chunks, h ++ [e]) /\
    Cli.retrieval_results [e] = [chunks] /\
    Cli.retrieval_queries [e] = [rewritten] /\
    retrieved budget [subquery] [e].
Proof.
  unfold Cli.retrieve. destruct (decide _) as [E | E]; rewrite call_run.
  - exists (Cli.EvHybrid rewritten budget (Cli.hybrid_search retrieval h rewritten budget)).
    eexists. split_and!; [reflexivity | done | done |].
    split; [done | by repeat constructor | done].
  - exists (Cli.EvFiltered rewritten
              (Cli._extract_filters_from_query
                 (Ingest.parent_documents (Cli.data_module self)) subquery)
              budget
              (Cli.metadata_filtered_search retrieval h rewritten
                 (Cli._extract_filters_from_query
                    (Ingest.parent_documents (Cli.data_module self)) subquery)
                 budget)).
    eexists. split_and!; [reflexivity | done | done |].
    split; [done | by repeat constructor | done].
Qed.

(** The loop of a comparison: the groups are the results of the retrievals,
    one per sub-query and in their order, each asked with [top_cmp_k] and
    with the sub-query itself. *)
Lemma compare_loop_run self retrieval subqueries acc h :
  exists new,
    Cli.for_each subqueries (Cli.compare_step self retrieval) acc h
      = (acc ++ Cli.retrieval_results new, h ++ new) /\
    Cli.retrieval_queries new = subqueries /\
    retrieved (Config.top_cmp_k (Cli.config self)) subqueries new.
Proof.
  revert acc h. induction subqueries as [|q qs IH]; intros acc h; simpl.
  - exists []. rewrite !app_nil_r. split_and!; [done | done | apply retrieved_nil].
  - rewrite bind_run. unfold Cli.compare_step at 1. rewrite bind_run.
    destruct (retrieve_run self retrieval q q (Config.top_cmp_k (Cli.config self)) h)
      as (e & chunks & -> & Hres & Hq & Hr).
    destruct (IH (acc ++ [chunks]) (h ++ [e])) as (new & Hrun & Hqs & Hrs).
    exists (e :: new). cbn [mret Cli.M_ret]. rewrite Hrun. split_and!.
    + f_equal; [| by rewrite <- app_assoc].
      rewrite <- app_assoc. f_equal.
      change (e :: new) with ([e] ++ new). by rewrite retrieval_results_app, Hres.
    + change (e :: new) with ([e] ++ new). by rewrite retrieval_queries_app, Hq, Hqs.
    + change (e :: new) with ([e] ++ new). change (q :: qs) with ([q] ++ qs).
      by apply retrieved_app.
Qed.

(** The loop of a list or a general question: the pool is the concatenation
    of the results of the retrievals, one per sub-query and in their order,
    each asked with [top_k]; a list question retrieves with the sub-query
    itself. *)
Lemma pool_loop_run self retrieval generation route_type subqueries acc h :
  exists new,
    Cli.for_each subqueries (Cli.pool_step self retrieval generation route_type) acc h
      = (acc ++ concat (Cli.retrieval_results new), h ++ new) /\
    (route_type = u "list" -> Cli.retrieval_queries new = subqueries) /\
    retrieved (Config.top_k (Cli.config self)) subqueries new.
Proof.
  revert acc h. induction subqueries as [|q qs IH]; intros acc h; simpl.
  - exists []. simpl. rewrite !app_nil_r. split_and!; [done | done | apply retrieved_nil].
  - rewrite bind_run. unfold Cli.pool_step at 1. rewrite bind_run.
    destruct (decide (route_type = u "list")) as [El | El].
    + cbn [mret Cli.M_ret]. rewrite bind_run.
      destruct (retrieve_run self retrieval q q (Config.top_k (Cli.config self)) h)
        as (e & chunks & -> & Hres & Hq & Hr).
      destruct (IH (acc ++ chunks) (h ++ [e])) as (new & Hrun & Hqs & Hrs).
      exists (e :: new). cbn [mret Cli.M_ret]. rewrite Hrun. split_and!.
      * f_equal; [| by rewrite <- app_assoc].
        rewrite <- app_assoc. f_equal.
        change (e :: new) with ([e] ++ new). rewrite retrieval_results_app, Hres.
        done.
      * intros _. change (e :: new) with ([e] ++ new).
        by rewrite retrieval_queries_app, Hq, Hqs.
      * change (e :: new) with ([e] ++ new). change (q :: qs) with ([q] ++ qs).
        by apply retrieved_app.
    + rewrite call_run, bind_run.
      set (rq := Cli.query_rewritten generation h q).
      destruct (retrieve_run self retrieval q rq (Config.top_k (Cli.config self))
                  (h ++ [Cli.EvRewritten q rq])) as (e & chunks & -> & Hres & Hq & Hr).
      destruct (IH (acc ++ chunks)
                  ((h ++ [Cli.EvRewritten q rq]) ++ [e])) as (new & Hrun & Hqs & Hrs).
      exists (Cli.EvRewritten q rq :: e :: new). cbn [mret Cli.M_ret]. rewrite Hrun.
      split_and!.
      * f_equal; [| by rewrite <- !app_assoc].
        rewrite <- app_assoc. f_equal.
        change (Cli.EvRewritten q rq :: e :: new) with ([Cli.EvRewritten q rq] ++ [e] ++ new).
        rewrite !retrieval_results_app, Hres. done.
      * done.
      * change (Cli.EvRewritten q rq :: e :: new) with ([Cli.EvRewritten q rq] ++ [e] ++ new).
        change (q :: qs) with ([] ++ [q] ++ qs).
        apply retrieved_app; [by split | by apply retrieved_app].
Qed.

(** C7. The policy of a route.  A question routed as [compare] retrieves
    once per sub-query, with the sub-query itself and the budget
    [top_cmp_k]; the results stay one group per sub-query and every group
    goes through the parent aggregator on its own, the groups of parents
    being what the comparison generator is called with.  A question routed
    as [list] or as anything but [direct] and [compare] retrieves once per
    sub-query with the budget [top_k]; the results are concatenated into
    one pool, and a non-empty pool goes through the parent aggregator once,
    its parents being what the list or the basic generator is called
    with. *)
Theorem ask_question_route_policy (self : Cli.LyricMindRAGSystem)
    (retrieval : Cli.RetrievalModule) (generation : Cli.GenerationModule)
    (question : str) (stream : bool) (h : Cli.history) :
  Cli.retrieval_module self = Some retrieval ->
  Cli.generation_module self = Some generation ->
  let route := Cli.query_router generation h question in
  let aggregate := Ingest.get_parent_documents (Cli.data_module self) in
  exists new ans,
    Cli.ask_question self question stream h = (ans, h ++ new) /\
    (route = u "compare" ->
       exists rewritten_query subqueries,
         Cli.EvSubqueries rewritten_query subqueries ∈ new /\
         Cli.retrieval_queries new = subqueries /\
         length (Cli.retrieval_results new) = length subqueries /\
         Forall (fun k => k = Config.top_cmp_k (Cli.config self))
           (Cli.retrieval_budgets new) /\
         Cli.generator_calls new =
           [Cli.compare_answer rewritten_query
              (aggregate <$> Cli.retrieval_results new) stream]) /\
    (route <> u "direct" -> route <> u "compare" ->
       exists rewritten_query subqueries,
         Cli.EvSubqueries rewritten_query subqueries ∈ new /\
         (route = u "list" ->
            rewritten_query = question /\ Cli.retrieval_queries new = subqueries) /\
         length (Cli.retrieval_results new) = length subqueries /\
         Forall (fun k => k = Config.top_k (Cli.config self))
           (Cli.retrieval_budgets new) /\
         (concat (Cli.retrieval_results new) <> [] ->
            Cli.generator_calls new =
              [if decide (route = u "list")
               then Cli.list_answer question
                      (aggregate (concat (Cli.retrieval_results new)))
               else Cli.basic_answer question
                      (aggregate (concat (Cli.retrieval_results new))) stream])).
Proof.
  intros Hret Hgen route aggregate.
  unfold Cli.ask_question. rewrite Hret, Hgen.
  rewrite bind_run, call_run. fold route.
  set (h1 := h ++ [Cli.EvRouter question route]).
  destruct (decide (route = u "direct")) as [Ed | Ed].
  { (* direct: neither of the two policies applies *)
    destruct stream; unfold Cli.generate; rewrite bind_run, call_run;
      cbn [mret Cli.M_ret]; subst h1; rewrite <- app_assoc;
      (eexists _, _; split; [reflexivity |]);
      (split; [intros Ec; rewrite Ec in Ed; by vm_compute in Ed | done]). }
  rewrite bind_run.
  destruct (decide (route = u "compare")) as [Ec | Ec].
  - (* compare *)
    rewrite decide_False by (rewrite Ec; by vm_compute).
    rewrite call_run.
    set (rq := Cli.query_rewritten generation h1 question).
    set (h2 := h1 ++ [Cli.EvRewritten question rq]).
    rewrite bind_run, call_run.
    set (subs := Cli.extract_subqueries generation h2 rq).
    set (h3 := h2 ++ [Cli.EvSubqueries rq subs]).
    rewrite bind_run.
    destruct (compare_loop_run self retrieval subs [] h3) as (new & -> & Hqs & [Hq Hb He]).
    cbn [app].
    set (docs := List.map aggregate (Cli.retrieval_results new)).
    assert (Hshape : forall g out,
      (h3 ++ new) ++ [Cli.EvGenerate g out]
      = h ++ ([Cli.EvRouter question route; Cli.EvRewritten question rq;
               Cli.EvSubqueries rq subs] ++ new ++ [Cli.EvGenerate g out])).
    { intros g out. subst h3 h2 h1. by rewrite <- !app_assoc. }
    destruct stream; unfold Cli.generate; rewrite bind_run, call_run;
      cbn [mret Cli.M_ret]; rewrite Hshape;
      (eexists _, _; split; [reflexivity |]);
      (split; [intros _ | done]);
      exists rq, subs;
      rewrite ?retrieval_queries_app, ?retrieval_results_app,
        ?retrieval_budgets_app, ?generator_calls_app, Hq;
      cbn [Cli.retrieval_queries Cli.retrieval_results Cli.retrieval_budgets
             Cli.generator_calls omap list_omap app];
      rewrite ?app_nil_r;
      (split_and!; [set_solver | done | done | done | done]).
  - (* list and general *)
    set (m := if decide (route = u "list") then mret question
              else Cli.call (fun h => Cli.query_rewritten generation h question)
                     (Cli.EvRewritten question)).
    assert (Hm : exists rq pre, m h1 = (rq, h1 ++ pre) /\
              (route = u "list" -> rq = question) /\
              Cli.generator_calls pre = [] /\ Cli.retrieval_budgets pre = [] /\
              Cli.retrieval_results pre = [] /\ Cli.retrieval_queries pre = []).
    { subst m. destruct (decide (route = u "list")) as [El | El].
      - exists question, []. by rewrite app_nil_r.
      - eexists _, [_]. rewrite call_run. done. }
    destruct Hm as (rq & pre & -> & Hrq & Hp1 & Hp2 & Hp3 & Hp4).
    set (h2 := h1 ++ pre).
    rewrite bind_run, call_run.
    set (subs := Cli.extract_subqueries generation h2 rq).
    set (h3 := h2 ++ [Cli.EvSubqueries rq subs]).
    rewrite bind_run.
    destruct (pool_loop_run self retrieval generation route subs [] h3)
      as (new & -> & Hqs & [Hq Hb He]).
    cbn [app].
    assert (Hshape : forall tail,
      (h3 ++ new) ++ tail
      = h ++ ([Cli.EvRouter question route] ++ pre ++ [Cli.EvSubqueries rq subs]
               ++ new ++ tail)).
    { intros tail. subst h3 h2 h1. by rewrite <- !app_assoc. }
    assert (Hfacts : forall tail,
      Cli.retrieval_queries tail = [] -> Cli.retrieval_results tail = [] ->
      Cli.retrieval_budgets tail = [] ->
      let all := [Cli.EvRouter question route] ++ pre ++ [Cli.EvSubqueries rq subs]
                   ++ new ++ tail in
      Cli.EvSubqueries rq subs ∈ all /\
      Cli.retrieval_queries all = Cli.retrieval_queries new /\
      Cli.retrieval_results all = Cli.retrieval_results new /\
      Cli.retrieval_budgets all = Cli.retrieval_budgets new /\
      Cli.generator_calls all = Cli.generator_calls tail).
    { intros tail T1 T2 T3 all. subst all.
      rewrite ?retrieval_queries_app, ?retrieval_results_app,
        ?retrieval_budgets_app, ?generator_calls_app, Hp1, Hp2, Hp3, Hp4, T1, T2, T3, Hq.
      cbn [Cli.retrieval_queries Cli.retrieval_results Cli.retrieval_budgets
             Cli.generator_calls omap list_omap app].
      rewrite ?app_nil_r. split_and!; [set_solver | done..]. }
    destruct (concat (Cli.retrieval_results new)) as [|c pool'] eqn:Epool.
    + (* nothing was retrieved: the apology, and no generator *)
      cbn [mret Cli.M_ret].
      rewrite <- (app_nil_r (h3 ++ new)), Hshape.
      eexists _, _. split; [reflexivity |].
      split; [done | intros _ _].
      destruct (Hfacts [] eq_refl eq_refl eq_refl) as (F1 & F2 & F3 & F4 & F5).
      exists rq, subs. rewrite F2, F3, F4, Epool.
      split_and!; [done | by intros El; split; [apply Hrq | apply Hqs] | done | done | done].
    + (* the pool goes through the aggregator once *)
      destruct (decide (route = u "list")) as [El | El];
        [| destruct stream]; unfold Cli.generate; rewrite bind_run, call_run;
        cbn [mret Cli.M_ret]; rewrite Hshape;
        (eexists _, _; split; [reflexivity |]);
        (split; [done | intros _ _]);
        match goal with
        | |- context [Cli.EvGenerate ?g ?out] =>
          destruct (Hfacts [Cli.EvGenerate g out] eq_refl eq_refl eq_refl)
            as (F1 & F2 & F3 & F4 & F5)
        end;
        exists rq, subs; rewrite F2, F3, F4, F5, Epool;
        (split_and!;
           [done | by intros El'; split; [apply Hrq | apply Hqs] | done | done | done]).
Qed.

(** The policy at a comparison of two artists over the sample corpus. *)
Lemma ask_question_route_policy_witness :
  let self := Samples.system (Samples.comparing [u "张悬的作品"; u "魏如萱的作品"]) in
  let generation := Samples.comparing [u "张悬的作品"; u "魏如萱的作品"] in
  Cli.retrieval_module self = Some Samples.finds_nothing /\
  Cli.generation_module self = Some generation /\
  exists new ans,
    Cli.ask_question self Samples.comparison false [] = (ans, [] ++ new) /\
    (Cli.query_router generation [] Samples.comparison = u "compare" ->
       exists rewritten_query subqueries,
         Cli.EvSubqueries rewritten_query subqueries ∈ new /\
         Cli.retrieval_queries new = subqueries /\
         length (Cli.retrieval_results new) = length subqueries /\
         Forall (fun k => k = Config.top_cmp_k (Cli.config self))
           (Cli.retrieval_budgets new) /\
         Cli.generator_calls new =
           [Cli.compare_answer rewritten_query
              (Ingest.get_parent_documents (Cli.data_module self)
                 <$> Cli.retrieval_results new) false]) /\
    (Cli.query_router generation [] Samples.comparison <> u "direct" ->
     Cli.query_router generation [] Samples.comparison <> u "compare" ->
       exists rewritten_query subqueries,
         Cli.EvSubqueries rewritten_query subqueries ∈ new /\
         (Cli.query_router generation [] Samples.comparison = u "list" ->
            rewritten_query = Samples.comparison /\
            Cli.retrieval_queries new = subqueries) /\
         length (Cli.retrieval_results new) = length subqueries /\
         Forall (fun k => k = Config.top_k (Cli.config self))
           (Cli.retrieval_budgets new) /\
         (concat (Cli.retrieval_results new) <> [] ->
            Cli.generator_calls new =
              [if decide (Cli.query_router generation [] Samples.comparison = u "list")
               then Cli.list_answer Samples.comparison
                      (Ingest.get_parent_documents (Cli.data_module self)
                         (concat (Cli.retrieval_results new)))
               else Cli.basic_answer Samples.comparison
                      (Ingest.get_parent_documents (Cli.data_module self)
                         (concat (Cli.retrieval_results new))) false])).
Proof.
  split; [reflexivity |]. split; [reflexivity |].
  exact (ask_question_route_policy
           (Samples.system (Samples.comparing [u "张悬的作品"; u "魏如萱的作品"]))
           Samples.finds_nothing
           (Samples.comparing [u "张悬的作品"; u "魏如萱的作品"])
           Samples.comparison false [] eq_refl eq_refl).
Defined.

(** On the list and the general route an empty pool ends the question with
    the fixed apology, and no answer generator is called. *)
Lemma ask_question_empty_pool_apologises (self : Cli.LyricMindRAGSystem)
    (retrieval : Cli.RetrievalModule) (generation : Cli.GenerationModule)
    (question : str) (stream : bool) (h : Cli.history) :
  Cli.retrieval_module self = Some retrieval ->
  Cli.generation_module self = Some generation ->
  let route := Cli.query_router generation h question in
  route <> u "direct" -> route <> u "compare" ->
  exists new ans,
    Cli.ask_question self question stream h = (ans, h ++ new) /\
    (concat (Cli.retrieval_results new) = [] ->
     ans = Ok (Cli.Text Cli.apology) /\ Cli.generator_calls new = []).
Proof.
  intros Hret Hgen route Ed Ec.
  unfold Cli.ask_question. rewrite Hret, Hgen.
  rewrite bind_run, call_run. fold route.
  set (h1 := h ++ [Cli.EvRouter question route]).
  destruct (decide (route = u "direct")) as [? | _]; [done |].
  rewrite bind_run.
  destruct (decide (route = u "compare")) as [? | _]; [done |].
  set (m := if decide (route = u "list") then mret question
            else Cli.call (fun h => Cli.query_rewritten generation h question)
                   (Cli.EvRewritten question)).
  assert (Hm : exists rq pre, m h1 = (rq, h1 ++ pre) /\
            Cli.generator_calls pre = [] /\ Cli.retrieval_results pre = []).
  { subst m. destruct (decide (route = u "list")) as [El | El].
    - exists question, []. by rewrite app_nil_r.
    - eexists _, [_]. rewrite call_run. done. }
  destruct Hm as (rq & pre & -> & Hp1 & Hp3).
  set (h2 := h1 ++ pre).
  rewrite bind_run, call_run.
  set (subs := Cli.extract_subqueries generation h2 rq).
  set (h3 := h2 ++ [Cli.EvSubqueries rq subs]).
  rewrite bind_run.
  destruct (pool_loop_run self retrieval generation route subs [] h3)
    as (new & -> & Hqs & [Hq Hb He]).
  cbn [app].
  assert (Hshape : forall tail,
    (h3 ++ new) ++ tail
    = h ++ ([Cli.EvRouter question route] ++ pre ++ [Cli.EvSubqueries rq subs]
             ++ new ++ tail)).
  { intros tail. subst h3 h2 h1. by rewrite <- !app_assoc. }
  assert (Hres : forall tail, Cli.retrieval_results tail = [] ->
    Cli.retrieval_results
      ([Cli.EvRouter question route] ++ pre ++ [Cli.EvSubqueries rq subs] ++ new ++ tail)
    = Cli.retrieval_results new).
  { intros tail Ht. rewrite ?retrieval_results_app, Hp3, Ht.
    cbn [Cli.retrieval_results omap list_omap app]. by rewrite app_nil_r. }
  destruct (concat (Cli.retrieval_results new)) as [|c pool'] eqn:Epool.
  - cbn [mret Cli.M_ret]. rewrite <- (app_nil_r (h3 ++ new)), Hshape.
    eexists _, _. split; [reflexivity |]. intros _. split; [done |].
    rewrite ?generator_calls_app, Hp1, Hq. done.
  - destruct (decide (route = u "list")) as [El | El];
      [| destruct stream]; unfold Cli.generate; rewrite bind_run, call_run;
      cbn [mret Cli.M_ret]; rewrite Hshape;
      (eexists _, _; split; [reflexivity |]);
      rewrite Hres by done; rewrite Epool; done.
Qed.

(** C6. Two questions routed as [compare] for which nothing is retrieved:
    one that is split into no sub-query at all, and one whose two
    sub-queries both come back empty.  In both the comparison generator is
    called and its text is returned, not the apology. *)
Theorem ask_question_compare_never_apologises :
  (exists trace,
     Cli.ask_question (Samples.system (Samples.comparing [])) Samples.comparison false []
       = (Ok (Cli.Text (u "comparison")), trace) /\
     Cli.retrieval_results trace = [] /\
     Cli.generator_calls trace = [Cli.compare_answer Samples.comparison [] false]) /\
  (exists trace,
     Cli.ask_question
       (Samples.system (Samples.comparing [u "张悬的作品"; u "魏如萱的作品"]))
       Samples.comparison false []
       = (Ok (Cli.Text (u "comparison")), trace) /\
     Cli.retrieval_results trace = [[]; []] /\
     Cli.generator_calls trace = [Cli.compare_answer Samples.comparison [[]; []] false]) /\
  Cli.Text (u "comparison") <> Cli.Text Cli.apology.
Proof.
  split_and!.
  - eexists. split_and!; [vm_compute; reflexivity | vm_compute; reflexivity |].
    vm_compute. reflexivity.
  - eexists. split_and!; [vm_compute; reflexivity | vm_compute; reflexivity |].
    vm_compute. reflexivity.
  - intros H. by vm_compute in H.
Qed.

(** ** Trimming *)

Lemma lstrip_nil_iff (s : str) : lstrip s = [] <-> Forall (fun c => isspace c = true) s.
Proof.
  induction s as [|c s IH]; simpl; [done |].
  destruct (isspace c) eqn:E.
  - rewrite IH. split; [by constructor | by intros [_ ?]%Forall_cons].
  - split; [done | intros [? _]%Forall_cons; congruence].
Qed.

Lemma lstrip_head (s : str) c t : lstrip s = c :: t -> isspace c = false.
Proof.
  induction s as [|a s IH]; simpl; [done |].
  destruct (isspace a) eqn:E; [done |]. by intros [= <- <-].
Qed.

Lemma lstrip_fixed c (t : str) : isspace c = false -> lstrip (c :: t) = c :: t.
Proof. intros H. simpl. by rewrite H. Qed.

Lemma lstrip_idemp (s : str) : lstrip (lstrip s) = lstrip s.
Proof.
  destruct (lstrip s) as [|c t] eqn:E; [done |].
  apply lstrip_fixed. by eapply lstrip_head.
Qed.

Lemma lstrip_suffix (s : str) :
  exists pre, s = pre ++ lstrip s /\ Forall (fun c => isspace c = true) pre.
Proof.
  induction s as [|c s (pre & IH1 & IH2)]; simpl.
  - by exists [].
  - destruct (isspace c) eqn:E.
    + exists (c :: pre). split; [simpl; by f_equal | by constructor].
    + by exists [].
Qed.

Lemma lstrip_spaces_app (pre s : str) :
  Forall (fun c => isspace c = true) pre -> lstrip (pre ++ s) = lstrip s.
Proof. induction 1 as [|c pre Hc _ IH]; simpl; [done |]. by rewrite Hc. Qed.

Lemma lstrip_app_keep (s t : str) : lstrip s <> [] -> lstrip (s ++ t) = lstrip s ++ t.
Proof.
  induction s as [|c s IH]; simpl; [done |].
  destruct (isspace c); [done | done].
Qed.

Lemma rstrip_nil_iff (s : str) : rstrip s = [] <-> Forall (fun c => isspace c = true) s.
Proof.
  unfold rstrip. split.
  - intros H. apply (f_equal (@rev N)) in H. rewrite rev_involutive in H. simpl in H.
    apply lstrip_nil_iff in H. apply Forall_forall. intros x Hx.
    rewrite Forall_forall in H. apply H. apply list_elem_of_In, in_rev.
    rewrite rev_involutive. by apply list_elem_of_In.
  - intros H. assert (Hr : lstrip (rev s) = []).
    { apply lstrip_nil_iff, Forall_forall. intros x Hx.
      rewrite Forall_forall in H. apply H. by apply list_elem_of_In, in_rev, list_elem_of_In. }
    by rewrite Hr.
Qed.

Lemma rstrip_idemp (s : str) : rstrip (rstrip s) = rstrip s.
Proof. unfold rstrip. by rewrite rev_involutive, lstrip_idemp. Qed.


(** Trimming on the right keeps a first character that is not a space. *)
Lemma rstrip_cons_keep c (t : str) : isspace c = false -> rstrip (c :: t) = c :: rstrip t.
Proof.
  intros H. unfold rstrip. simpl.
  destruct (lstrip (rev t)) as [|a r] eqn:E.
  - apply lstrip_nil_iff in E. rewrite lstrip_spaces_app by done.
    by rewrite lstrip_fixed.
  - rewrite lstrip_app_keep by (rewrite E; done). rewrite E.
    by rewrite rev_app_distr.
Qed.

Lemma strip_nil_iff (s : str) : strip s = [] <-> Forall (fun c => isspace c = true) s.
Proof.
  unfold strip. rewrite rstrip_nil_iff.
  destruct (lstrip_suffix s) as (pre & E & Hpre). split.
  - intros H. rewrite E. by apply Forall_app.
  - intros H. rewrite E in H. by apply Forall_app in H as [_ ?].
Qed.

Lemma lstrip_strip (s : str) : lstrip (strip s) = strip s.
Proof.
  unfold strip. destruct (lstrip s) as [|c t] eqn:E; [done |].
  pose proof (lstrip_head _ _ _ E) as Hc.
  rewrite rstrip_cons_keep by done. by apply lstrip_fixed.
Qed.

(** Trimming twice is trimming once. *)
Lemma strip_idemp (s : str) : strip (strip s) = strip s.
Proof.
  unfold strip at 1. rewrite lstrip_strip. unfold strip. apply rstrip_idemp.
Qed.


Lemma lstrip_elem_of (s : str) x : x ∈ lstrip s -> x ∈ s.
Proof.
  destruct (lstrip_suffix s) as (pre & E & _). intros H. rewrite E. set_solver.
Qed.

Lemma elem_of_rev_iff {A} (l : list A) x : x ∈ rev l <-> x ∈ l.
Proof. rewrite !list_elem_of_In. symmetry. apply in_rev. Qed.

Lemma strip_elem_of (s : str) x : x ∈ strip s -> x ∈ s.
Proof.
  unfold strip, rstrip. rewrite elem_of_rev_iff. intros H.
  apply lstrip_elem_of in H. apply (proj1 (elem_of_rev_iff _ _)) in H.
  by apply lstrip_elem_of.
Qed.

(** ** Splitting into lines *)

Lemma split_char_elem_of c (s cur line : str) x :
  line ∈ split_char c s cur -> x ∈ line -> x ∈ cur \/ (x ∈ s /\ x <> c).
Proof.
  revert cur. induction s as [|a s IH]; intros cur; simpl.
  - intros ->%list_elem_of_singleton. auto.
  - destruct (N.eqb_spec a c) as [-> | Hne].
    + intros [-> | H]%elem_of_cons Hx; [auto |].
      destruct (IH _ H Hx) as [H' | [H' ?]]; [by apply elem_of_nil in H' |].
      right. split; [by right | done].
    + intros H Hx. destruct (IH _ H Hx) as [H' | [H' ?]].
      * apply elem_of_app in H' as [H' | ->%list_elem_of_singleton]; [auto |].
        right. split; [left | done].
      * right. split; [by right | done].
Qed.

(** ** The calls that wrap the language model *)


(** X2. The rewriter falls back on the query only when the reply is the
    empty string; any other reply is returned trimmed, so a reply made of
    whitespace gives the empty query. *)
Theorem query_rewritten_fallback (invoke : str -> str) (query : str) :
  let rewritten := Generation.query_rewritten invoke query in
  (invoke query = [] -> rewritten = query) /\
  (invoke query <> [] -> rewritten = strip (invoke query) /\ strip rewritten = rewritten) /\
  (rewritten = [] <->
     (invoke query = [] /\ query = []) \/
     (invoke query <> [] /\ Forall (fun c => isspace c = true) (invoke query))).
Proof.
  intros rewritten. subst rewritten. unfold Generation.query_rewritten.
  destruct (invoke query) as [|c r] eqn:E; simpl.
  - split_and!; [done | done |]. split; [intros ->; by left | intros [[_ ?] | [? _]]; done].
  - split_and!; [done | intros _; split; [done | apply strip_idemp] |].
    rewrite strip_nil_iff. split; [intros H; by right | intros [[? _] | [_ ?]]; done].
Qed.

Lemma split_char_no_separator c (s cur : str) :
  c ∉ s -> split_char c s cur = [cur ++ s].
Proof.
  revert cur. induction s as [|a s IH]; intros cur Hc; simpl.
  - by rewrite app_nil_r.
  - apply not_elem_of_cons in Hc as [Hne Hc].
    destruct (N.eqb_spec a c) as [-> | _]; [done |].
    rewrite IH by done. by rewrite <- app_assoc.
Qed.


(** ** The context of an answer *)

Lemma context_loop_run (docs : list Document) (i : nat) (max_length : Z)
    (parts : list str) (cur : Z) :
  cur = Z.of_nat (length (concat parts)) ->
  exists n,
    n <= length docs /\
    let out := Generation.context_loop docs i max_length parts cur in
    out = parts ++ imap (fun j d => Generation.doc_text (i + j) d) (take n docs) /\
    (0 < n -> (Z.of_nat (length (concat out)) <= max_length)%Z) /\
    (forall d, docs !! n = Some d ->
       (max_length < Z.of_nat (length (concat out))
                     + Z.of_nat (length (Generation.doc_text (i + n) d)))%Z).
Proof.
  revert i parts cur. induction docs as [|doc rest IH]; intros i parts cur Hcur; simpl.
  - exists 0. split; [done |]. simpl. rewrite app_nil_r. split_and!; [done | lia | done].
  - destruct (Z.ltb_spec max_length (cur + Z.of_nat (length (Generation.doc_text i doc))))
      as [Hover | Hfits].
    + exists 0. split; [lia |]. simpl. rewrite app_nil_r. split_and!; [done | lia |].
      intros d [= <-]. rewrite Nat.add_0_r. lia.
    + destruct (IH (S i) (parts ++ [Generation.doc_text i doc])
                  (cur + Z.of_nat (length (Generation.doc_text i doc)))%Z)
        as (n & Hn & Hout & Hfit & Hnext).
      { rewrite concat_app, length_app. simpl. rewrite app_nil_r. lia. }
      exists (S n). split; [lia |]. cbv zeta in *. split_and!.
      * rewrite Hout, <- app_assoc. simpl. rewrite Nat.add_0_r. do 2 f_equal.
        apply imap_ext. intros j d _. simpl. f_equal. lia.
      * intros _. destruct n as [|n]; [| apply Hfit; lia].
        rewrite Hout. simpl. rewrite app_nil_r, concat_app, length_app. simpl.
        rewrite app_nil_r. lia.
      * intros d Hd. simpl in Hd. replace (i + S n) with (S i + n) by lia. by apply Hnext.
Qed.

(** X4. The context holds the texts of a leading run of the documents,
    numbered from one: the run stops at the first document whose text would
    take the total length over [max_length], later documents are not tried,
    and the texts that are kept have at most [max_length] characters
    together.  With no document the context is a fixed sentence. *)
Theorem build_context_keeps_prefix (docs : list Document) (max_length : Z) :
  let parts := Generation.context_loop docs 1 max_length [] 0%Z in
  (docs = [] -> Generation._build_context docs max_length = u "暂无相关歌曲信息。") /\
  (docs <> [] ->
   Generation._build_context docs max_length = nl ++ times 61%N 50 ++ join nl parts) /\
  exists n,
    n <= length docs /\
    parts = imap (fun j d => Generation.doc_text (S j) d) (take n docs) /\
    (0 < n -> (Z.of_nat (length (concat parts)) <= max_length)%Z) /\
    (forall d, docs !! n = Some d ->
       (max_length < Z.of_nat (length (concat parts))
                     + Z.of_nat (length (Generation.doc_text (S n) d)))%Z).
Proof.
  intros parts. split_and!.
  - by intros ->.
  - intros Hne. by destruct docs.
  - destruct (context_loop_run docs 1 max_length [] 0%Z eq_refl)
      as (n & Hn & Hout & Hfit & Hnext).
    exists n. by split_and!.
Qed.

(** ** Fixed windows *)

Lemma windows_concat (n k : nat) (t : str) :
  length t <= k * n ->
  concat (List.map (fun i => slice i (i + n) t) (List.map (fun j => j * n) (seq 0 k))) = t.
Proof.
  revert t. induction k as [|k IH]; intros t Hlen; simpl.
  - destruct t; [done | simpl in Hlen; lia].
  - unfold slice at 1. simpl. rewrite Nat.sub_0_r, drop_0.
    rewrite <- seq_shift, !List.map_map.
    rewrite <- (take_drop n t) at 2. f_equal.
    rewrite <- (IH (drop n t)) at 1.
    + rewrite List.map_map. f_equal. apply List.map_ext. intros j. unfold slice.
      rewrite drop_drop. repeat (f_equal; try lia).
    + rewrite length_drop. lia.
Qed.

Lemma py_range_covers (len n : nat) : 0 < n -> len <= (len + n - 1) / n * n.
Proof.
  intros Hn. pose proof (Nat.div_mod_eq (len + n - 1) n) as H.
  pose proof (Nat.mod_upper_bound (len + n - 1) n ltac:(lia)) as Hr. nia.
Qed.

Lemma py_range_tight (len n : nat) : 0 < n -> 0 < len -> ((len + n - 1) / n - 1) * n < len.
Proof.
  intros Hn Hlen. pose proof (Nat.div_mod_eq (len + n - 1) n) as H.
  assert (Hq : 0 < (len + n - 1) / n) by (apply Nat.div_str_pos; lia).
  nia.
Qed.

(** X5. With a positive window size nothing is lost and nothing overlaps:
    the windows, put end to end, are the trimmed text; no window is longer
    than the size and every window but the last has exactly the size; a
    text that is not empty gives at least one window. *)
Theorem split_by_size_windows (text : str) (size : Z) :
  (0 < size)%Z ->
  exists parts,
    Ingest._split_by_size text size = Ok parts /\
    concat parts = strip text /\
    Forall (fun p => length p <= Z.to_nat size) parts /\
    (forall i p, parts !! i = Some p -> S i < length parts -> length p = Z.to_nat size) /\
    (text <> [] -> parts <> []).
Proof.
  intros Hsize. unfold Ingest._split_by_size.
  destruct text as [|c text]; simpl negb; cbv iota.
  { exists []. split_and!; [done | done | done | | done]. intros i p H. done. }
  set (t := strip (c :: text)).
  destruct (Z.leb_spec (Z.of_nat (length t)) size) as [Hle | Hgt].
  { exists [t]. split_and!; [done | simpl; by rewrite app_nil_r | | | done].
    - constructor; [lia | done].
    - intros i p H Hi. simpl in Hi. lia. }
  destruct (Z.eqb_spec size 0) as [-> | _]; [lia |].
  destruct (Z.ltb_spec size 0) as [? | _]; [lia |].
  set (n := Z.to_nat size). assert (Hn : 0 < n) by lia.
  assert (Hlen : 0 < length t) by lia.
  eexists. split; [reflexivity |]. unfold py_range.
  set (k := (length t + n - 1) / n).
  split_and!.
  - apply windows_concat. by apply py_range_covers.
  - apply Forall_forall. intros p Hp.
    apply list_elem_of_In, in_map_iff in Hp as (i & <- & _).
    unfold slice. rewrite length_take. lia.
  - intros i p Hp Hi. rewrite !length_map, length_seq in Hi.
    rewrite List.map_map in Hp. rewrite list_lookup_fmap in Hp.
    apply fmap_Some in Hp as (j & Hj & ->).
    apply lookup_seq in Hj as [-> _]. simpl.
    unfold slice. rewrite length_take, length_drop.
    pose proof (py_range_tight (length t) n Hn Hlen) as Ht. fold k in Ht. nia.
  - intros _. assert (Hk : 0 < k) by (apply Nat.div_str_pos; lia).
    destruct k; [lia | done].
Qed.

Lemma split_by_size_windows_witness :
  (0 < 2)%Z /\
  exists parts,
    Ingest._split_by_size (u "ab cde ") 2 = Ok parts /\
    concat parts = strip (u "ab cde ") /\
    Forall (fun p => length p <= Z.to_nat 2) parts /\
    (forall i p, parts !! i = Some p -> S i < length parts -> length p = Z.to_nat 2) /\
    (u "ab cde " <> [] -> parts <> []).
Proof.
  split; [lia |]. apply (split_by_size_windows (u "ab cde ") 2). lia.
Defined.

(** X6. The fixed-window split fails only on a size of zero with a text
    that is not blank, and then with [ValueError]; on a negative size it
    returns no window at all, whatever the text. *)
Theorem split_by_size_failure (text : str) (size : Z) :
  (forall e, Ingest._split_by_size text size = Raise e <->
     e = ValueError /\ size = 0%Z /\ strip text <> []) /\
  ((size < 0)%Z -> Ingest._split_by_size text size = Ok []).
Proof.
  unfold Ingest._split_by_size.
  destruct text as [|c text]; simpl negb; cbv iota.
  { split; [| done]. intros e. split; [done | intros (_ & _ & H); done]. }
  set (t := strip (c :: text)).
  destruct (Z.leb_spec (Z.of_nat (length t)) size) as [Hle | Hgt].
  { split; [| lia]. intros e. split; [done |].
    intros (_ & -> & Hne). destruct t; [done | simpl in Hle; lia]. }
  destruct (Z.eqb_spec size 0) as [-> | Hnz].
  { split; [| lia]. intros e. split.
    - intros [= <-]. split_and!; [done | done |]. intros Ht. rewrite Ht in Hgt. simpl in Hgt. lia.
    - by intros (-> & _ & _). }
  destruct (Z.ltb_spec size 0) as [Hneg | Hpos].
  - split; [| done]. intros e. split; [done | intros (_ & ? & _); done].
  - split; [| lia]. intros e. split; [done | intros (_ & ? & _); done].
Qed.

(** ** Header-aware split *)

(** X7. Every block of the header-aware split is trimmed.  When the header
    pattern matches nowhere in the text, so that the text is cut before any
    [##] title, no block is empty; and an empty text gives no block. *)
Theorem split_by_header_blocks (text : str) (header_keys : list str) :
  let blocks := Ingest._split_by_header text header_keys in
  Forall (fun b => strip b = b) blocks /\
  (Re.findall (Ingest.header_pattern header_keys) text = [] ->
   Forall (fun b => b <> []) blocks) /\
  (text = [] -> blocks = []).
Proof.
  intros blocks. subst blocks. unfold Ingest._split_by_header.
  destruct text as [|c text]; simpl negb; cbv iota.
  { by split_and!. }
  assert (Hgen : Forall (fun b => strip b = b /\ b <> [])
            (List.map strip
               (List.filter (fun p => truthy (strip p))
                  (Re.split Ingest.any_header_split (c :: text))))).
  { apply Forall_forall. intros b Hb.
    apply list_elem_of_In, in_map_iff in Hb as (p & <- & Hp).
    apply filter_In in Hp as [_ Ht]. apply truthy_spec in Ht.
    split; [apply strip_idemp | done]. }
  split_and!.
  - destruct header_keys as [|k ks].
    + eapply Forall_impl; [exact Hgen | by intros b [? _]].
    + destruct (Re.findall _ _) as [|m ms] eqn:E.
      * eapply Forall_impl; [exact Hgen | by intros b [? _]].
      * apply Forall_forall. intros b Hb.
        apply list_elem_of_In, in_map_iff in Hb as (m' & <- & _). apply strip_idemp.
  - intros Hnone. destruct header_keys as [|k ks].
    + eapply Forall_impl; [exact Hgen | by intros b [_ ?]].
    + rewrite Hnone. eapply Forall_impl; [exact Hgen | by intros b [_ ?]].
  - done.
Qed.

(** ** The chunks of the parents *)

Section ChunkFacts.
Variable uuid4 : nat -> str.

Lemma make_child_content p d i b : page_content (Ingest.make_child uuid4 p d i b) = strip b.
Proof. done. Qed.

Lemma make_child_index p d i b : chunk_index (Ingest.make_child uuid4 p d i b) = Some i.
Proof. done. Qed.

Lemma make_child_type p d i b :
  metadata (Ingest.make_child uuid4 p d i b) !! "doc_type" = Some (u "child").
Proof. unfold Ingest.make_child. simpl. by rewrite lookup_insert_eq. Qed.

Lemma make_child_id p d i b : chunk_id_of (Ingest.make_child uuid4 p d i b) = Some (uuid4 d).
Proof.
  unfold chunk_id_of, Ingest.make_child. simpl. rewrite lookup_insert_ne by done.
  destruct (metadata p !! "parent_id").
  - rewrite lookup_insert_ne by done. by rewrite lookup_insert_eq.
  - rewrite lookup_delete_ne by done. by rewrite lookup_insert_eq.
Qed.

Lemma make_child_parent p d i b :
  parent_id_of (Ingest.make_child uuid4 p d i b) = parent_id_of p.
Proof.
  unfold parent_id_of, Ingest.make_child. simpl. rewrite lookup_insert_ne by done.
  destruct (metadata p !! "parent_id") eqn:E.
  - by rewrite lookup_insert_eq.
  - by rewrite lookup_delete_eq.
Qed.

(** A chunk copies every other entry of its parent. *)
Lemma make_child_inherits p d i b k :
  k <> "chunk_id" -> k <> "parent_id" -> k <> "doc_type" ->
  metadata (Ingest.make_child uuid4 p d i b) !! k = metadata p !! k.
Proof.
  intros H1 H2 H3. unfold Ingest.make_child. simpl. rewrite lookup_insert_ne by done.
  destruct (metadata p !! "parent_id").
  - rewrite !lookup_insert_ne by done. done.
  - rewrite lookup_delete_ne by done. by rewrite lookup_insert_ne.
Qed.

Lemma fmap_constant {A B} (f : A -> B) (y : B) (l : list A) :
  (forall x, f x = y) -> f <$> l = replicate (length l) y.
Proof. intros H. induction l as [|x l IH]; csimpl; [done |]. by rewrite H, IH. Qed.

Lemma chunk_layout_nil : chunk_layout [] [] [].
Proof. by split. Qed.

Lemma chunk_layout_cons p bs parents blockss children new :
  page_content <$> children = strip <$> bs ->
  chunk_index <$> children = Some <$> seq 0 (length bs) ->
  parent_id_of <$> children = replicate (length bs) (parent_id_of p) ->
  Forall (fun c => metadata c !! "doc_type" = Some (u "child")) children ->
  chunk_layout parents blockss new ->
  chunk_layout (p :: parents) (bs :: blockss) (children ++ new).
Proof.
  intros H1 H2 H3 H4 [L1 L2 L3 L4]. split.
  - rewrite fmap_app, H1, L1. simpl. by rewrite fmap_app.
  - rewrite fmap_app, H2, L2. done.
  - rewrite fmap_app, H3, L3. done.
  - by apply Forall_app.
Qed.

Lemma fold_left_ext_in {A B} (f g : A -> B -> A) (l : list B) (a : A) :
  (forall a x, x ∈ l -> f a x = g a x) -> fold_left f l a = fold_left g l a.
Proof.
  revert a. induction l as [|x l IH]; intros a H; simpl; [done |].
  rewrite H by left. apply IH. intros a' y Hy. apply H. by right.
Qed.

(** What the loop over the parents has done when it ends well. *)
Lemma chunk_parents_run self use parents acc pcm out pcm' :
  Ingest.chunk_parents uuid4 self use parents acc pcm = Ok (out, pcm') ->
  exists blockss new,
    Forall2 (fun p bs => Ingest.blocks_of self use p = Ok bs) parents blockss /\
    out = acc ++ new /\
    chunk_layout parents blockss new /\
    chunk_id_of <$> new = (fun i => Some (uuid4 i)) <$> seq (length acc) (length new) /\
    pcm' = entered pcm new.
Proof.
  revert acc pcm. induction parents as [|p rest IH]; intros acc pcm; simpl.
  - intros [= <- <-]. exists [], []. rewrite app_nil_r.
    split_and!; [constructor | done | apply chunk_layout_nil | done | done].
  - destruct (Ingest.blocks_of self use p) as [bs | e] eqn:Eb; simpl; [| done].
    set (children := imap (fun idx block =>
                             Ingest.make_child uuid4 p (length acc + idx) idx block) bs).
    intros Hrun. apply IH in Hrun as (blockss & new & HF & -> & HL & Hids & ->).
    exists (bs :: blockss), (children ++ new).
    assert (Hlen : length children = length bs) by apply length_imap.
    split_and!.
    + by constructor.
    + by rewrite app_assoc.
    + apply chunk_layout_cons; [| | | | done].
      * unfold children. rewrite fmap_imap.
        rewrite (imap_ext _ (const strip)); [apply imap_const | done].
      * unfold children. rewrite fmap_imap.
        rewrite (imap_ext _ (fun j _ => Some j)); [apply imap_seq_0 | done].
      * unfold children. rewrite fmap_imap.
        rewrite (imap_ext _ (const (fun _ => parent_id_of p))).
        -- rewrite imap_const. by apply fmap_constant.
        -- intros i x _. apply make_child_parent.
      * apply Forall_forall. intros c Hc. unfold children in Hc.
        apply elem_of_lookup_imap in Hc as (i & b & -> & _). apply make_child_type.
    + rewrite fmap_app, Hids, !length_app, Hlen, seq_app, fmap_app.
      f_equal. unfold children. rewrite fmap_imap.
      rewrite (imap_ext _ (fun j _ => Some (uuid4 (length acc + j)))).
      * apply (imap_seq bs (fun i => Some (uuid4 i))).
      * intros i x _. apply make_child_id.
    + unfold entered. rewrite fold_left_app. f_equal.
      apply fold_left_ext_in. intros m c Hc. unfold children in Hc.
      apply elem_of_lookup_imap in Hc as (i & b & -> & _).
      unfold Ingest.get_default. fold (chunk_id_of (Ingest.make_child uuid4 p (length acc + i) i b)).
      by rewrite make_child_parent.
Qed.

End ChunkFacts.

(** X8. The layout of the chunks.  When chunking ends well, the chunks
    stand in the order of the parents and, within a parent, of its blocks;
    the content of a chunk is its block, trimmed; the index of a chunk is
    its position among the blocks of its parent, from zero; a chunk has the
    [parent_id] of its parent and the type [child]; and the module keeps its
    parents and holds the new chunks. *)
Theorem chunk_documents_layout (uuid4 : nat -> str) (self : Ingest.DataPreparationModule)
    (use_header_split : bool) (chunks : list Document) (self' : Ingest.DataPreparationModule) :
  Ingest.chunk_documents uuid4 self use_header_split = Ok (chunks, self') ->
  exists blockss,
    Forall2 (fun p bs => Ingest.blocks_of self use_header_split p = Ok bs)
      (Ingest.parent_documents self) blockss /\
    chunk_layout (Ingest.parent_documents self) blockss chunks /\
    Ingest.chunks self' = chunks /\
    Ingest.parent_documents self' = Ingest.parent_documents self /\
    Ingest.chunk_size_chars self' = Ingest.chunk_size_chars self.
Proof.
  unfold Ingest.chunk_documents.
  destruct (Ingest.parent_documents self) as [|p ps] eqn:Ep; [done |].
  destruct (Ingest.chunk_parents uuid4 self use_header_split (p :: ps) []
              (Ingest.parent_child_map self)) as [[out pcm'] | e] eqn:Erun; simpl; [| done].
  intros [= <- <-].
  apply chunk_parents_run in Erun as (blockss & new & HF & -> & HL & _ & _).
  exists blockss. by split_and!.
Qed.

(** The layout of the chunks of the song without words. *)
Lemma chunk_documents_layout_witness :
  Ingest.chunk_documents Samples.serial
    (Samples.module_of [Samples.instrumental_parent]) true
    = Ok (Samples.chunked.1, Samples.chunked.2) /\
  exists blockss,
    Forall2 (fun p bs =>
               Ingest.blocks_of (Samples.module_of [Samples.instrumental_parent]) true p
               = Ok bs)
      (Ingest.parent_documents (Samples.module_of [Samples.instrumental_parent])) blockss /\
    chunk_layout
      (Ingest.parent_documents (Samples.module_of [Samples.instrumental_parent]))
      blockss Samples.chunked.1 /\
    Ingest.chunks Samples.chunked.2 = Samples.chunked.1 /\
    Ingest.parent_documents Samples.chunked.2
      = Ingest.parent_documents (Samples.module_of [Samples.instrumental_parent]) /\
    Ingest.chunk_size_chars Samples.chunked.2
      = Ingest.chunk_size_chars (Samples.module_of [Samples.instrumental_parent]).
Proof.
  assert (H : Ingest.chunk_documents Samples.serial
                (Samples.module_of [Samples.instrumental_parent]) true
              = Ok (Samples.chunked.1, Samples.chunked.2)) by (vm_compute; reflexivity).
  split; [exact H |].
  exact (chunk_documents_layout Samples.serial
           (Samples.module_of [Samples.instrumental_parent]) true
           Samples.chunked.1 Samples.chunked.2 H).
Defined.

(** ** Chunk identifiers and the map from chunks to parents *)

Lemma entered_snoc pcm new c :
  entered pcm (new ++ [c]) = <[default [] (chunk_id_of c) := parent_id_of c]> (entered pcm new).
Proof. unfold entered. by rewrite fold_left_app. Qed.

Lemma entered_lookup pcm new c cid :
  NoDup (chunk_id_of <$> new) -> Forall (fun c => is_Some (chunk_id_of c)) new ->
  c ∈ new -> chunk_id_of c = Some cid ->
  entered pcm new !! cid = Some (parent_id_of c).
Proof.
  induction new as [|x new IH] using rev_ind; intros Hnd Hall Hc Hid.
  - by apply elem_of_nil in Hc.
  - rewrite entered_snoc. rewrite fmap_app in Hnd. apply NoDup_app in Hnd as (Hnd & Hsep & _).
    apply Forall_app in Hall as [Hall Hx]. apply Forall_singleton in Hx as [k Hk].
    apply elem_of_app in Hc as [Hc | Hc].
    + assert (Hne : k <> cid).
      { intros ->. apply (Hsep (chunk_id_of c)); [by apply list_elem_of_fmap_2 |].
        csimpl. apply list_elem_of_singleton. congruence. }
      rewrite Hk. simpl. rewrite lookup_insert_ne by done. by apply IH.
    + apply list_elem_of_singleton in Hc as ->. rewrite Hid. simpl. by rewrite lookup_insert_eq.
Qed.

Lemma entered_other pcm new cid :
  Some cid ∉ chunk_id_of <$> new -> Forall (fun c => is_Some (chunk_id_of c)) new ->
  entered pcm new !! cid = pcm !! cid.
Proof.
  induction new as [|x new IH] using rev_ind; intros Hnot Hall; [done |].
  rewrite entered_snoc. rewrite fmap_app in Hnot. apply not_elem_of_app in Hnot as [Hn Hx].
  apply Forall_app in Hall as [Hall Hk]. apply Forall_singleton in Hk as [k Hk].
  rewrite Hk. simpl. rewrite lookup_insert_ne.
  - by apply IH.
  - intros ->. apply Hx. csimpl. apply list_elem_of_singleton. by rewrite Hk.
Qed.

Lemma drawn_ids_NoDup (uuid4 : nat -> str) (start len : nat) :
  (forall m n, uuid4 m = uuid4 n -> m = n) ->
  NoDup ((fun i => Some (uuid4 i)) <$> seq start len).
Proof.
  intros Hinj. apply NoDup_fmap_2; [| apply NoDup_seq].
  intros m n [= H]. by apply Hinj.
Qed.

Lemma drawn_ids_is_Some (uuid4 : nat -> str) (new : list Document) (start : nat) :
  chunk_id_of <$> new = (fun i => Some (uuid4 i)) <$> seq start (length new) ->
  Forall (fun c => is_Some (chunk_id_of c)) new.
Proof.
  intros H. apply Forall_forall. intros c Hc.
  apply (list_elem_of_fmap_2 chunk_id_of) in Hc. rewrite H in Hc.
  apply list_elem_of_fmap in Hc as (i & -> & _). by eexists.
Qed.

(** X9. The identifiers of the chunks.  When chunking ends well, the n-th
    chunk carries the n-th identifier drawn; if the identifiers drawn are
    all different, so are those of the chunks, the [parent_child_map] sends
    the identifier of every chunk to the [parent_id] of that chunk, and it
    keeps what it held under every other key. *)
Theorem chunk_documents_ids (uuid4 : nat -> str) (self : Ingest.DataPreparationModule)
    (use_header_split : bool) (chunks : list Document) (self' : Ingest.DataPreparationModule) :
  (forall m n, uuid4 m = uuid4 n -> m = n) ->
  Ingest.chunk_documents uuid4 self use_header_split = Ok (chunks, self') ->
  chunk_id_of <$> chunks = (fun i => Some (uuid4 i)) <$> seq 0 (length chunks) /\
  NoDup (chunk_id_of <$> chunks) /\
  (forall c cid, c ∈ chunks -> chunk_id_of c = Some cid ->
     Ingest.parent_child_map self' !! cid = Some (parent_id_of c)) /\
  (forall cid, Some cid ∉ chunk_id_of <$> chunks ->
     Ingest.parent_child_map self' !! cid = Ingest.parent_child_map self !! cid).
Proof.
  intros Hinj. unfold Ingest.chunk_documents.
  destruct (Ingest.parent_documents self) as [|p ps] eqn:Ep; [done |].
  destruct (Ingest.chunk_parents uuid4 self use_header_split (p :: ps) []
              (Ingest.parent_child_map self)) as [[out pcm'] | e] eqn:Erun; simpl; [| done].
  intros [= <- <-].
  apply chunk_parents_run in Erun as (blockss & new & _ & -> & _ & Hids & ->).
  simpl in *.
  assert (Hnd : NoDup (chunk_id_of <$> new)) by (rewrite Hids; by apply drawn_ids_NoDup).
  pose proof (drawn_ids_is_Some _ _ _ Hids) as Hall.
  split_and!; [done | done | |].
  - intros c cid Hc Hid. by apply entered_lookup.
  - intros cid Hnot. by apply entered_other.
Qed.

(** The identifiers of the chunks of the song without words. *)
Lemma chunk_documents_ids_witness :
  (forall m n, Samples.serial m = Samples.serial n -> m = n) /\
  Ingest.chunk_documents Samples.serial
    (Samples.module_of [Samples.instrumental_parent]) true
    = Ok (Samples.chunked.1, Samples.chunked.2) /\
  NoDup (chunk_id_of <$> Samples.chunked.1) /\
  (forall c cid, c ∈ Samples.chunked.1 -> chunk_id_of c = Some cid ->
     Ingest.parent_child_map Samples.chunked.2 !! cid = Some (parent_id_of c)).
Proof.
  assert (Hinj : forall m n, Samples.serial m = Samples.serial n -> m = n).
  { intros m n [= H]. lia. }
  assert (H : Ingest.chunk_documents Samples.serial
                (Samples.module_of [Samples.instrumental_parent]) true
              = Ok (Samples.chunked.1, Samples.chunked.2)) by (vm_compute; reflexivity).
  split; [exact Hinj |]. split; [exact H |].
  pose proof (chunk_documents_ids Samples.serial
                (Samples.module_of [Samples.instrumental_parent]) true
                Samples.chunked.1 Samples.chunked.2 Hinj H) as (_ & H2 & H3 & _).
  split; [exact H2 | exact H3].
Defined.

(** ** When chunking fails *)

Lemma chunk_parents_raise uuid4 self use parents acc pcm e :
  Ingest.chunk_parents uuid4 self use parents acc pcm = Raise e ->
  Exists (fun p => Ingest.blocks_of self use p = Raise e) parents.
Proof.
  revert acc pcm. induction parents as [|p rest IH]; intros acc pcm; simpl; [done |].
  destruct (Ingest.blocks_of self use p) as [bs | e'] eqn:Eb; simpl.
  - intros H. apply Exists_cons_tl. by eapply IH.
  - intros [= ->]. by apply Exists_cons_hd.
Qed.

Lemma chunk_parents_ok uuid4 self use parents acc pcm :
  Forall (fun p => exists bs, Ingest.blocks_of self use p = Ok bs) parents ->
  exists out pcm', Ingest.chunk_parents uuid4 self use parents acc pcm = Ok (out, pcm').
Proof.
  revert acc pcm. induction parents as [|p rest IH]; intros acc pcm Hall; simpl.
  - by eexists _, _.
  - apply Forall_cons in Hall as [[bs Hb] Hall]. rewrite Hb. simpl. by apply IH.
Qed.

Lemma split_by_size_raise text size e :
  Ingest._split_by_size text size = Raise e ->
  e = ValueError /\ size = 0%Z /\ strip text <> [].
Proof.
  unfold Ingest._split_by_size.
  destruct (negb (truthy text)); [done |]. cbv zeta.
  destruct (Z.leb_spec (Z.of_nat (length (strip text))) size) as [Hle | Hgt]; [done |].
  destruct (Z.eqb_spec size 0) as [-> | Hnz]; [| by destruct (size <? 0)%Z].
  intros [= <-]. split_and!; [done | done |].
  intros Ht. rewrite Ht in Hgt. simpl in Hgt. lia.
Qed.

(** The one way in which the blocks of a parent cannot be computed. *)
Lemma blocks_of_raise self use p e :
  Ingest.blocks_of self use p = Raise e ->
  e = ValueError /\ Ingest.chunk_size_chars self = 0%Z /\ strip (page_content p) <> [] /\
  strip (Ingest.get_default (metadata p) "lyrics" []) = [].
Proof.
  unfold Ingest.blocks_of.
  destruct (length _ <=? 1)%nat; [| done].
  destruct (truthy (strip _)) eqn:Et; [done |].
  intros H. apply split_by_size_raise in H as (-> & Hs & Hne).
  split_and!; [done | done | done |].
  by destruct (strip (Ingest.get_default (metadata p) "lyrics" [])).
Qed.

(** X10. When chunking fails.  Chunking raises [ValueError] when no parent
    is loaded.  It raises nothing but [ValueError], and with parents loaded
    only when [chunk_size_chars] is zero and some parent has a text that is
    not blank and no lyrics.  With parents loaded and a [chunk_size_chars]
    other than zero it always ends well. *)
Theorem chunk_documents_failure (uuid4 : nat -> str) (self : Ingest.DataPreparationModule)
    (use_header_split : bool) :
  (Ingest.parent_documents self = [] ->
   Ingest.chunk_documents uuid4 self use_header_split = Raise ValueError) /\
  (forall e, Ingest.chunk_documents uuid4 self use_header_split = Raise e ->
     e = ValueError /\
     (Ingest.parent_documents self = [] \/
      Ingest.chunk_size_chars self = 0%Z /\
      Exists (fun p => strip (page_content p) <> [] /\
                       strip (Ingest.get_default (metadata p) "lyrics" []) = [])
        (Ingest.parent_documents self))) /\
  (Ingest.parent_documents self <> [] -> Ingest.chunk_size_chars self <> 0%Z ->
   exists chunks self', Ingest.chunk_documents uuid4 self use_header_split = Ok (chunks, self')).
Proof.
  unfold Ingest.chunk_documents. split_and!.
  - by intros ->.
  - intros e. destruct (Ingest.parent_documents self) as [|p ps] eqn:Ep.
    { intros [= <-]. split; [done | by left]. }
    destruct (Ingest.chunk_parents uuid4 self use_header_split (p :: ps) []
                (Ingest.parent_child_map self)) as [[out pcm'] | e'] eqn:Erun; simpl; [done |].
    intros [= ->]. apply chunk_parents_raise in Erun.
    apply Exists_exists in Erun as (q & Hq & Hraise).
    apply blocks_of_raise in Hraise as (-> & Hz & Ht & Hl).
    split; [done |]. right. split; [done |]. apply Exists_exists. by exists q.
  - intros Hne Hsize. destruct (Ingest.parent_documents self) as [|p ps] eqn:Ep; [done |].
    destruct (chunk_parents_ok uuid4 self use_header_split (p :: ps) []
                (Ingest.parent_child_map self)) as (out & pcm' & Hrun).
    + apply Forall_forall. intros q _.
      destruct (Ingest.blocks_of self use_header_split q) as [bs | e] eqn:Eb; [by exists bs |].
      apply blocks_of_raise in Eb as (_ & Hz & _). done.
    + rewrite Hrun. simpl. by eexists _, _.
Qed.

(** ** From the chunks back to the parents *)

Lemma replicated_parent {A B} (g : A -> B) (ps : list A) (bss : list (list str)) (x : B) :
  x ∈ concat (zip_with (fun p bs => replicate (length bs) (g p)) ps bss) ->
  exists p, p ∈ ps /\ x = g p.
Proof.
  revert bss. induction ps as [|p ps IH]; intros [|bs bss]; simpl;
    try (by intros H; apply elem_of_nil in H).
  intros H. apply elem_of_app in H as [H | H].
  - apply elem_of_replicate in H as [-> _]. exists p. split; [left | done].
  - apply IH in H as (q & Hq & ->). exists q. split; [by right | done].
Qed.

Lemma chunk_layout_parent parents blockss new c :
  chunk_layout parents blockss new -> c ∈ new ->
  exists p, p ∈ parents /\ parent_id_of c = parent_id_of p.
Proof.
  intros [_ _ H _] Hc. apply (list_elem_of_fmap_2 parent_id_of) in Hc.
  rewrite H in Hc. by apply replicated_parent in Hc.
Qed.

Lemma find_parent_first parents pid p :
  p ∈ parents -> parent_id_of p = Some pid ->
  exists q, Ingest.find_parent parents pid = Some q /\ q ∈ parents /\ parent_id_of q = Some pid.
Proof.
  intros Hp Hid. unfold Ingest.find_parent.
  destruct (List.find _ parents) as [q|] eqn:E.
  - exists q. split; [done |]. by apply find_parent_Some.
  - exfalso. pose proof (List.find_none _ _ E p (proj1 (list_elem_of_In _ _) Hp)) as Hn.
    simpl in Hn. apply bool_decide_eq_false in Hn. by apply Hn.
Qed.

Lemma NoDup_fmap_eq {A B} (f : A -> B) (l : list A) (x y : A) :
  NoDup (f <$> l) -> x ∈ l -> y ∈ l -> f x = f y -> x = y.
Proof.
  induction l as [|a l IH]; csimpl; intros Hnd Hx Hy Hxy; [by apply elem_of_nil in Hx |].
  apply NoDup_cons in Hnd as [Ha Hnd].
  apply elem_of_cons in Hx as [-> | Hx]; apply elem_of_cons in Hy as [-> | Hy].
  - done.
  - exfalso. apply Ha. rewrite Hxy. by apply list_elem_of_fmap_2.
  - exfalso. apply Ha. rewrite <- Hxy. by apply list_elem_of_fmap_2.
  - by apply IH.
Qed.

Lemma find_parent_NoDup parents pid p :
  NoDup (parent_id_of <$> parents) -> p ∈ parents -> parent_id_of p = Some pid ->
  Ingest.find_parent parents pid = Some p.
Proof.
  intros Hnd Hp Hid. destruct (find_parent_first parents pid p Hp Hid) as (q & Hf & Hq & Hqid).
  rewrite Hf. f_equal. apply (NoDup_fmap_eq parent_id_of parents); [done | done | done | congruence].
Qed.

(** The parents of one chunk. *)
Lemma get_parent_documents_single self c pid :
  parent_id_of c = Some pid -> pid <> [] ->
  Ingest.get_parent_documents self [c]
  = match Ingest.find_parent (Ingest.parent_documents self) pid with
    | Some p => [p]
    | None => []
    end.
Proof.
  intros Hid Hne. unfold Ingest.get_parent_documents, Ingest.count_parents. simpl.
  unfold parent_id_of in Hid. rewrite Hid.
  destruct pid as [|ch pid]; [done |]. simpl.
  rewrite lookup_empty.
  destruct (Ingest.find_parent (Ingest.parent_documents self) (ch :: pid)) as [p|] eqn:E.
  - unfold od_set, od_keys. simpl. by rewrite lookup_insert_eq.
  - unfold od_set, od_keys. simpl. by rewrite lookup_empty.
Qed.

(** Which parents a list of chunks leads to. *)
Lemma get_parent_documents_elem_of self child_chunks p :
  p ∈ Ingest.get_parent_documents self child_chunks <->
  exists pid, pid <> [] /\ 0 < occurrences pid child_chunks /\
    Ingest.find_parent (Ingest.parent_documents self) pid = Some p.
Proof.
  unfold Ingest.get_parent_documents.
  pose proof (count_parents_counted (Ingest.parent_documents self) child_chunks) as HC.
  destruct (Ingest.count_parents _ child_chunks) as [scores pmap].
  destruct HC as [H1 H2 H3 H4 H5].
  set (score := fun x : str => default 0 (od_get scores x)).
  assert (Hperm : sorted_reverse Nat.ltb score (od_keys scores) ≡ₚ od_keys scores)
    by apply sorted_reverse_perm.
  rewrite list_elem_of_omap. split.
  - intros (pid & Hin & Hp). rewrite H5 in Hp.
    destruct (decide (pid ∈ od_keys scores)) as [Hk|]; [| done].
    apply H2 in Hk as [? ?]. by exists pid.
  - intros (pid & Hne & Hpos & Hp). exists pid.
    assert (Hk : pid ∈ od_keys scores) by by apply H2.
    split; [by rewrite Hperm |]. rewrite H5. by destruct (decide _).
Qed.

(** X11. From the chunks back to the parents.  Let chunking end well on
    parents that all carry a [parent_id] that is not empty, no two the same.
    Then every chunk alone leads back to one parent, the one with its
    [parent_id]; and all the chunks together lead back to exactly the
    parents from which at least one chunk was cut. *)
Theorem chunks_resolve_to_parents (uuid4 : nat -> str) (self : Ingest.DataPreparationModule)
    (use_header_split : bool) (chunks : list Document) (self' : Ingest.DataPreparationModule) :
  Ingest.chunk_documents uuid4 self use_header_split = Ok (chunks, self') ->
  NoDup (parent_id_of <$> Ingest.parent_documents self) ->
  Forall (fun p => exists pid, parent_id_of p = Some pid /\ pid <> [])
    (Ingest.parent_documents self) ->
  (forall c, c ∈ chunks ->
     exists p, p ∈ Ingest.parent_documents self /\ parent_id_of p = parent_id_of c /\
       Ingest.get_parent_documents self' [c] = [p]) /\
  (forall p, p ∈ Ingest.get_parent_documents self' chunks <->
     p ∈ Ingest.parent_documents self /\
     exists c, c ∈ chunks /\ parent_id_of c = parent_id_of p).
Proof.
  intros Hrun Hnd Hall.
  unfold Ingest.chunk_documents in Hrun.
  destruct (Ingest.parent_documents self) as [|p0 ps] eqn:Ep; [done |].
  destruct (Ingest.chunk_parents uuid4 self use_header_split (p0 :: ps) []
              (Ingest.parent_child_map self)) as [[out pcm'] | e] eqn:Erun; simpl in Hrun; [| done].
  injection Hrun as <- <-.
  apply chunk_parents_run in Erun as (blockss & new & _ & -> & HL & _ & _). simpl.
  rewrite Forall_forall in Hall. split.
  - intros c Hc. destruct (chunk_layout_parent _ _ _ c HL Hc) as (p & Hp & Hcp).
    destruct (Hall p Hp) as (pid & Hid & Hne).
    exists p. split_and!.
    { done. }
    { by rewrite Hcp. }
    rewrite (get_parent_documents_single _ c pid) by congruence.
    cbn [Ingest.parent_documents].
    by rewrite (find_parent_NoDup (p0 :: ps) pid p Hnd Hp Hid).
  - intros p. rewrite get_parent_documents_elem_of. cbn [Ingest.parent_documents]. split.
    + intros (pid & Hne & Hpos & Hf). apply find_parent_Some in Hf as [Hp Hid].
      split; [done |]. apply occurrences_pos in Hpos as (c & Hc & Hh).
      exists c. split; [done |]. apply has_parent_id_true in Hh.
      unfold parent_id_of in *. congruence.
    + intros (Hp & c & Hc & Hcp). destruct (Hall p Hp) as (pid & Hid & Hne).
      exists pid. split_and!; [done | |].
      * apply occurrences_pos. exists c. split; [done |].
        apply has_parent_id_true. unfold parent_id_of in *. congruence.
      * by apply find_parent_NoDup.
Qed.

(** The chunks of the song without words lead back to it. *)
Lemma chunks_resolve_to_parents_witness :
  Ingest.chunk_documents Samples.serial
    (Samples.module_of [Samples.instrumental_parent]) true
    = Ok (Samples.chunked.1, Samples.chunked.2) /\
  (forall p, p ∈ Ingest.get_parent_documents Samples.chunked.2 Samples.chunked.1 <->
     p ∈ [Samples.instrumental_parent] /\
     exists c, c ∈ Samples.chunked.1 /\ parent_id_of c = parent_id_of p).
Proof.
  assert (H : Ingest.chunk_documents Samples.serial
                (Samples.module_of [Samples.instrumental_parent]) true
              = Ok (Samples.chunked.1, Samples.chunked.2)) by (vm_compute; reflexivity).
  split; [exact H |].
  assert (Hnd : NoDup (parent_id_of <$>
                  Ingest.parent_documents (Samples.module_of [Samples.instrumental_parent]))).
  { csimpl. apply NoDup_singleton. }
  assert (Hall : Forall (fun p => exists pid, parent_id_of p = Some pid /\ pid <> [])
                   (Ingest.parent_documents (Samples.module_of [Samples.instrumental_parent]))).
  { simpl. apply Forall_singleton. exists (u "0f3a"). split; [by vm_compute | by vm_compute]. }
  exact (proj2 (chunks_resolve_to_parents Samples.serial
                  (Samples.module_of [Samples.instrumental_parent]) true
                  Samples.chunked.1 Samples.chunked.2 H Hnd Hall)).
Defined.

(** ** Statistics *)

Lemma tally_sum (counts : odict nat) (k : str) :
  sum_list ((Ingest.tally counts k).*2) = S (sum_list (counts.*2)).
Proof.
  unfold Ingest.tally. induction counts as [|[k' v] counts IH]; csimpl; [done |].
  destruct (decide (k' = k)) as [-> | Hne]; csimpl; [lia |].
  destruct (od_get counts k) as [n|] eqn:E; simpl in *; rewrite IH; lia.
Qed.

Lemma tally_get (counts : odict nat) (k v : str) :
  default 0 (od_get (Ingest.tally counts k) v)
  = default 0 (od_get counts v) + (if bool_decide (k = v) then 1 else 0).
Proof.
  unfold Ingest.tally. rewrite od_get_set.
  destruct (decide (k = v)) as [-> | Hne].
  - rewrite bool_decide_eq_true_2 by done. simpl. lia.
  - rewrite bool_decide_eq_false_2 by done. lia.
Qed.

Lemma tally_keys (counts : odict nat) (k v : str) :
  v ∈ od_keys (Ingest.tally counts k) <-> v ∈ od_keys counts \/ v = k.
Proof.
  unfold Ingest.tally. rewrite od_keys_set.
  destruct (decide (k ∈ od_keys counts)) as [Hin | Hnin].
  - split; [by left | intros [? | ->]; done].
  - rewrite elem_of_app, list_elem_of_singleton. done.
Qed.

Lemma tally_NoDup (counts : odict nat) (k : str) :
  NoDup (od_keys counts) -> NoDup (od_keys (Ingest.tally counts k)).
Proof.
  intros Hnd. unfold Ingest.tally. rewrite od_keys_set.
  destruct (decide (k ∈ od_keys counts)) as [Hin | Hnin]; [done |].
  apply NoDup_app. split_and!; [done | | apply NoDup_singleton].
  intros x Hx Hk. apply list_elem_of_singleton in Hk as ->. done.
Qed.

(** The tally of one field over a list of documents, from any start. *)
Lemma tally_fold (key : string) (l : list Document) (acc : odict nat) :
  let out := fold_left (fun c d => Ingest.tally c (field_or_unknown key d)) l acc in
  (NoDup (od_keys acc) -> NoDup (od_keys out)) /\
  (forall v, v ∈ od_keys out <->
     v ∈ od_keys acc \/ exists d, d ∈ l /\ field_or_unknown key d = v) /\
  (forall v, default 0 (od_get out v) =
     default 0 (od_get acc v) +
     length (List.filter (fun d => bool_decide (field_or_unknown key d = v)) l)) /\
  sum_list (out.*2) = sum_list (acc.*2) + length l.
Proof.
  revert acc. induction l as [|d l IH]; intros acc; simpl.
  - split_and!; [done | | intros; lia | lia].
    intros v. split; [by left |]. intros [? | (d & Hd & _)]; [done |].
    by apply elem_of_nil in Hd.
  - destruct (IH (Ingest.tally acc (field_or_unknown key d))) as (I1 & I2 & I3 & I4).
    split_and!.
    + intros Hnd. by apply I1, tally_NoDup.
    + intros v. rewrite I2, tally_keys. split.
      * intros [[? | ->] | (d' & Hd' & Hv)].
        -- by left.
        -- right. exists d. split; [left | done].
        -- right. exists d'. split; [by right | done].
      * intros [? | (d' & Hd' & Hv)]; [by left; left |].
        apply elem_of_cons in Hd' as [-> | Hd']; [by left; right |].
        right. by exists d'.
    + intros v. rewrite I3, tally_get.
      destruct (bool_decide (field_or_unknown key d = v)); simpl; lia.
    + rewrite I4, tally_sum. lia.
Qed.

Lemma tally_fold_tallied (key : string) (parents : list Document) :
  tallied parents key
    (fold_left (fun c d => Ingest.tally c (field_or_unknown key d)) parents []).
Proof.
  destruct (tally_fold key parents []) as (I1 & I2 & I3 & I4). split.
  - apply I1. constructor.
  - intros v. rewrite I2. split; [| by right].
    intros [H | H]; [by apply elem_of_nil in H | done].
  - intros v. by rewrite I3.
  - by rewrite I4.
Qed.

(** The four counters advance side by side. *)
Lemma count_fields_split (parents : list Document) (a r y b : odict nat) :
  fold_left
    (fun '(artists_count, regions_count, years_count, albums_count) d =>
       let md := metadata d in
       (Ingest.tally artists_count (Ingest.get_default md "artist" (u "未知")),
        Ingest.tally regions_count (Ingest.get_default md "region" (u "未知")),
        Ingest.tally years_count (Ingest.get_default md "year" (u "未知")),
        Ingest.tally albums_count (Ingest.get_default md "album" (u "未知"))))
    parents (a, r, y, b)
  = (fold_left (fun c d => Ingest.tally c (field_or_unknown "artist" d)) parents a,
     fold_left (fun c d => Ingest.tally c (field_or_unknown "region" d)) parents r,
     fold_left (fun c d => Ingest.tally c (field_or_unknown "year" d)) parents y,
     fold_left (fun c d => Ingest.tally c (field_or_unknown "album" d)) parents b).
Proof.
  revert a r y b. induction parents as [|d l IH]; intros a r y b; [done |].
  cbn [fold_left]. cbv zeta. by rewrite IH.
Qed.

Lemma filter_by_field (self : Ingest.DataPreparationModule) (key : string) (v : str) :
  v <> u "未知" ->
  Ingest.filter_by self key (Some v)
  = List.filter (fun d => bool_decide (field_or_unknown key d = v)) (Ingest.parent_documents self).
Proof.
  intros Hv. unfold Ingest.filter_by. apply List.filter_ext. intros d.
  unfold field_or_unknown, Ingest.get_default.
  destruct (metadata d !! key) as [w|]; simpl.
  - apply bool_decide_ext. split; congruence.
  - symmetry. apply bool_decide_eq_false_2. congruence.
Qed.

(** X12. When the statistics can be computed.  [get_statistics] raises
    [ZeroDivisionError] exactly when parents are loaded and there is no
    chunk.  Otherwise it reports the number of parents and of chunks; the
    average chunk size is zero when no parent is loaded, even if there are
    chunks, and else the total length of the chunks divided by their
    number. *)
Theorem get_statistics_outcome (self : Ingest.DataPreparationModule) :
  (Ingest.get_statistics self = Ingest.ZeroDivisionError <->
     Ingest.parent_documents self <> [] /\ Ingest.chunks self = []) /\
  (forall s, Ingest.get_statistics self = Ingest.Statistics s ->
     Ingest.total_parents s = length (Ingest.parent_documents self) /\
     Ingest.total_chunks s = length (Ingest.chunks self) /\
     (Ingest.parent_documents self = [] -> Ingest.avg_chunk_size_chars s = 0%Q) /\
     (Ingest.parent_documents self <> [] ->
      Ingest.chunks self <> [] /\
      (Ingest.avg_chunk_size_chars s * inject_Z (Z.of_nat (length (Ingest.chunks self)))
       == inject_Z (Z.of_nat (Ingest.total_chunk_chars (Ingest.chunks self))))%Q)).
Proof.
  unfold Ingest.get_statistics.
  destruct (Ingest.count_fields (Ingest.parent_documents self)) as [[[a r] y] b].
  destruct (Ingest.parent_documents self) as [|p ps]; simpl length.
  - split; [split; [done | by intros [? _]] |].
    intros s [= <-]. simpl. split_and!; done.
  - destruct (Ingest.chunks self) as [|c cs] eqn:Ec; simpl length.
    + split; [done |]. intros s H. discriminate H.
    + split; [split; [done | by intros [_ ?]] |].
      intros s [= <-]. cbn [Ingest.total_parents Ingest.total_chunks Ingest.avg_chunk_size_chars].
      split_and!; [done | done | done |]. intros _. split; [done |].
      rewrite Qmult_comm. apply Qmult_div_r. unfold inject_Z, Qeq. simpl. lia.
Qed.

(** X13. What the statistics count.  In the statistics of a module, each of
    the four counters is the tally of its field over the parents, a missing
    field counting as [未知]: distinct keys, one for each value the field
    takes, each with the number of parents that have it, the counts adding
    up to the number of parents.  For a value other than [未知] the
    count is the number of documents that the filter on that field returns. *)
Theorem get_statistics_counts (self : Ingest.DataPreparationModule) (s : Ingest.statistics) :
  Ingest.get_statistics self = Ingest.Statistics s ->
  tallied (Ingest.parent_documents self) "artist" (Ingest.artists_count s) /\
  tallied (Ingest.parent_documents self) "region" (Ingest.regions_count s) /\
  tallied (Ingest.parent_documents self) "year" (Ingest.years_count s) /\
  tallied (Ingest.parent_documents self) "album" (Ingest.albums_count s) /\
  (forall v, v <> u "未知" ->
     default 0 (od_get (Ingest.artists_count s) v)
       = length (Ingest.filter_documents_by_artist self v) /\
     default 0 (od_get (Ingest.regions_count s) v)
       = length (Ingest.filter_documents_by_region self v) /\
     default 0 (od_get (Ingest.albums_count s) v)
       = length (Ingest.filter_documents_by_album self v)).
Proof.
  unfold Ingest.get_statistics, Ingest.count_fields. rewrite count_fields_split.
  pose proof (tally_fold_tallied "artist" (Ingest.parent_documents self)) as Ha.
  pose proof (tally_fold_tallied "region" (Ingest.parent_documents self)) as Hr.
  pose proof (tally_fold_tallied "year" (Ingest.parent_documents self)) as Hy.
  pose proof (tally_fold_tallied "album" (Ingest.parent_documents self)) as Hb.
  intros Hs.
  assert (Hproj : Ingest.artists_count s
                  = fold_left (fun c d => Ingest.tally c (field_or_unknown "artist" d))
                      (Ingest.parent_documents self) [] /\
                  Ingest.regions_count s
                  = fold_left (fun c d => Ingest.tally c (field_or_unknown "region" d))
                      (Ingest.parent_documents self) [] /\
                  Ingest.years_count s
                  = fold_left (fun c d => Ingest.tally c (field_or_unknown "year" d))
                      (Ingest.parent_documents self) [] /\
                  Ingest.albums_count s
                  = fold_left (fun c d => Ingest.tally c (field_or_unknown "album" d))
                      (Ingest.parent_documents self) []).
  { destruct (length (Ingest.parent_documents self)); [by injection Hs as <- |].
    destruct (length (Ingest.chunks self)); [done | by injection Hs as <-]. }
  destruct Hproj as (-> & -> & -> & ->).
  split_and!; [done | done | done | done |].
  intros v Hv.
  unfold Ingest.filter_documents_by_artist, Ingest.filter_documents_by_region,
    Ingest.filter_documents_by_album.
  rewrite !filter_by_field by done.
  split_and!; [apply Ha | apply Hr | apply Hb].
Qed.

(** The statistics of the module that holds the chunks of the song without
    words. *)
Lemma get_statistics_counts_witness :
  Ingest.get_statistics Samples.chunked.2
    = Ingest.Statistics (Samples.statistics_of Samples.chunked.2) /\
  tallied (Ingest.parent_documents Samples.chunked.2) "artist"
    (Ingest.artists_count (Samples.statistics_of Samples.chunked.2)).
Proof.
  assert (H : Ingest.get_statistics Samples.chunked.2
              = Ingest.Statistics (Samples.statistics_of Samples.chunked.2))
    by (vm_compute; reflexivity).
  split; [exact H |].
  exact (proj1 (get_statistics_counts Samples.chunked.2
                  (Samples.statistics_of Samples.chunked.2) H)).
Defined.

(** ** Index records *)

Lemma index_items_fields fresh cs drawn :
  Ingest.item_text <$> Ingest.index_items fresh cs drawn = page_content <$> cs /\
  Ingest.item_metadata <$> Ingest.index_items fresh cs drawn = metadata <$> cs /\
  Ingest.item_chunk_index <$> Ingest.index_items fresh cs drawn = chunk_index <$> cs.
Proof.
  revert drawn. induction cs as [|c cs IH]; intros drawn; [done |].
  simpl. destruct (metadata c !! "chunk_id") as [cid|]; [destruct (truthy cid) |]; csimpl.
  - by destruct (IH drawn) as (-> & -> & ->).
  - by destruct (IH (S drawn)) as (-> & -> & ->).
  - by destruct (IH (S drawn)) as (-> & -> & ->).
Qed.

(** The chunks that carry an identifier keep it; the others receive the
    identifiers drawn, in their order. *)
Lemma index_items_ids fresh cs drawn :
  Forall2 (fun c it => forall cid, chunk_id_of c = Some cid -> cid <> [] ->
                         Ingest.item_id it = cid)
    cs (Ingest.index_items fresh cs drawn) /\
  (Ingest.item_id ∘ snd) <$>
    List.filter (fun ci => negb (truthy (default [] (chunk_id_of ci.1))))
      (zip cs (Ingest.index_items fresh cs drawn))
  = fresh <$> seq drawn
      (length (List.filter (fun c => negb (truthy (default [] (chunk_id_of c)))) cs)).
Proof.
  unfold chunk_id_of.
  revert drawn. induction cs as [|c cs IH]; intros drawn; [by split; [constructor |] |].
  simpl.
  destruct (metadata c !! "chunk_id") as [cid|] eqn:E; [destruct cid as [|ch cid] |];
    simpl; rewrite ?E; simpl.
  - destruct (IH (S drawn)) as [I1 I2]. split.
    + constructor; [| done]. intros cid H. by simplify_eq.
    + csimpl. f_equal. exact I2.
  - destruct (IH drawn) as [I1 I2]. split.
    + constructor; [| done]. intros cid' H. by simplify_eq.
    + done.
  - destruct (IH (S drawn)) as [I1 I2]. split.
    + constructor; [| done]. intros cid H. by simplify_eq.
    + csimpl. f_equal. exact I2.
Qed.

(** X14. The index records.  [create_index_items] raises [ValueError]
    exactly when the module holds no chunk, and raises nothing else.
    Otherwise it returns one record for each chunk, in the order of the
    chunks, with the text, the metadata and the index of the chunk; a chunk
    with a [chunk_id] that is not empty gives its record that identifier,
    and the chunks without one receive fresh identifiers in the order in
    which they stand. *)
Theorem create_index_items_records (fresh : nat -> str) (self : Ingest.DataPreparationModule) :
  (forall e, Ingest.create_index_items fresh self = Raise e <->
     e = ValueError /\ Ingest.chunks self = []) /\
  (forall items, Ingest.create_index_items fresh self = Ok items ->
     Ingest.item_text <$> items = page_content <$> Ingest.chunks self /\
     Ingest.item_metadata <$> items = metadata <$> Ingest.chunks self /\
     Ingest.item_chunk_index <$> items = chunk_index <$> Ingest.chunks self /\
     Forall2 (fun c it => forall cid, chunk_id_of c = Some cid -> cid <> [] ->
                            Ingest.item_id it = cid)
       (Ingest.chunks self) items /\
     (Ingest.item_id ∘ snd) <$>
       List.filter (fun ci => negb (truthy (default [] (chunk_id_of ci.1))))
         (zip (Ingest.chunks self) items)
     = fresh <$> seq 0
         (length (List.filter (fun c => negb (truthy (default [] (chunk_id_of c))))
                    (Ingest.chunks self)))).
Proof.
  unfold Ingest.create_index_items.
  destruct (Ingest.chunks self) as [|c cs] eqn:Ec.
  - split; [| done]. intros e. split; [by intros [= <-] | by intros [-> _]].
  - split; [intros e; split; [done | by intros [_ ?]] |].
    intros items [= <-].
    destruct (index_items_fields fresh (c :: cs) 0) as (H1 & H2 & H3).
    destruct (index_items_ids fresh (c :: cs) 0) as (H4 & H5).
    by split_and!.
Qed.

Lemma index_items_keep fresh cs drawn :
  Forall (fun c => exists cid, chunk_id_of c = Some cid /\ cid <> []) cs ->
  Ingest.item_id <$> Ingest.index_items fresh cs drawn
  = (fun c => default [] (chunk_id_of c)) <$> cs.
Proof.
  induction 1 as [|c cs (cid & Hid & Hne) _ IH]; [done |].
  unfold chunk_id_of in *. simpl. rewrite Hid.
  destruct cid as [|ch cid]; [done |]. csimpl. f_equal. exact IH.
Qed.

(** X15. Index records after chunking.  Let the identifiers that chunking
    draws be never empty.  After chunking has ended well with at least one
    chunk, [create_index_items] returns one record for each chunk, and the
    record of the n-th chunk has the n-th identifier that chunking drew: it
    draws none of its own. *)
Theorem create_index_items_after_chunking (uuid4 fresh : nat -> str)
    (self : Ingest.DataPreparationModule) (use_header_split : bool)
    (chunks : list Document) (self' : Ingest.DataPreparationModule) :
  (forall n, uuid4 n <> []) ->
  Ingest.chunk_documents uuid4 self use_header_split = Ok (chunks, self') ->
  chunks <> [] ->
  exists items,
    Ingest.create_index_items fresh self' = Ok items /\
    Ingest.item_id <$> items = uuid4 <$> seq 0 (length chunks) /\
    Ingest.item_text <$> items = page_content <$> chunks.
Proof.
  intros Hne Hrun Hchunks.
  unfold Ingest.chunk_documents in Hrun.
  destruct (Ingest.parent_documents self) as [|p ps] eqn:Ep; [done |].
  destruct (Ingest.chunk_parents uuid4 self use_header_split (p :: ps) []
              (Ingest.parent_child_map self)) as [[out pcm'] | e] eqn:Erun; simpl in Hrun; [| done].
  injection Hrun as <- <-.
  apply chunk_parents_run in Erun as (blockss & new & _ & -> & _ & Hids & _).
  simpl in *. unfold Ingest.create_index_items. simpl.
  destruct new as [|c cs] eqn:En; [done |]. rewrite <- En in *.
  exists (Ingest.index_items fresh new 0). split_and!; [done | | apply index_items_fields].
  rewrite index_items_keep.
  - rewrite (list_fmap_compose chunk_id_of (default [])), Hids, <- list_fmap_compose.
    by apply list_fmap_ext.
  - apply Forall_forall. intros c' Hc'.
    apply (list_elem_of_fmap_2 chunk_id_of) in Hc'. rewrite Hids in Hc'.
    apply list_elem_of_fmap in Hc' as (i & -> & _). by eexists.
Qed.

(** The index records of the chunks of the song without words. *)
Lemma create_index_items_after_chunking_witness :
  (forall n, Samples.serial n <> []) /\
  Ingest.chunk_documents Samples.serial
    (Samples.module_of [Samples.instrumental_parent]) true
    = Ok (Samples.chunked.1, Samples.chunked.2) /\
  Samples.chunked.1 <> [] /\
  exists items,
    Ingest.create_index_items Samples.uuid4 Samples.chunked.2 = Ok items /\
    Ingest.item_id <$> items = Samples.serial <$> seq 0 (length Samples.chunked.1) /\
    Ingest.item_text <$> items = page_content <$> Samples.chunked.1.
Proof.
  assert (Hne : forall n, Samples.serial n <> []) by done.
  assert (H : Ingest.chunk_documents Samples.serial
                (Samples.module_of [Samples.instrumental_parent]) true
              = Ok (Samples.chunked.1, Samples.chunked.2)) by (vm_compute; reflexivity).
  assert (Hc : Samples.chunked.1 <> []) by (vm_compute; discriminate).
  split; [exact Hne |]. split; [exact H |]. split; [exact Hc |].
  exact (create_index_items_after_chunking Samples.serial Samples.uuid4
           (Samples.module_of [Samples.instrumental_parent]) true
           Samples.chunked.1 Samples.chunked.2 Hne H Hc).
Defined.

(** ** Keyword filter *)

Lemma str_in_empty (hay : str) : str_in [] hay = true.
Proof. apply str_in_spec. by exists [], hay. Qed.

Lemma filter_all {A} (f : A -> bool) (l : list A) :
  (forall x, f x = true) -> List.filter f l = l.
Proof. intros H. induction l as [|x l IH]; simpl; [done |]. by rewrite H, IH. Qed.

(** X16. The keyword filter.  [filter_chunks_by_keyword] returns, in the
    order of the chunks, exactly the chunks whose text contains the keyword
    as a run of consecutive characters; with the empty keyword it returns
    every chunk; and a chunk with an empty text is returned for the empty
    keyword only. *)
Theorem filter_chunks_by_keyword_contains (self : Ingest.DataPreparationModule)
    (keyword : str) :
  Ingest.filter_chunks_by_keyword self keyword `sublist_of` Ingest.chunks self /\
  (forall c, c ∈ Ingest.filter_chunks_by_keyword self keyword <->
     c ∈ Ingest.chunks self /\ exists pre post, page_content c = pre ++ keyword ++ post) /\
  Ingest.filter_chunks_by_keyword self [] = Ingest.chunks self /\
  (forall c, c ∈ Ingest.filter_chunks_by_keyword self keyword ->
     page_content c = [] -> keyword = []).
Proof.
  unfold Ingest.filter_chunks_by_keyword.
  assert (Hiff : forall c, c ∈ List.filter (fun c => str_in keyword (page_content c))
                                 (Ingest.chunks self) <->
            c ∈ Ingest.chunks self /\ exists pre post, page_content c = pre ++ keyword ++ post).
  { intros c. rewrite list_elem_of_In, List.filter_In, <- list_elem_of_In.
    by rewrite str_in_spec. }
  split_and!.
  - clear Hiff. induction (Ingest.chunks self) as [|c cs IH]; simpl; [done |].
    destruct (str_in keyword (page_content c)); [by apply sublist_skip | by apply sublist_cons].
  - done.
  - apply filter_all. intros c. apply str_in_empty.
  - intros c Hc Hempty. apply Hiff in Hc as (_ & pre & post & Heq).
    rewrite Hempty in Heq. symmetry in Heq.
    apply app_eq_nil in Heq as [_ Heq]. by apply app_eq_nil in Heq as [? _].
Qed.

(** ** The trace of a question *)

Lemma rewrites_app h1 h2 : Cli.rewrites (h1 ++ h2) = Cli.rewrites h1 ++ Cli.rewrites h2.
Proof. apply omap_app. Qed.

Lemma rewritten_outputs_app h1 h2 :
  Cli.rewritten_outputs (h1 ++ h2) = Cli.rewritten_outputs h1 ++ Cli.rewritten_outputs h2.
Proof. apply omap_app. Qed.

Lemma filter_sets_app h1 h2 :
  Cli.filter_sets (h1 ++ h2) = Cli.filter_sets h1 ++ Cli.filter_sets h2.
Proof. apply omap_app. Qed.

Lemma inferred_filters_app parents qs1 qs2 :
  inferred_filters parents (qs1 ++ qs2)
  = inferred_filters parents qs1 ++ inferred_filters parents qs2.
Proof. unfold inferred_filters. by rewrite fmap_app, List.filter_app. Qed.

Lemma traced_nil parents rewrote : traced parents rewrote [] [].
Proof. split; try done; by destruct rewrote. Qed.

Lemma traced_app parents rewrote qs1 qs2 new1 new2 :
  traced parents rewrote qs1 new1 -> traced parents rewrote qs2 new2 ->
  traced parents rewrote (qs1 ++ qs2) (new1 ++ new2).
Proof.
  intros [A1 A2 A3 A4 A5 A6] [B1 B2 B3 B4 B5 B6]. split.
  - rewrite rewrites_app, A1, B1. by destruct rewrote.
  - rewrite rewritten_outputs_app, retrieval_queries_app, A2, B2. by destruct rewrote.
  - intros H. by rewrite retrieval_queries_app, A3, B3.
  - by rewrite filter_sets_app, inferred_filters_app, A4, B4.
  - rewrite retrieval_queries_app, !length_app. lia.
  - by rewrite generator_calls_app, A6, B6.
Qed.

(** One retrieval: a hybrid search when no filter is inferred from the
    sub-query, else a filtered search with the filters inferred. *)
Lemma retrieve_trace self retrieval subquery rewritten budget h :
  exists e chunks,
    Cli.retrieve self retrieval subquery rewritten budget h = (chunks, h ++ [e]) /\
    Cli.retrieval_queries [e] = [rewritten] /\
    Cli.rewrites [e] = [] /\ Cli.rewritten_outputs [e] = [] /\
    Cli.generator_calls [e] = [] /\
    Cli.filter_sets [e]
    = inferred_filters (Ingest.parent_documents (Cli.data_module self)) [subquery].
Proof.
  unfold Cli.retrieve, inferred_filters. csimpl.
  destruct (decide _) as [E | E]; rewrite call_run.
  - exists (Cli.EvHybrid rewritten budget (Cli.hybrid_search retrieval h rewritten budget)).
    eexists. split_and!; [reflexivity | done | done | done | done |].
    rewrite E. by rewrite bool_decide_eq_false_2 by (by intros H; apply H).
  - exists (Cli.EvFiltered rewritten
              (Cli._extract_filters_from_query
                 (Ingest.parent_documents (Cli.data_module self)) subquery)
              budget
              (Cli.metadata_filtered_search retrieval h rewritten
                 (Cli._extract_filters_from_query
                    (Ingest.parent_documents (Cli.data_module self)) subquery)
                 budget)).
    eexists. split_and!; [reflexivity | done | done | done | done |].
    by rewrite bool_decide_eq_true_2.
Qed.

Lemma compare_loop_trace self retrieval subqueries acc h :
  exists new out,
    Cli.for_each subqueries (Cli.compare_step self retrieval) acc h = (out, h ++ new) /\
    traced (Ingest.parent_documents (Cli.data_module self)) false subqueries new.
Proof.
  revert acc h. induction subqueries as [|q qs IH]; intros acc h; simpl.
  - exists [], acc. rewrite app_nil_r. split; [done | apply traced_nil].
  - rewrite bind_run. unfold Cli.compare_step at 1. rewrite bind_run.
    destruct (retrieve_trace self retrieval q q (Config.top_cmp_k (Cli.config self)) h)
      as (e & chunks & -> & T1 & T2 & T3 & T4 & T5).
    cbn [mret Cli.M_ret].
    destruct (IH (acc ++ [chunks]) (h ++ [e])) as (new & out & -> & Ht).
    exists ([e] ++ new), out. split; [by rewrite <- app_assoc |].
    change (q :: qs) with ([q] ++ qs). apply traced_app; [| done].
    split; [done | done | done | done | by rewrite T1 | done].
Qed.

Lemma pool_loop_trace self retrieval generation route_type subqueries acc h :
  exists new out,
    Cli.for_each subqueries (Cli.pool_step self retrieval generation route_type) acc h
      = (out, h ++ new) /\
    traced (Ingest.parent_documents (Cli.data_module self))
      (bool_decide (route_type <> u "list")) subqueries new.
Proof.
  revert acc h. induction subqueries as [|q qs IH]; intros acc h; simpl.
  - exists [], acc. rewrite app_nil_r. split; [done | apply traced_nil].
  - rewrite bind_run. unfold Cli.pool_step at 1. rewrite bind_run.
    destruct (decide (route_type = u "list")) as [El | El].
    + cbn [mret Cli.M_ret]. rewrite bind_run.
      destruct (retrieve_trace self retrieval q q (Config.top_k (Cli.config self)) h)
        as (e & chunks & -> & T1 & T2 & T3 & T4 & T5).
      cbn [mret Cli.M_ret].
      destruct (IH (acc ++ chunks) (h ++ [e])) as (new & out & -> & Ht).
      exists ([e] ++ new), out. split; [by rewrite <- app_assoc |].
      change (q :: qs) with ([q] ++ qs). apply traced_app; [| done].
      rewrite bool_decide_eq_false_2 by (by intros H; apply H).
      split; [done | done | done | done | by rewrite T1 | done].
    + rewrite call_run, bind_run.
      set (rq := Cli.query_rewritten generation h q).
      destruct (retrieve_trace self retrieval q rq (Config.top_k (Cli.config self))
                  (h ++ [Cli.EvRewritten q rq])) as (e & chunks & -> & T1 & T2 & T3 & T4 & T5).
      cbn [mret Cli.M_ret].
      destruct (IH (acc ++ chunks)
                  ((h ++ [Cli.EvRewritten q rq]) ++ [e])) as (new & out & -> & Ht).
      exists ([Cli.EvRewritten q rq] ++ [e] ++ new), out.
      split; [by rewrite <- !app_assoc |].
      change (q :: qs) with ([q] ++ qs). rewrite app_assoc. apply traced_app; [| done].
      rewrite bool_decide_eq_true_2 by done.
      split.
      * rewrite rewrites_app, T2. done.
      * rewrite rewritten_outputs_app, retrieval_queries_app, T3, T1. done.
      * done.
      * rewrite filter_sets_app, T5. done.
      * rewrite retrieval_queries_app, T1. done.
      * rewrite generator_calls_app, T4. done.
Qed.

(** The history of a question that is not answered directly: the router,
    the rewriter unless a list is asked for, the split into sub-queries,
    the loop over them, and at most one answer generator at the end. *)
Lemma ask_question_shape (self : Cli.LyricMindRAGSystem) (retrieval : Cli.RetrievalModule)
    (generation : Cli.GenerationModule) (question : str) (stream : bool) (h : Cli.history) :
  Cli.retrieval_module self = Some retrieval ->
  Cli.generation_module self = Some generation ->
  let route := Cli.query_router generation h question in
  route <> u "direct" ->
  exists pre rq subs loop tail a,
    Cli.ask_question self question stream h
      = (Ok a, h ++ [Cli.EvRouter question route] ++ pre ++ [Cli.EvSubqueries rq subs]
                 ++ loop ++ tail) /\
    (route = u "list" -> pre = [] /\ rq = question) /\
    (route <> u "list" -> pre = [Cli.EvRewritten question rq]) /\
    traced (Ingest.parent_documents (Cli.data_module self))
      (bool_decide (route <> u "list" /\ route <> u "compare")) subs loop /\
    (tail = [] \/ exists g out, tail = [Cli.EvGenerate g out]).
Proof.
  intros Hret Hgen route Hd.
  unfold Cli.ask_question. rewrite Hret, Hgen.
  rewrite bind_run, call_run. fold route.
  set (h1 := h ++ [Cli.EvRouter question route]).
  rewrite decide_False by done.
  rewrite bind_run.
  set (m := if decide (route = u "list") then mret question
            else Cli.call (fun h => Cli.query_rewritten generation h question)
                   (Cli.EvRewritten question)).
  assert (Hm : exists rq pre, m h1 = (rq, h1 ++ pre) /\
            (route = u "list" -> pre = [] /\ rq = question) /\
            (route <> u "list" -> pre = [Cli.EvRewritten question rq])).
  { subst m. destruct (decide (route = u "list")) as [El | El].
    - exists question, []. by rewrite app_nil_r.
    - eexists _, [_]. rewrite call_run. done. }
  destruct Hm as (rq & pre & -> & Hl & Hnl).
  set (h2 := h1 ++ pre).
  destruct (decide (route = u "compare")) as [Ec | Ec].
  - rewrite bind_run, call_run.
    set (subs := Cli.extract_subqueries generation h2 rq).
    set (h3 := h2 ++ [Cli.EvSubqueries rq subs]).
    rewrite bind_run.
    destruct (compare_loop_trace self retrieval subs [] h3) as (loop & out & -> & Ht).
    assert (Hshape : forall tail,
      (h3 ++ loop) ++ tail
      = h ++ [Cli.EvRouter question route] ++ pre ++ [Cli.EvSubqueries rq subs]
          ++ loop ++ tail).
    { intros tail. subst h3 h2 h1. by rewrite <- !app_assoc. }
    assert (Hb : bool_decide (route <> u "list" /\ route <> u "compare") = false).
    { apply bool_decide_eq_false_2. by intros [_ ?]. }
    rewrite Hb.
    destruct stream; unfold Cli.generate; rewrite bind_run, call_run;
      cbn [mret Cli.M_ret]; rewrite Hshape;
      eexists pre, rq, subs, loop, [_], _;
      (split_and!; [reflexivity | done | done | done | right; by eexists _, _]).
  - rewrite bind_run, call_run.
    set (subs := Cli.extract_subqueries generation h2 rq).
    set (h3 := h2 ++ [Cli.EvSubqueries rq subs]).
    rewrite bind_run.
    destruct (pool_loop_trace self retrieval generation route subs [] h3)
      as (loop & out & -> & Ht).
    assert (Hshape : forall tail,
      (h3 ++ loop) ++ tail
      = h ++ [Cli.EvRouter question route] ++ pre ++ [Cli.EvSubqueries rq subs]
          ++ loop ++ tail).
    { intros tail. subst h3 h2 h1. by rewrite <- !app_assoc. }
    assert (Hb : bool_decide (route <> u "list" /\ route <> u "compare")
                 = bool_decide (route <> u "list")).
    { apply bool_decide_ext. split; [by intros [? _] | done]. }
    rewrite Hb.
    destruct out as [|c out'].
    { cbn [mret Cli.M_ret]. rewrite <- (app_nil_r (h3 ++ loop)), Hshape.
      eexists pre, rq, subs, loop, [], _.
      split_and!; [reflexivity | done | done | done | by left]. }
    destruct (decide (route = u "list")) as [El | El]; [| destruct stream];
      unfold Cli.generate; rewrite bind_run, call_run;
      cbn [mret Cli.M_ret]; rewrite Hshape;
      eexists pre, rq, subs, loop, [_], _;
      (split_and!; [reflexivity | done | done | done | right; by eexists _, _]).
Qed.


(** X18. What a question asks of the rewriter and of the filter
    inference.  Let a question take a route other than [direct], and let
    the split return the sub-queries [subqueries].  On the route [list] the
    rewriter is never called and the question is split as it stands.  On
    the route [compare] the rewriter is called once, on the question, and
    the searches are made with the sub-queries themselves.  On every other
    route the rewriter is called on the question and then on each
    sub-query, and the searches are made with what it returned for the
    sub-queries.  On every route there is one search per sub-query, and the
    filtered searches carry, in order, the filter sets inferred from the
    sub-queries as they were before rewriting, those that are not empty. *)
Theorem ask_question_trace (self : Cli.LyricMindRAGSystem) (retrieval : Cli.RetrievalModule)
    (generation : Cli.GenerationModule) (question : str) (stream : bool) (h : Cli.history) :
  Cli.retrieval_module self = Some retrieval ->
  Cli.generation_module self = Some generation ->
  let route := Cli.query_router generation h question in
  route <> u "direct" ->
  exists new ans rewritten_query subqueries,
    Cli.ask_question self question stream h = (ans, h ++ new) /\
    Cli.EvSubqueries rewritten_query subqueries ∈ new /\
    Cli.filter_sets new
      = inferred_filters (Ingest.parent_documents (Cli.data_module self)) subqueries /\
    length (Cli.retrieval_queries new) = length subqueries /\
    (route = u "list" ->
       Cli.rewrites new = [] /\ rewritten_query = question /\
       Cli.retrieval_queries new = subqueries) /\
    (route = u "compare" ->
       Cli.rewrites new = [question] /\ Cli.rewritten_outputs new = [rewritten_query] /\
       Cli.retrieval_queries new = subqueries) /\
    (route <> u "list" -> route <> u "compare" ->
       Cli.rewrites new = question :: subqueries /\
       Cli.rewritten_outputs new = rewritten_query :: Cli.retrieval_queries new).
Proof.
  intros Hret Hgen route Hd.
  destruct (ask_question_shape self retrieval generation question stream h Hret Hgen Hd)
    as (pre & rq & subs & loop & tail & a & Hrun & Hl & Hnl & [T1 T2 T3 T4 T5 T6] & Htail).
  fold route in Hrun, Hl, Hnl, T1, T2, T3.
  eexists _, (Ok a), rq, subs. split; [exact Hrun |].
  assert (Q : Cli.retrieval_queries tail = [] /\ Cli.rewrites tail = [] /\
              Cli.rewritten_outputs tail = [] /\ Cli.filter_sets tail = []).
  { by destruct Htail as [-> | (g & out & ->)]. }
  destruct Q as (Q1 & Q2 & Q3 & Q4).
  assert (P : (Cli.retrieval_queries pre = [] /\ Cli.filter_sets pre = []) /\
              (route = u "list" -> Cli.rewrites pre = [] /\ Cli.rewritten_outputs pre = []) /\
              (route <> u "list" ->
               Cli.rewrites pre = [question] /\ Cli.rewritten_outputs pre = [rq])).
  { destruct (decide (route = u "list")) as [El | El].
    - destruct (Hl El) as [-> _]. by split_and!.
    - rewrite (Hnl El). by split_and!. }
  destruct P as ((P1 & P2) & P3 & P4).
  rewrite !retrieval_queries_app, !filter_sets_app, !rewrites_app, !rewritten_outputs_app,
    P1, P2, Q1, Q2, Q3, Q4, T4.
  cbn [Cli.retrieval_queries Cli.filter_sets Cli.rewrites Cli.rewritten_outputs
         omap list_omap app].
  rewrite !app_nil_r.
  split_and!.
  - set_solver.
  - done.
  - done.
  - intros El. destruct (P3 El) as [-> _]. destruct (Hl El) as [_ ->].
    rewrite bool_decide_eq_false_2 in T1, T3 by (intros [? _]; done).
    split_and!; [by rewrite T1 | done | by apply T3].
  - intros Ec.
    assert (El : route <> u "list") by (rewrite Ec; by vm_compute).
    destruct (P4 El) as [-> ->].
    rewrite bool_decide_eq_false_2 in T1, T2, T3 by (intros [_ ?]; done).
    split_and!; [by rewrite T1 | by rewrite T2 | by apply T3].
  - intros El Ec. destruct (P4 El) as [-> ->].
    rewrite bool_decide_eq_true_2 in T1, T2 by done.
    split; [by rewrite T1 | by rewrite T2].
Qed.

(** The trace of a comparison of two artists over the sample corpus. *)
Lemma ask_question_trace_witness :
  let self := Samples.system (Samples.comparing [u "张悬的作品"; u "魏如萱的作品"]) in
  let generation := Samples.comparing [u "张悬的作品"; u "魏如萱的作品"] in
  Cli.retrieval_module self = Some Samples.finds_nothing /\
  Cli.generation_module self = Some generation /\
  Cli.query_router generation [] Samples.comparison <> u "direct" /\
  exists new ans rewritten_query subqueries,
    Cli.ask_question self Samples.comparison false [] = (ans, [] ++ new) /\
    Cli.EvSubqueries rewritten_query subqueries ∈ new /\
    Cli.filter_sets new
      = inferred_filters (Ingest.parent_documents (Cli.data_module self)) subqueries /\
    length (Cli.retrieval_queries new) = length subqueries /\
    (Cli.query_router generation [] Samples.comparison = u "list" ->
       Cli.rewrites new = [] /\ rewritten_query = Samples.comparison /\
       Cli.retrieval_queries new = subqueries) /\
    (Cli.query_router generation [] Samples.comparison = u "compare" ->
       Cli.rewrites new = [Samples.comparison] /\
       Cli.rewritten_outputs new = [rewritten_query] /\
       Cli.retrieval_queries new = subqueries) /\
    (Cli.query_router generation [] Samples.comparison <> u "list" ->
     Cli.query_router generation [] Samples.comparison <> u "compare" ->
       Cli.rewrites new = Samples.comparison :: subqueries /\
       Cli.rewritten_outputs new = rewritten_query :: Cli.retrieval_queries new).
Proof.
  assert (Hd : Cli.query_router (Samples.comparing [u "张悬的作品"; u "魏如萱的作品"]) []
                 Samples.comparison <> u "direct") by (vm_compute; discriminate).
  split; [reflexivity |]. split; [reflexivity |]. split; [exact Hd |].
  exact (ask_question_trace
           (Samples.system (Samples.comparing [u "张悬的作品"; u "魏如萱的作品"]))
           Samples.finds_nothing
           (Samples.comparing [u "张悬的作品"; u "魏如萱的作品"])
           Samples.comparison false [] eq_refl eq_refl Hd).
Defined.

(** ** Which filters are inferred *)

Lemma hit_candidates parents query field v :
  hit parents query field v <->
  v ∈ Cli.longest_first (Cli.field_values field parents) /\
  truthy v && str_in v query = true.
Proof.
  unfold hit. rewrite longest_first_elem_of, field_values_spec, andb_true_iff,
    truthy_spec, str_in_spec. tauto.
Qed.

Lemma find_is_Some {A} (P : A -> bool) (l : list A) :
  is_Some (List.find P l) <-> exists v, v ∈ l /\ P v = true.
Proof.
  induction l as [|a l IH]; simpl.
  - split; [by intros [? ?] | intros (v & Hv & _); by apply elem_of_nil in Hv].
  - destruct (P a) eqn:Ea.
    + split; [| by eexists]. intros _. exists a. split; [left | done].
    + rewrite IH. split; intros (v & Hv & HP).
      * exists v. split; [by right | done].
      * apply elem_of_cons in Hv as [-> | Hv]; [congruence |]. by exists v.
Qed.

Lemma find_first_of {A} (P : A -> bool) (l : list A) (x v : A) :
  List.find P l = Some x -> v ∈ l -> P v = true -> v = x \/ before x v l.
Proof.
  induction l as [|a l IH]; simpl; [done |].
  destruct (P a) eqn:Ea.
  - intros [= <-] Hv _. apply elem_of_cons in Hv as [-> | Hv]; [by left |].
    right. apply before_cons. by left.
  - intros Hf Hv HP. apply elem_of_cons in Hv as [-> | Hv]; [congruence |].
    destruct (IH Hf Hv HP) as [-> | Hb]; [by left |].
    right. apply before_cons. by right.
Qed.

Lemma before_rev {A} (x y : A) (l : list A) : before x y (rev l) -> before y x l.
Proof.
  intros (l1 & l2 & l3 & H). exists (rev l3), (rev l2), (rev l1).
  rewrite <- (rev_involutive l), H.
  rewrite !rev_app_distr. simpl. rewrite !rev_app_distr. simpl.
  by rewrite <- !app_assoc.
Qed.

Lemma extract_filters_no_other parents query field :
  field ∉ filter_fields -> Cli._extract_filters_from_query parents query !! field = None.
Proof.
  unfold filter_fields. intros H. unfold Cli._extract_filters_from_query. cbv zeta.
  rewrite !field_loop_other by set_solver.
  rewrite artist_loop_other by set_solver. done.
Qed.

Lemma extract_filters_candidates parents query field :
  field ∈ filter_fields ->
  exists candidates,
    Cli._extract_filters_from_query parents query !! field = first_hit query candidates /\
    (forall v, v ∈ candidates <-> v ∈ Cli.longest_first (Cli.field_values field parents)) /\
    (field = "artist" -> candidates = Cli.longest_first (Cli.field_values field parents)) /\
    (field <> "artist" ->
     candidates = rev (Cli.longest_first (Cli.field_values field parents))).
Proof.
  intros Hf. destruct (decide (field = "artist")) as [-> | Hne].
  - exists (Cli.longest_first (Cli.field_values "artist" parents)).
    split_and!; [apply extract_filters_artist | done | done | done].
  - exists (rev (Cli.longest_first (Cli.field_values field parents))).
    split_and!; [| | done | done].
    + apply extract_filters_other_field. unfold filter_fields in Hf. set_solver.
    + intros v. by rewrite elem_of_rev_iff.
Qed.

(** X19. Which filters are inferred.  For each of the five fields, the
    filter set inferred for a query has an entry under the field exactly
    when some value that a parent holds under the field is not empty and
    occurs in the query; so it is empty exactly when there is no such value
    for any field.  The artist selected is a hit of greatest length; the
    album, region, year or title selected is a hit of least length. *)
Theorem extract_filters_complete (parent_documents : list Document) (query : str) :
  let filters := Cli._extract_filters_from_query parent_documents query in
  (forall field, field ∈ filter_fields ->
     (is_Some (filters !! field) <-> exists v, hit parent_documents query field v)) /\
  (filters = ∅ <->
     forall field v, field ∈ filter_fields -> ~ hit parent_documents query field v) /\
  (forall a, filters !! "artist" = Some a ->
     hit parent_documents query "artist" a /\
     forall v, hit parent_documents query "artist" v -> length v <= length a) /\
  (forall field x, field ∈ ["album"; "region"; "year"; "title"] ->
     filters !! field = Some x ->
     hit parent_documents query field x /\
     forall v, hit parent_documents query field v -> length x <= length v).
Proof.
  intros filters.
  assert (Hsome : forall field, field ∈ filter_fields ->
            (is_Some (filters !! field) <-> exists v, hit parent_documents query field v)).
  { intros field Hf.
    destruct (extract_filters_candidates parent_documents query field Hf)
      as (cands & Hl & Hc & _).
    subst filters. rewrite Hl. unfold first_hit. rewrite find_is_Some.
    split.
    - intros (v & Hv & HP). exists v. apply hit_candidates. by rewrite <- Hc.
    - intros [v Hv]. exists v. apply hit_candidates in Hv as [Hin HP]. by rewrite Hc. }
  assert (Hext : forall field x, field ∈ filter_fields -> filters !! field = Some x ->
            hit parent_documents query field x /\
            forall v, hit parent_documents query field v ->
              v = x \/
              (field = "artist" /\
               before x v (Cli.longest_first (Cli.field_values field parent_documents))) \/
              (field <> "artist" /\
               before v x (Cli.longest_first (Cli.field_values field parent_documents)))).
  { intros field x Hf Hx.
    destruct (extract_filters_candidates parent_documents query field Hf)
      as (cands & Hl & Hc & Ha & Hna).
    subst filters. rewrite Hl in Hx. unfold first_hit in Hx. split.
    - apply List.find_some in Hx as [Hin HP]. apply hit_candidates.
      split; [| done]. apply Hc. by apply list_elem_of_In.
    - intros v Hv. apply hit_candidates in Hv as [Hin HP].
      destruct (find_first_of _ cands x v Hx (proj2 (Hc v) Hin) HP) as [-> | Hb]; [by left |].
      right. destruct (decide (field = "artist")) as [E | E].
      + left. split; [done |]. by rewrite <- (Ha E).
      + right. split; [done |]. apply before_rev. by rewrite <- (Hna E). }
  split_and!.
  - done.
  - split.
    + intros He field v Hf Hh.
      assert (Hs : is_Some (filters !! field)) by (apply Hsome; [done | by exists v]).
      rewrite He, lookup_empty in Hs. by destruct Hs.
    + intros Hno. apply map_eq. intros field. rewrite lookup_empty.
      destruct (decide (field ∈ filter_fields)) as [Hf | Hf].
      * apply eq_None_not_Some. intros Hs. apply Hsome in Hs as [v Hv]; [| done].
        by apply (Hno field v).
      * by apply extract_filters_no_other.
  - intros a Ha.
    destruct (Hext "artist" a) as [Hh Hmax]; [unfold filter_fields; set_solver | done |].
    split; [done |]. intros v Hv.
    destruct (Hmax v Hv) as [-> | [[_ Hb] | [? _]]]; [done | | done].
    by apply longest_first_descending in Hb.
  - intros field x Hf Hx.
    destruct (Hext field x) as [Hh Hmin]; [unfold filter_fields; set_solver | done |].
    split; [done |]. intros v Hv.
    destruct (Hmin v Hv) as [-> | [[-> _] | [_ Hb]]]; [done | set_solver |].
    by apply longest_first_descending in Hb.
Qed.

(** ** Searching by artist *)

(** X20. Searching by artist.  [search_by_artist] raises [ValueError] and
    calls nothing when there is no retrieval module.  Otherwise it makes one
    call, a filtered search with the one filter [artist], the budget 10
    whatever the configuration says, and the query, or the artist when the
    query is empty; it returns the titles of the documents found, each once,
    in the order in which they are first met. *)
Theorem search_by_artist_searches (self : Cli.LyricMindRAGSystem) (artist query : str)
    (h : Cli.history) :
  (Cli.retrieval_module self = None ->
   Cli.search_by_artist self artist query h = (Raise ValueError, h)) /\
  (forall retrieval, Cli.retrieval_module self = Some retrieval ->
     let search_query := if decide (query = []) then artist else query in
     let filters : gmap string str := {["artist" := artist]} in
     let docs := Cli.metadata_filtered_search retrieval h search_query filters
                   (Config.VInt 10) in
     exists titles,
       Cli.search_by_artist self artist query h
         = (Ok titles, h ++ [Cli.EvFiltered search_query filters (Config.VInt 10) docs]) /\
       NoDup titles /\
       (forall t, t ∈ titles <-> t ∈ song_title <$> docs) /\
       length titles <= length docs /\
       (forall s t, before s t titles ->
          first_earlier (is_title s) (is_title t) (song_title <$> docs))).
Proof.
  unfold Cli.search_by_artist. split.
  - by intros ->.
  - intros retrieval Hret. rewrite Hret.
    assert (Hq : (if truthy query then query else artist)
                 = (if decide (query = []) then artist else query)) by by destruct query.
    rewrite Hq. rewrite bind_run, call_run. cbn [mret Cli.M_ret].
    set (search_query := if decide (query = []) then artist else query).
    set (docs := Cli.metadata_filtered_search retrieval h search_query _ _).
    exists (Generation.collect_song_names docs).
    split_and!.
    + done.
    + apply collect_song_names_NoDup.
    + apply collect_song_names_elem_of.
    + rewrite <- (length_fmap song_title docs). apply submseteq_length.
      apply NoDup_submseteq; [apply collect_song_names_NoDup |].
      intros t. by rewrite collect_song_names_elem_of.
    + apply collect_song_names_order.
Qed.

(** ** Statistics after chunking *)

Lemma blocks_of_empty self use p :
  page_content p = [] -> strip (Ingest.get_default (metadata p) "lyrics" []) = [] ->
  Ingest.blocks_of self use p = Ok [].
Proof.
  intros Ht Hl. unfold Ingest.blocks_of. rewrite Ht, Hl. by destruct use.
Qed.

Lemma chunk_parents_empty uuid4 self use parents acc pcm :
  Forall (fun p => page_content p = [] /\
                   strip (Ingest.get_default (metadata p) "lyrics" []) = []) parents ->
  Ingest.chunk_parents uuid4 self use parents acc pcm = Ok (acc, pcm).
Proof.
  revert acc pcm. induction parents as [|p rest IH]; intros acc pcm Hall; simpl; [done |].
  apply Forall_cons in Hall as [[Ht Hl] Hall].
  rewrite (blocks_of_empty self use p Ht Hl). simpl. rewrite app_nil_r. by apply IH.
Qed.

Lemma get_statistics_no_chunks self :
  Ingest.get_statistics self = Ingest.ZeroDivisionError <->
  Ingest.parent_documents self <> [] /\ Ingest.chunks self = [].
Proof.
  unfold Ingest.get_statistics.
  destruct (Ingest.count_fields (Ingest.parent_documents self)) as [[[a r] y] b].
  destruct (Ingest.parent_documents self) as [|p ps]; simpl length.
  - split; [done | by intros [? _]].
  - destruct (Ingest.chunks self) as [|c cs]; simpl length; [done |].
    split; [done | by intros [_ ?]].
Qed.

Lemma get_statistics_totals self s :
  Ingest.get_statistics self = Ingest.Statistics s ->
  Ingest.total_parents s = length (Ingest.parent_documents self) /\
  Ingest.total_chunks s = length (Ingest.chunks self).
Proof.
  unfold Ingest.get_statistics.
  destruct (Ingest.count_fields (Ingest.parent_documents self)) as [[[a r] y] b].
  destruct (length (Ingest.parent_documents self)); [by intros [= <-] |].
  destruct (length (Ingest.chunks self)); [done | by intros [= <-]].
Qed.

(** X21. The statistics of a knowledge base.  After chunking has ended
    well, [get_statistics] raises [ZeroDivisionError] exactly when no chunk
    was cut, and else reports the parents and the chunks of that run.  No
    chunk is cut, and the statistics cannot be computed, when parents are
    loaded and every one of them has an empty text and no lyrics. *)
Theorem statistics_after_chunking (uuid4 : nat -> str) (self : Ingest.DataPreparationModule)
    (use_header_split : bool) :
  (forall chunks self',
     Ingest.chunk_documents uuid4 self use_header_split = Ok (chunks, self') ->
     (Ingest.get_statistics self' = Ingest.ZeroDivisionError <-> chunks = []) /\
     (chunks <> [] ->
      exists s, Ingest.get_statistics self' = Ingest.Statistics s /\
        Ingest.total_parents s = length (Ingest.parent_documents self) /\
        Ingest.total_chunks s = length chunks)) /\
  (Ingest.parent_documents self <> [] ->
   Forall (fun p => page_content p = [] /\
                    strip (Ingest.get_default (metadata p) "lyrics" []) = [])
     (Ingest.parent_documents self) ->
   exists self',
     Ingest.chunk_documents uuid4 self use_header_split = Ok ([], self') /\
     Ingest.get_statistics self' = Ingest.ZeroDivisionError).
Proof.
  split.
  - intros chunks self' Hrun. unfold Ingest.chunk_documents in Hrun.
    destruct (Ingest.parent_documents self) as [|p ps] eqn:Ep; [done |].
    destruct (Ingest.chunk_parents uuid4 self use_header_split (p :: ps) []
                (Ingest.parent_child_map self)) as [[out pcm'] | e]; simpl in Hrun; [| done].
    injection Hrun as <- <-. split.
    + rewrite get_statistics_no_chunks. simpl. split; [by intros [_ ?] | done].
    + intros Hne.
      destruct (Ingest.get_statistics _) as [s |] eqn:Es.
      * exists s. split; [done |]. by apply get_statistics_totals in Es.
      * apply get_statistics_no_chunks in Es as [_ Hc]. done.
  - intros Hne Hall. unfold Ingest.chunk_documents.
    destruct (Ingest.parent_documents self) as [|p ps] eqn:Ep; [done |].
    rewrite chunk_parents_empty by done. simpl. eexists. split; [reflexivity |].
    by apply get_statistics_no_chunks.
Qed.

(** ** From a dict to a configuration and back *)

Lemma field_names_cases (k : string) :
  k ∈ Config.field_names ->
  k = "data_path" \/ k = "index_save_path" \/ k = "embedding_model" \/ k = "llm_model" \/
  k = "top_k" \/ k = "top_cmp_k" \/ k = "temperature" \/ k = "max_tokens".
Proof. unfold Config.field_names. set_solver. Qed.

Lemma to_dict_dom (c : Config.RAGConfig) :
  dom (Config.to_dict c) = Config.field_names ∖ {["top_cmp_k"]}.
Proof.
  unfold Config.to_dict, Config.field_names.
  rewrite !dom_insert_L, dom_empty_L. apply set_eq. intros k.
  rewrite elem_of_difference, !elem_of_union, !elem_of_singleton, elem_of_empty.
  split.
  - intros H. split; [tauto |]. intros ->.
    destruct H as [H | [H | [H | [H | [H | [H | [H | H]]]]]]]; done.
  - intros [H Hne]. tauto.
Qed.

(** X22. From a dict to a configuration and back.  [from_dict] raises
    [TypeError] exactly when the dict has a key that is no field.  When it
    succeeds, [to_dict] of the configuration has the seven fields other
    than [top_cmp_k] as keys, every entry of the dict other than
    [top_cmp_k] comes back unchanged, and a dict that gives these seven
    fields comes back as it was, less its [top_cmp_k] entry. *)
Theorem to_dict_from_dict (d : gmap string Config.value) :
  (forall e, Config.from_dict d = Raise e <->
     e = TypeError /\ exists k, k ∈ dom d /\ k ∉ Config.field_names) /\
  (forall c, Config.from_dict d = Ok c ->
     dom (Config.to_dict c) = Config.field_names ∖ {["top_cmp_k"]} /\
     (forall k v, d !! k = Some v -> k <> "top_cmp_k" -> Config.to_dict c !! k = Some v) /\
     Config.top_cmp_k c = default (Config.VInt 3) (d !! "top_cmp_k") /\
     (Config.field_names ∖ {["top_cmp_k"]} ⊆ dom d ->
      Config.to_dict c = delete "top_cmp_k" d)).
Proof.
  unfold Config.from_dict.
  destruct (decide (dom d ⊆ Config.field_names)) as [Hsub | Hnot].
  - split.
    + intros e. split; [done |]. intros (_ & k & Hk & Hn). exfalso. by apply Hn, Hsub.
    + intros c [= <-].
      assert (Hback : forall k v, d !! k = Some v -> k <> "top_cmp_k" ->
                Config.to_dict
                  {| Config.data_path :=
                       default (Config.data_path Config.DEFAULT_CONFIG) (d !! "data_path");
                     Config.index_save_path :=
                       default (Config.index_save_path Config.DEFAULT_CONFIG)
                         (d !! "index_save_path");
                     Config.embedding_model :=
                       default (Config.embedding_model Config.DEFAULT_CONFIG)
                         (d !! "embedding_model");
                     Config.llm_model :=
                       default (Config.llm_model Config.DEFAULT_CONFIG) (d !! "llm_model");
                     Config.top_k :=
                       default (Config.top_k Config.DEFAULT_CONFIG) (d !! "top_k");
                     Config.top_cmp_k :=
                       default (Config.top_cmp_k Config.DEFAULT_CONFIG) (d !! "top_cmp_k");
                     Config.temperature :=
                       default (Config.temperature Config.DEFAULT_CONFIG) (d !! "temperature");
                     Config.max_tokens :=
                       default (Config.max_tokens Config.DEFAULT_CONFIG) (d !! "max_tokens")
                  |} !! k = Some v).
      { intros k v Hk Hne.
        assert (Hin : k ∈ Config.field_names) by (apply Hsub, elem_of_dom; by eexists).
        unfold Config.to_dict. cbn [Config.data_path Config.index_save_path
          Config.embedding_model Config.llm_model Config.top_k Config.temperature
          Config.max_tokens].
        destruct (field_names_cases k Hin)
          as [-> | [-> | [-> | [-> | [-> | [-> | [-> | ->]]]]]]]; try done;
          rewrite ?lookup_insert_ne by done; rewrite lookup_insert_eq; by rewrite Hk. }
      split_and!.
      * apply to_dict_dom.
      * done.
      * done.
      * intros Hfull. apply map_eq. intros k.
        destruct (decide (k = "top_cmp_k")) as [-> | Hne].
        -- rewrite lookup_delete_eq. apply not_elem_of_dom. rewrite to_dict_dom. set_solver.
        -- rewrite lookup_delete_ne by done.
           destruct (d !! k) as [v|] eqn:Ek; [by apply Hback |].
           apply not_elem_of_dom. rewrite to_dict_dom. intros Hin.
           apply Hfull in Hin. apply elem_of_dom in Hin as [? ?]. congruence.
  - split; [| done]. intros e. split; [| by intros [-> _]].
    intros [= <-]. split; [done |].
    destruct (decide (dom d ∖ Config.field_names = ∅)) as [He | Hne].
    + exfalso. apply Hnot. intros k Hk.
      destruct (decide (k ∈ Config.field_names)); [done |]. set_solver.
    + apply set_choose_L in Hne as [k Hk]. exists k. set_solver.
Qed.

(** ** Summaries *)

Lemma splitlines_no_break (n : nat) :
  forall (s cur : str), length s <= n ->
    Forall (fun c => is_linebreak c = false) cur ->
    Forall (Forall (fun c => is_linebreak c = false)) (splitlines s cur).
Proof.
  induction n as [|n IH]; intros s cur Hlen Hcur.
  - destruct s; [| simpl in Hlen; lia]. simpl.
    destruct cur; [apply Forall_nil_2 | by apply Forall_singleton].
  - destruct s as [|a s'];
      [simpl; destruct cur; [apply Forall_nil_2 | by apply Forall_singleton] |].
    simpl in Hlen. simpl. destruct (is_linebreak a) eqn:Ea.
    + constructor; [done |].
      destruct s' as [|b s'']; [by constructor |].
      destruct ((a =? 13)%N && (b =? 10)%N).
      * apply IH; [simpl in Hlen; lia | constructor].
      * apply IH; [lia | constructor].
    + apply IH; [lia |]. apply Forall_app. split; [done | by repeat constructor].
Qed.

Lemma join_Forall (P : N -> Prop) (sep : str) (parts : list str) :
  Forall P sep -> Forall (Forall P) parts -> Forall P (join sep parts).
Proof.
  intros Hsep. induction 1 as [|p ps Hp Hps IH]; [constructor |].
  destruct ps as [|q ps]; [done |].
  change (join sep (p :: q :: ps)) with (p ++ sep ++ join sep (q :: ps)).
  by rewrite !Forall_app.
Qed.

Lemma strip_Forall (P : N -> Prop) (s : str) : Forall P s -> Forall P (strip s).
Proof.
  rewrite !Forall_forall. intros H x Hx. by apply H, strip_elem_of.
Qed.

Lemma ellipsis : u "..." = [46; 46; 46]%N.
Proof. reflexivity. Qed.

(** X23. Summaries.  A summary is the text on one line, trimmed: when that
    line has at most [max_len] characters it is the summary; when it is
    longer, the summary is its first [max_len] characters followed by three
    dots, so a summary is never longer than [max_len + 3]; with a negative
    [max_len] the three dots are always there.  A summary holds no
    character that ends a line. *)
Theorem make_summary_one_line (text : str) (max_len : Z) :
  let s := strip (join [32%N] (splitlines text [])) in
  let summary := Ingest._make_summary text max_len in
  ((Z.of_nat (length s) <= max_len)%Z -> summary = s) /\
  ((0 <= max_len < Z.of_nat (length s))%Z ->
     summary = take (Z.to_nat max_len) s ++ u "...") /\
  ((max_len < 0)%Z ->
     summary = take (length s - Z.to_nat (- max_len)) s ++ u "...") /\
  ((0 <= max_len)%Z -> (Z.of_nat (length summary) <= max_len + 3)%Z) /\
  Forall (fun c => is_linebreak c = false) summary.
Proof.
  intros s summary. subst summary. unfold Ingest._make_summary. cbv zeta. fold s.
  unfold prefix.
  assert (Hs : Forall (fun c => is_linebreak c = false) s).
  { subst s. apply strip_Forall, join_Forall; [by repeat constructor |].
    apply (splitlines_no_break (length text)); [lia | constructor]. }
  split_and!.
  - intros Hle. rewrite (proj2 (Z.ltb_ge _ _)) by lia.
    rewrite (proj2 (Z.leb_le _ _)) by lia. rewrite app_nil_r.
    apply take_ge. lia.
  - intros [H0 Hlt]. rewrite (proj2 (Z.ltb_lt _ _)) by lia.
    by rewrite (proj2 (Z.leb_le _ _)) by lia.
  - intros Hneg. rewrite (proj2 (Z.ltb_lt _ _)) by lia.
    by rewrite (proj2 (Z.leb_gt _ _)) by lia.
  - intros H0. rewrite (proj2 (Z.leb_le _ _)) by lia.
    rewrite length_app, length_take.
    destruct (Z.ltb_spec max_len (Z.of_nat (length s))); rewrite ?ellipsis; simpl; lia.
  - apply Forall_app. split.
    + destruct (0 <=? max_len)%Z; by apply Forall_take.
    + destruct (_ <? _)%Z; [rewrite ellipsis; by repeat constructor | constructor].
Qed.

(** ** Cleaning the text of a chunk *)

Lemma no_blank_run_cons (x : str) (l : list str) :
  no_blank_run (x :: l) <-> (x = [] -> l !! 0 <> Some []) /\ no_blank_run l.
Proof.
  unfold no_blank_run. split.
  - intros H. split.
    + intros ->. by apply (H 0).
    + intros i. apply (H (S i)).
  - intros [H0 H] [|i]; simpl.
    + intros [= ->]. by apply H0.
    + apply H.
Qed.

Lemma no_blank_run_nil : no_blank_run [].
Proof. by intros i. Qed.

Lemma no_blank_run_suffix (a m : list str) : no_blank_run (a ++ m) -> no_blank_run m.
Proof.
  induction a as [|x a IH]; [done |]. simpl. intros H.
  apply no_blank_run_cons in H as [_ H]. by apply IH.
Qed.

Lemma no_blank_run_prefix (m b : list str) : no_blank_run (m ++ b) -> no_blank_run m.
Proof.
  intros H i Hi HS. apply (H i).
  - by apply lookup_app_l_Some.
  - by apply lookup_app_l_Some.
Qed.

Lemma no_blank_run_snoc (l : list str) (x : str) :
  no_blank_run l -> (last l = Some [] -> x <> []) -> no_blank_run (l ++ [x]).
Proof.
  induction l as [|y l IH]; intros Hl Hx.
  - apply no_blank_run_cons. split; [done | apply no_blank_run_nil].
  - apply no_blank_run_cons in Hl as [Hy Hl]. simpl. apply no_blank_run_cons. split.
    + intros ->. destruct l as [|z l]; simpl.
      * intros [= ->]. by apply Hx.
      * by apply Hy.
    + apply IH; [done |]. intros Hlast. apply Hx.
      destruct l as [|z l]; [done |]. done.
Qed.

Lemma no_blank_run_middle (l : list str) (ls : list str) :
  no_blank_run (l ++ [] :: ls) -> last l <> Some [].
Proof.
  induction l as [|y l IH]; [done |]. simpl. intros H.
  apply no_blank_run_cons in H as [Hy H].
  destruct l as [|z l].
  - simpl in *. intros [= ->]. by apply Hy.
  - change (last (y :: z :: l)) with (last (z :: l)). by apply IH.
Qed.

Lemma hashes : u "##" = [35; 35]%N.
Proof. reflexivity. Qed.

Lemma clean_line_blank : clean_line [].
Proof. split_and!; [done | by rewrite hashes | apply not_elem_of_nil]. Qed.

(** The loop keeps clean lines clean and never lets two blank lines
    meet. *)
Lemma clean_lines_inv (lines cleaned : list str) :
  Forall (fun l => 10%N ∉ l) lines ->
  Forall clean_line cleaned -> no_blank_run cleaned ->
  Forall clean_line (Ingest.clean_lines lines cleaned) /\
  no_blank_run (Ingest.clean_lines lines cleaned).
Proof.
  revert cleaned. induction lines as [|line rest IH]; intros cleaned Hnl Hc Hr; [done |].
  apply Forall_cons in Hnl as [Hline Hnl]. cbn [Ingest.clean_lines]. cbv zeta.
  destruct (startswith (u "##") (strip line)) eqn:Eh; [by apply IH |].
  destruct (decide (strip line = [])) as [Eb | Eb].
  - destruct (last cleaned) as [[|c t]|] eqn:El; [by apply IH | |].
    + apply IH; [done | |].
      * apply Forall_app. split; [done |]. apply Forall_singleton, clean_line_blank.
      * apply no_blank_run_snoc; [done |]. by rewrite El.
    + apply IH; [done | |].
      * apply Forall_app. split; [done |]. apply Forall_singleton, clean_line_blank.
      * apply no_blank_run_snoc; [done |]. by rewrite El.
  - apply IH; [done | |].
    + apply Forall_app. split; [done |]. apply Forall_singleton.
      split_and!; [apply strip_idemp | done |].
      intros H. by apply strip_elem_of in H.
    + by apply no_blank_run_snoc.
Qed.

(** Lines that are clean already, with no two blank ones side by side, go
    through the loop unchanged. *)
Lemma clean_lines_fixed (lines cleaned : list str) :
  Forall clean_line lines -> no_blank_run (cleaned ++ lines) ->
  Ingest.clean_lines lines cleaned = cleaned ++ lines.
Proof.
  revert cleaned. induction lines as [|line rest IH]; intros cleaned Hc Hr.
  - simpl. by rewrite app_nil_r.
  - cbn [Ingest.clean_lines]. cbv zeta.
    apply Forall_cons in Hc as [(Hs & Hh & _) Hc]. rewrite Hs, Hh.
    assert (Hstep : Ingest.clean_lines rest (cleaned ++ [line]) = cleaned ++ line :: rest).
    { rewrite IH; [by rewrite <- app_assoc | done | by rewrite <- app_assoc]. }
    destruct (decide (line = [])) as [-> | Hne]; [| done].
    pose proof (no_blank_run_middle _ _ Hr) as Hl.
    by destruct (last cleaned) as [[|c t]|].
Qed.

Lemma split_char_app c (l rest cur : str) :
  c ∉ l -> split_char c (l ++ c :: rest) cur = (cur ++ l) :: split_char c rest [].
Proof.
  revert cur. induction l as [|a l IH]; intros cur Hc; simpl.
  - by rewrite N.eqb_refl, app_nil_r.
  - apply not_elem_of_cons in Hc as [Hne Hc].
    destruct (N.eqb_spec a c) as [-> | _]; [done |].
    rewrite IH by done. by rewrite <- app_assoc.
Qed.

Lemma split_char_join c (l : str) (ls : list str) (cur : str) :
  c ∉ l -> Forall (fun l => c ∉ l) ls ->
  split_char c (join [c] (l :: ls)) cur = (cur ++ l) :: ls.
Proof.
  revert l cur. induction ls as [|q ls IH]; intros l cur Hl Hls.
  - simpl. by apply split_char_no_separator.
  - apply Forall_cons in Hls as [Hq Hls].
    change (join [c] (l :: q :: ls)) with (l ++ c :: join [c] (q :: ls)).
    rewrite split_char_app by done. by rewrite IH.
Qed.

Lemma lstrip_join (ls : list str) :
  Forall (fun l => lstrip l = l) ls -> lstrip (join nl ls) = join nl (drop_blank ls).
Proof.
  induction 1 as [|l ls Hl Hls IH]; [done |].
  destruct l as [|c t].
  - destruct ls as [|q ls]; [done |].
    change (join nl ([] :: q :: ls)) with (nl ++ join nl (q :: ls)).
    rewrite lstrip_spaces_app by (by repeat constructor). exact IH.
  - pose proof (lstrip_head _ _ _ Hl) as Hc.
    change (drop_blank ((c :: t) :: ls)) with ((c :: t) :: ls).
    destruct ls as [|q ls]; [done |].
    change (join nl ((c :: t) :: q :: ls)) with (c :: t ++ nl ++ join nl (q :: ls)).
    by apply lstrip_fixed.
Qed.

Lemma join_snoc (sep : str) (ls : list str) (p : str) :
  ls <> [] -> join sep (ls ++ [p]) = join sep ls ++ sep ++ p.
Proof.
  induction ls as [|l ls IH]; [done |]. intros _.
  destruct ls as [|q ls]; [done |].
  change (join sep ((l :: q :: ls) ++ [p])) with (l ++ sep ++ join sep ((q :: ls) ++ [p])).
  rewrite IH by done.
  change (join sep (l :: q :: ls)) with (l ++ sep ++ join sep (q :: ls)).
  by rewrite <- !app_assoc.
Qed.

Lemma rev_join (ls : list str) : rev (join nl ls) = join nl (rev ((@rev N) <$> ls)).
Proof.
  induction ls as [|l ls IH]; [done |].
  destruct ls as [|q ls]; [done |].
  change (join nl (l :: q :: ls)) with (l ++ nl ++ join nl (q :: ls)).
  rewrite !rev_app_distr, IH. change (rev nl) with nl.
  rewrite (fmap_cons (@rev N) l).
  change (rev (rev l :: ((@rev N) <$> q :: ls)))
    with (rev ((@rev N) <$> q :: ls) ++ [rev l]).
  set (R := rev ((@rev N) <$> q :: ls)).
  assert (HR : R <> []).
  { subst R. intros H. apply (f_equal (@length _)) in H.
    rewrite length_rev, length_fmap in H. done. }
  rewrite join_snoc by done. by rewrite <- app_assoc.
Qed.

Lemma drop_blank_rev (ls : list str) : drop_blank ((@rev N) <$> ls) = (@rev N) <$> drop_blank ls.
Proof.
  induction ls as [|l ls IH]; [done |]. csimpl.
  destruct l as [|c t]; [exact IH |]. csimpl.
  destruct (rev t ++ [c]) as [|a r] eqn:E; [| done].
  by apply app_eq_nil in E as [_ ?].
Qed.

Lemma drop_blank_suffix (ls : list str) :
  exists a, ls = a ++ drop_blank ls /\ Forall (fun l => l = []) a.
Proof.
  induction ls as [|l ls (a & IH & Ha)]; [by exists [] |].
  destruct l as [|c t].
  - exists ([] :: a). simpl. split; [by f_equal | by constructor].
  - by exists [].
Qed.

Lemma trim_blank_middle (ls : list str) : exists a b, ls = a ++ trim_blank ls ++ b.
Proof.
  destruct (drop_blank_suffix ls) as (a & Ha & _).
  destruct (drop_blank_suffix (rev (drop_blank ls))) as (b & Hb & _).
  exists a, (rev b). unfold trim_blank.
  rewrite <- rev_app_distr, <- Hb, rev_involutive. done.
Qed.

Lemma fmap_rev_comm {A B} (f : A -> B) (l : list A) : f <$> rev l = rev (f <$> l).
Proof.
  induction l as [|x l IH]; [done |]. csimpl. by rewrite fmap_app, IH.
Qed.

Lemma rstrip_join (ls : list str) :
  Forall (fun l => rstrip l = l) ls ->
  rstrip (join nl ls) = join nl (rev (drop_blank (rev ls))).
Proof.
  intros H. unfold rstrip at 1. rewrite rev_join, lstrip_join.
  - rewrite rev_join. f_equal. f_equal.
    rewrite <- fmap_rev_comm, drop_blank_rev, <- list_fmap_compose.
    rewrite <- (list_fmap_id (drop_blank (rev ls))) at 2.
    apply list_fmap_ext. intros i x _. simpl. apply rev_involutive.
  - apply Forall_forall. intros x Hx.
    apply elem_of_rev_iff, list_elem_of_fmap in Hx as (l & -> & Hl).
    rewrite Forall_forall in H. specialize (H l Hl). unfold rstrip in H.
    rewrite <- H at 2. by rewrite rev_involutive.
Qed.

Lemma strip_join (ls : list str) :
  Forall (fun l => strip l = l) ls -> strip (join nl ls) = join nl (trim_blank ls).
Proof.
  intros H. unfold strip at 1. rewrite lstrip_join.
  - rewrite rstrip_join; [done |].
    destruct (drop_blank_suffix ls) as (a & Ha & _).
    rewrite Ha in H. apply Forall_app in H as [_ H].
    eapply Forall_impl; [exact H |]. intros l Hl. simpl in Hl.
    rewrite <- Hl. unfold strip. apply rstrip_idemp.
  - eapply Forall_impl; [exact H |]. intros l Hl. simpl in Hl.
    rewrite <- Hl. apply lstrip_strip.
Qed.

(** X24. Cleaning the text of a chunk.  The cleaned text is trimmed; each
    of its lines is trimmed, and none is a title, a line that starts with
    [##]; no two blank lines stand next to each other; and cleaning a
    cleaned text changes nothing. *)
Theorem clean_chunk_text_lines (text : str) :
  let cleaned := Ingest._clean_chunk_text text in
  strip cleaned = cleaned /\
  Forall (fun line => strip line = line /\ startswith (u "##") line = false)
    (lines_of cleaned) /\
  no_blank_run (lines_of cleaned) /\
  Ingest._clean_chunk_text cleaned = cleaned.
Proof.
  intros cleaned.
  assert (Hstrip : strip cleaned = cleaned) by apply strip_idemp.
  set (cl := Ingest.clean_lines (split_char 10%N text []) []).
  assert (Hinv : Forall clean_line cl /\ no_blank_run cl).
  { apply clean_lines_inv; [| constructor | apply no_blank_run_nil].
    apply Forall_forall. intros line Hline Hin.
    destruct (split_char_elem_of _ _ _ _ _ Hline Hin) as [H | [_ H]]; [| done].
    by apply elem_of_nil in H. }
  destruct Hinv as [Hcl Hrun].
  assert (Hjoin : cleaned = join nl (trim_blank cl)).
  { subst cleaned. unfold Ingest._clean_chunk_text. cbv zeta. fold cl.
    apply strip_join. eapply Forall_impl; [exact Hcl |]. by intros l [? _]. }
  destruct (trim_blank_middle cl) as (a & b & Hmid).
  assert (HT : Forall clean_line (trim_blank cl) /\ no_blank_run (trim_blank cl)).
  { rewrite Hmid in Hcl, Hrun. split.
    - apply Forall_app in Hcl as [_ Hcl]. by apply Forall_app in Hcl as [Hcl _].
    - by apply no_blank_run_suffix, no_blank_run_prefix in Hrun. }
  destruct HT as [HTc HTr].
  assert (Hlines : lines_of cleaned = match trim_blank cl with [] => [[]] | _ => trim_blank cl end).
  { unfold lines_of. rewrite Hjoin. destruct (trim_blank cl) as [|l ls]; [done |].
    apply Forall_cons in HTc as [(_ & _ & Hl) HTc].
    apply (split_char_join 10%N l ls []); [done |].
    eapply Forall_impl; [exact HTc |]. by intros x (_ & _ & ?). }
  assert (Hgood : Forall clean_line (lines_of cleaned) /\ no_blank_run (lines_of cleaned)).
  { rewrite Hlines. destruct (trim_blank cl) as [|l ls]; [| done].
    split; [apply Forall_singleton, clean_line_blank |].
    apply no_blank_run_cons. split; [done | apply no_blank_run_nil]. }
  destruct Hgood as [Hgc Hgr].
  split_and!.
  - done.
  - eapply Forall_impl; [exact Hgc |]. by intros l (? & ? & _).
  - done.
  - unfold Ingest._clean_chunk_text. cbv zeta. fold (lines_of cleaned).
    rewrite clean_lines_fixed by done. simpl.
    rewrite Hlines. destruct (trim_blank cl) as [|l ls] eqn:ET.
    + by rewrite Hjoin.
    + by rewrite <- Hjoin.
Qed.
